(** * Galadriel.CSS: the Babel plugin [alchemy.js], its configuration reader
    and the build command's exclusion filter

    The development embeds the JavaScript sources

    - [alchemy.js]            ([transformTemplateLiteral], [generatesAlchemy],
                               [walkThroughOutAst] and the plugin's
                               [CallExpression] visitor),
    - [scripts/parseConfig.js] ([parseConfig]),
    - the build command        ([assembleApplicationStyles])

    over an explicit JavaScript store: syntax-tree nodes are objects that
    live in a heap and are mutated in place, the plugin's module-level
    [usedObjects] and [transformedNodes] are part of the state, and the
    native style engine [alchemyProcessing] is a parameter. *)

From Stdlib Require Import ZArith Ascii String List Bool Lia.
From stdpp Require Import base option list strings pretty gmap.

Set Default Proof Using "Type".
Set Warnings "-register-all".

(** ** JavaScript values and the store *)

(** A JavaScript value: a primitive, or a reference to an object of the
    store.  Numbers are the integers (positions, line and column numbers). *)
Inductive val : Type :=
  | VUndef
  | VNull
  | VBool (b : bool)
  | VNum (n : Z)
  | VStr (s : string)
  | VRef (l : nat).

(** A stored object: a plain object with its own properties in insertion
    order, or an array. *)
Inductive obj : Type :=
  | OObj (fields : list (string * val))
  | OArr (elems : list val).

#[global] Instance val_eq_dec : EqDecision val.
Proof. solve_decision. Defined.
#[global] Instance obj_eq_dec : EqDecision obj.
Proof. solve_decision. Defined.

(** A value as the parser or [JSON.parse] hands it over, before it is laid
    out in the store: the same shapes, with the children in place. *)
Inductive tree : Type :=
  | TUndef
  | TNull
  | TBool (b : bool)
  | TNum (n : Z)
  | TStr (s : string)
  | TObj (fields : list (string * tree))
  | TArr (elems : list tree).

(** ** Strings *)

Definition dquote : ascii := "034"%char.
Definition squote : ascii := "039"%char.
Definition backslash : ascii := "092"%char.

Fixpoint string_map (f : ascii -> ascii) (s : string) : string :=
  match s with
  | EmptyString => EmptyString
  | String c s' => String (f c) (string_map f s')
  end.

Fixpoint string_filter (f : ascii -> bool) (s : string) : string :=
  match s with
  | EmptyString => EmptyString
  | String c s' => if f c then String c (string_filter f s') else string_filter f s'
  end.

(** [s.replaceAll] of every double quote by a single quote. *)
Definition replaceAll_dquote (s : string) : string :=
  string_map (fun c => if Ascii.eqb c dquote then squote else c) s.

Definition hex_digit (n : nat) : ascii :=
  match n with
  | 0 => "0" | 1 => "1" | 2 => "2" | 3 => "3" | 4 => "4" | 5 => "5"
  | 6 => "6" | 7 => "7" | 8 => "8" | 9 => "9" | 10 => "a" | 11 => "b"
  | 12 => "c" | 13 => "d" | 14 => "e" | _ => "f"
  end%char.

(** The escape [JSON.stringify] writes for one code unit of a string. *)
Definition json_escape (c : ascii) : string :=
  let n := nat_of_ascii c in
  if Ascii.eqb c dquote then String backslash (String dquote EmptyString)
  else if Ascii.eqb c backslash then String backslash (String backslash EmptyString)
  else if Nat.eqb n 8 then String backslash "b"
  else if Nat.eqb n 9 then String backslash "t"
  else if Nat.eqb n 10 then String backslash "n"
  else if Nat.eqb n 12 then String backslash "f"
  else if Nat.eqb n 13 then String backslash "r"
  else if Nat.ltb n 32 then
    String backslash (String "u" (String "0" (String "0"
      (String (hex_digit (n / 16)) (String (hex_digit (n mod 16)) EmptyString)))))
  else String c EmptyString.

Fixpoint json_escape_all (s : string) : string :=
  match s with
  | EmptyString => EmptyString
  | String c s' => json_escape c +:+ json_escape_all s'
  end.

(** [JSON.stringify(s)] for a string [s]. *)
Definition json_quote (s : string) : string :=
  String dquote (json_escape_all s +:+ String dquote EmptyString).

(** The characters the regular expression class [\s] matches, among the
    code units below 256. *)
Definition is_whitespace (c : ascii) : bool :=
  let n := nat_of_ascii c in
  Nat.eqb n 9 || Nat.eqb n 10 || Nat.eqb n 11 || Nat.eqb n 12 || Nat.eqb n 13
  || Nat.eqb n 32 || Nat.eqb n 160.

(** [s.replace] of every match of [/\s+/g] by the empty string. *)
Definition strip_whitespace (s : string) : string :=
  string_filter (fun c => negb (is_whitespace c)) s.

Fixpoint is_prefix (p s : string) : bool :=
  match p, s with
  | EmptyString, _ => true
  | String a p', String b s' => Ascii.eqb a b && is_prefix p' s'
  | String _ _, EmptyString => false
  end.

(** [s.includes(sub)] *)
Fixpoint includes (s sub : string) : bool :=
  is_prefix sub s ||
  match s with
  | EmptyString => false
  | String _ s' => includes s' sub
  end.

Fixpoint join (sep : string) (l : list string) : string :=
  match l with
  | [] => EmptyString
  | [x] => x
  | x :: l' => x +:+ sep +:+ join sep l'
  end.

(** ** Reading and writing the store *)

Inductive exn : Type :=
  | TypeError (what : string)
  | SyntaxError
  | SystemError
  | EngineFailure.

(** The outcome of a computation: a value, a thrown exception, or no outcome
    within the given number of loop iterations. *)
Inductive res (A : Type) : Type :=
  | Ok (a : A)
  | Throw (e : exn)
  | Timeout.
Arguments Ok {A} a.
Arguments Throw {A} e.
Arguments Timeout {A}.

Fixpoint assoc {A} (k : string) (l : list (string * A)) : option A :=
  match l with
  | [] => None
  | (k', v) :: l' => if String.eqb k k' then Some v else assoc k l'
  end.

(** Assignment to a property: an existing property keeps its place, a new one
    is added last. *)
Fixpoint assoc_set {A} (k : string) (x : A) (l : list (string * A)) : list (string * A) :=
  match l with
  | [] => [(k, x)]
  | (k', v) :: l' => if String.eqb k k' then (k, x) :: l' else (k', v) :: assoc_set k x l'
  end.

Definition or_undef (o : option val) : val :=
  match o with Some v => v | None => VUndef end.

(** [v.k] for a property name [k] that is not an array index. *)
Definition get_field (h : list obj) (v : val) (k : string) : res val :=
  match v with
  | VUndef | VNull => Throw (TypeError "cannot read properties of undefined or null")
  | VRef l =>
      match h !! l with
      | Some (OObj fs) => Ok (or_undef (assoc k fs))
      | Some (OArr es) =>
          if String.eqb k "length" then Ok (VNum (Z.of_nat (length es))) else Ok VUndef
      | None => Ok VUndef
      end
  | VStr s => if String.eqb k "length" then Ok (VNum (Z.of_nat (String.length s))) else Ok VUndef
  | VBool _ | VNum _ => Ok VUndef
  end.

(** [v[i]] for an index [i]. *)
Definition get_index (h : list obj) (v : val) (i : nat) : res val :=
  match v with
  | VUndef | VNull => Throw (TypeError "cannot read properties of undefined or null")
  | VRef l =>
      match h !! l with
      | Some (OObj fs) => Ok (or_undef (assoc (pretty i) fs))
      | Some (OArr es) => Ok (or_undef (es !! i))
      | None => Ok VUndef
      end
  | VStr s =>
      match String.get i s with
      | Some c => Ok (VStr (String c EmptyString))
      | None => Ok VUndef
      end
  | VBool _ | VNum _ => Ok VUndef
  end.

(** [a.b.c...]: a chain of property reads. *)
Fixpoint get_path (h : list obj) (v : val) (ks : list string) : res val :=
  match ks with
  | [] => Ok v
  | k :: ks' =>
      match get_field h v k with
      | Ok v' => get_path h v' ks'
      | r => r
      end
  end.

(** The store after the property [k] of the object at [l] has been set to
    [x]. *)
Definition replace_field (l : nat) (k : string) (x : val) (h : list obj) : list obj :=
  match h !! l with
  | Some (OObj fs) => <[l := OObj (assoc_set k x fs)]> h
  | _ => h
  end.

(** [v.k = x].  The file is not in strict mode: an assignment to a property
    of a primitive is dropped.  The source assigns named properties to plain
    objects only. *)
Definition set_field (h : list obj) (v : val) (k : string) (x : val) : res (list obj) :=
  match v with
  | VUndef | VNull => Throw (TypeError "cannot set properties of undefined or null")
  | VRef l => Ok (replace_field l k x h)
  | _ => Ok h
  end.

(** Truthiness, as [if (v)], [!v] and [v && ...] test it. *)
Definition truthy (v : val) : bool :=
  match v with
  | VUndef | VNull => false
  | VBool b => b
  | VNum n => negb (Z.eqb n 0)
  | VStr s => negb (String.eqb s EmptyString)
  | VRef _ => true
  end.

(** [typeof v === 'object'] *)
Definition typeof_object (v : val) : bool :=
  match v with
  | VNull | VRef _ => true
  | _ => false
  end.

(** [Array.isArray(v)] *)
Definition isArray (h : list obj) (v : val) : bool :=
  match v with
  | VRef l => match h !! l with Some (OArr _) => true | _ => false end
  | _ => false
  end.

(** [v != null && v.k === x] for a string [x]. *)
Definition field_is (h : list obj) (v : val) (k x : string) : bool :=
  match get_field h v k with
  | Ok (VStr s) => String.eqb s x
  | _ => false
  end.

(** [v != null && v.type === ty]: the test of [t.isX(v)] in [@babel/types],
    and of [v.type === ty] where [v] is an object. *)
Definition type_is (h : list obj) (v : val) (ty : string) : bool :=
  field_is h v "type" ty.

(** The values [for (const k in v)] reaches through [v[k]]: the own
    properties of an object, the elements of an array.  (The characters of a
    string are enumerated too; they are strings and are listed as such.) *)
Definition own_values (h : list obj) (v : val) : list val :=
  match v with
  | VRef l =>
      match h !! l with
      | Some (OObj fs) => map snd fs
      | Some (OArr es) => es
      | None => []
      end
  | VStr s => map (fun c => VStr (String c EmptyString)) (list_ascii_of_string s)
  | _ => []
  end.

(** The values [for (const x of v)] iterates over; anything but an array or
    a string is not iterable. *)
Definition iterate (h : list obj) (v : val) : res (list val) :=
  match v with
  | VRef l =>
      match h !! l with
      | Some (OArr es) => Ok es
      | _ => Throw (TypeError "not iterable")
      end
  | VStr s => Ok (map (fun c => VStr (String c EmptyString)) (list_ascii_of_string s))
  | _ => Throw (TypeError "not iterable")
  end.

(** ** Laying a tree out in the store, and reading it back *)

Section alloc_seq.
Context {A B : Type} (f : A -> list obj -> B * list obj).

Fixpoint alloc_seq (l : list A) (h : list obj) : list B * list obj :=
  match l with
  | [] => ([], h)
  | a :: l' =>
      let '(b, h1) := f a h in
      let '(bs, h2) := alloc_seq l' h1 in
      (b :: bs, h2)
  end.
End alloc_seq.

(** New objects are added at the end of the store, the children of a node
    before the node itself; nothing that is already there is touched. *)
Fixpoint alloc (t : tree) (h : list obj) : val * list obj :=
  match t with
  | TUndef => (VUndef, h)
  | TNull => (VNull, h)
  | TBool b => (VBool b, h)
  | TNum n => (VNum n, h)
  | TStr s => (VStr s, h)
  | TObj fs =>
      let '(fvs, h') :=
        alloc_seq (fun (kt : string * tree) h0 =>
                     let '(v, h1) := alloc (snd kt) h0 in ((fst kt, v), h1)) fs h in
      (VRef (length h'), h' ++ [OObj fvs])
  | TArr es =>
      let '(vs, h') := alloc_seq alloc es h in
      (VRef (length h'), h' ++ [OArr vs])
  end.

Section reify_seq.
Context {A B : Type} (f : A -> option B).

Fixpoint reify_seq (l : list A) : option (list B) :=
  match l with
  | [] => Some []
  | a :: l' =>
      match f a with
      | Some b =>
          match reify_seq l' with
          | Some bs => Some (b :: bs)
          | None => None
          end
      | None => None
      end
  end.
End reify_seq.

(** The tree below a value, down to [depth] levels of objects; [None] when
    the structure is deeper. *)
Fixpoint reify (depth : nat) (h : list obj) (v : val) : option tree :=
  match v with
  | VUndef => Some TUndef
  | VNull => Some TNull
  | VBool b => Some (TBool b)
  | VNum n => Some (TNum n)
  | VStr s => Some (TStr s)
  | VRef l =>
      match depth with
      | 0 => None
      | S d =>
          match h !! l with
          | Some (OObj fs) =>
              option_map TObj
                (reify_seq (fun (kv : string * val) =>
                              option_map (pair (fst kv)) (reify d h (snd kv))) fs)
          | Some (OArr es) => option_map TArr (reify_seq (reify d h) es)
          | None => Some (TObj [])
          end
      end
  end.

(** A structure with more levels than the store has objects goes through
    one object twice: it is circular. *)
Definition reify_store (h : list obj) (v : val) : option tree :=
  reify (S (length h)) h v.

(** The text [JSON.stringify] writes for a value inside an object or an
    array. *)
Fixpoint to_json (t : tree) : string :=
  match t with
  | TUndef => "null"
  | TNull => "null"
  | TBool true => "true"
  | TBool false => "false"
  | TNum n => pretty n
  | TStr s => json_quote s
  | TObj fs =>
      "{" +:+ join ","
        (omap (fun (kt : string * tree) =>
                 match snd kt with
                 | TUndef => None
                 | _ => Some (json_quote (fst kt) +:+ ":" +:+ to_json (snd kt))
                 end) fs) +:+ "}"
  | TArr es => "[" +:+ join "," (map to_json es) +:+ "]"
  end.

(** [JSON.stringify(v)] for a value of the store: [undefined] for
    [undefined], a [TypeError] for a circular structure. *)
Definition json_stringify (h : list obj) (v : val) : res (option string) :=
  match v with
  | VUndef => Ok None
  | _ =>
      match reify_store h v with
      | Some t => Ok (Some (to_json t))
      | None => Throw (TypeError "converting circular structure to JSON")
      end
  end.

(** ** The plugin *)

(** One call of the style engine: [alchemyProcessing(property, value,
    isModular, filePath, pseudo)]. *)
Record call : Type := Call {
  call_property : val;
  call_value : string;
  call_modular : tree;
  call_file : string;
  call_pseudo : val
}.

Section Alchemy.

(** The native bindings of [index.js]: the style engine, which keeps a
    state of its own and may throw ([None]), and the hashing function. *)
Variable EngineState : Type.
Variable alchemyProcessing : call -> EngineState -> option string * EngineState.
Variable generatesHashingHex : string -> bool -> bool -> string.
(** [resolve] of Node's [path] module, for the working directory of the
    process. *)
Variable resolve : string -> string.

(** The state of the process: the store, the plugin's two module-level
    variables, the engine, and what was observed from outside: the calls
    made to the engine and the exceptions written by [console.error]. *)
Record state : Type := State {
  heap : list obj;
  usedObjects : list string;
  transformedNodes : gmap string val;
  engine : EngineState;
  calls : list call;
  console : list exn
}.

Definition set_heap (h : list obj) (s : state) : state :=
  State h (usedObjects s) (transformedNodes s) (engine s) (calls s) (console s).

Definition M (A : Type) : Type := state -> res A * state.

Definition ret {A} (a : A) : M A := fun s => (Ok a, s).

Definition bind {A B} (m : M A) (f : A -> M B) : M B :=
  fun s =>
    match m s with
    | (Ok a, s') => f a s'
    | (Throw e, s') => (Throw e, s')
    | (Timeout, s') => (Timeout, s')
    end.

Definition timeout {A} : M A := fun s => (Timeout, s).

Notation "x <- m ;; k" := (bind m (fun x => k))
  (at level 100, m at next level, right associativity).
Notation "m ;;; k" := (bind m (fun _ => k))
  (at level 100, right associativity).

(** [try { m } catch (error) { handler(error) }] *)
Definition try_catch {A} (m : M A) (handler : exn -> M A) : M A :=
  fun s =>
    match m s with
    | (Throw e, s') => handler e s'
    | r => r
    end.

(** [console.error("An error occurred:", error)] *)
Definition console_error (e : exn) : M unit :=
  fun s => (Ok tt, State (heap s) (usedObjects s) (transformedNodes s)
                         (engine s) (calls s) (console s ++ [e])).

(** A read of the store. *)
Definition read {A} (f : list obj -> res A) : M A := fun s => (f (heap s), s).

(** A write to the store. *)
Definition write (f : list obj -> res (list obj)) : M unit :=
  fun s =>
    match f (heap s) with
    | Ok h' => (Ok tt, set_heap h' s)
    | Throw e => (Throw e, s)
    | Timeout => (Timeout, s)
    end.

Definition get (v : val) (ks : list string) : M val := read (fun h => get_path h v ks).

(** [o.k = x] where [o] is itself read through the path [ks]. *)
Definition assign (v : val) (ks : list string) (k : string) (x : val) : M unit :=
  o <- get v ks ;; write (fun h => set_field h o k x).

(** [v.replaceAll] of double quotes by single quotes: only a string has
    the method. *)
Definition replaceAll (v : val) : M string :=
  match v with
  | VStr s => ret (replaceAll_dquote s)
  | VUndef | VNull => fun s => (Throw (TypeError "cannot read properties of undefined or null"), s)
  | _ => fun s => (Throw (TypeError "replaceAll is not a function"), s)
  end.

(** The call of the engine; the call is recorded whether it returns or
    throws. *)
Definition engine_call (c : call) : M string :=
  fun s =>
    let '(r, e') := alchemyProcessing c (engine s) in
    let s' := State (heap s) (usedObjects s) (transformedNodes s) e' (calls s ++ [c]) (console s) in
    match r with
    | Some className => (Ok className, s')
    | None => (Throw EngineFailure, s')
    end.

(** [filePath ||] the empty string *)
Definition path_or_empty (filePath : option string) : string :=
  match filePath with Some p => p | None => EmptyString end.

Definition when (b : bool) (m : M unit) : M unit := if b then m else ret tt.

Definition nonempty (s : string) : bool := negb (String.eqb s EmptyString).

(** [for (const x of xs) body(x)] *)
Fixpoint for_each {A} (xs : list A) (body : A -> M unit) : M unit :=
  match xs with
  | [] => ret tt
  | x :: xs' => body x ;;; for_each xs' body
  end.

Section transform.
Variable isModular : tree.
Variable filePath : option string.

(** [alchemyProcessing(property.key.name, JSON.stringify(<lit>.replaceAll(...)),
    isModular, filePath || '', <pseudo>)], the arguments evaluated from
    left to right; [lit] read through [ks] is the literal's text. *)
Definition transform_value (property : val) (lit : val) (ks : list string)
    (pseudo : M val) : M string :=
  name <- get property ["key"; "name"] ;;
  raw <- get lit ks ;;
  text <- replaceAll raw ;;
  currentPseudo <- pseudo ;;
  engine_call (Call name (json_quote text) isModular (path_or_empty filePath) currentPseudo).

Definition transformTemplateLiteral (property : val) (currentPseudo : val) : M unit :=
  ty <- get property ["value"; "type"] ;;
  if decide (ty = VStr "TemplateLiteral") then
    condExpr <- (exprs <- get property ["value"; "expressions"] ;;
                 read (fun h => get_index h exprs 0)) ;;
    if truthy condExpr then
      classNameConsequent <-
        transform_value property condExpr ["consequent"; "value"] (ret currentPseudo) ;;
      classNameAlternate <-
        transform_value property condExpr ["alternate"; "value"] (ret currentPseudo) ;;
      when (nonempty classNameConsequent)
        (assign condExpr ["consequent"] "value" (VStr classNameConsequent)) ;;;
      when (nonempty classNameAlternate)
        (assign condExpr ["alternate"] "value" (VStr classNameAlternate))
    else
      quasis <- (qs <- get property ["value"; "quasis"] ;;
                 read (fun h => get_index h qs 0)) ;;
      if truthy quasis then
        className <-
          transform_value property quasis ["value"; "cooked"] (ret currentPseudo) ;;
        when (nonempty className)
          (assign quasis ["value"] "cooked" (VStr className))
      else ret tt
  else ret tt.

(** The body of the inner loop, over [property.value.properties]. *)
Definition nested_step (property nestedProperty : val) : M unit :=
  nty <- get nestedProperty ["value"; "type"] ;;
  if decide (nty = VStr "StringLiteral") then
    className <-
      transform_value nestedProperty nestedProperty ["value"; "value"]
                      (get property ["key"; "name"]) ;;
    when (nonempty className)
      (assign nestedProperty ["value"] "value" (VStr className))
  else
    pseudo <- get property ["key"; "name"] ;;
    transformTemplateLiteral nestedProperty pseudo.

(** The body of the outer loop, over [node.properties]. *)
Definition property_step (property : val) : M unit :=
  isId <- (key <- get property ["key"] ;;
           read (fun h => Ok (type_is h key "Identifier"))) ;;
  if negb isId then ret tt
  else
    ty <- get property ["value"; "type"] ;;
    if decide (ty = VStr "StringLiteral") then
      className <-
        transform_value property property ["value"; "value"] (ret (VStr EmptyString)) ;;
      when (nonempty className)
        (assign property ["value"] "value" (VStr className))
    else if decide (ty = VStr "ObjectExpression") then
      nested <- (ps <- get property ["value"; "properties"] ;;
                 read (fun h => iterate h ps)) ;;
      for_each nested (nested_step property)
    else transformTemplateLiteral property (VStr EmptyString).

Definition generatesAlchemy (node : val) : M unit :=
  try_catch
    (isObj <- read (fun h => Ok (type_is h node "ObjectExpression")) ;;
     if negb isObj then ret tt
     else
       properties <- (ps <- get node ["properties"] ;; read (fun h => iterate h ps)) ;;
       for_each properties property_step)
    (fun error => console_error error).

(** The test of the walker's inner loop on [node[nestedProperty]]. *)
Definition pushed (h : list obj) (node child : val) : bool :=
  truthy child && typeof_object child
  && negb (type_is h node "ObjectExpression" && isArray h child).

(** [for (const nestedProperty in node) if (...) stack.push(node[nestedProperty])];
    the head of the list is the top of the stack. *)
Definition push_children (h : list obj) (node : val) (stack : list val) : list val :=
  fold_left (fun stk child => if pushed h node child then child :: stk else stk)
            (own_values h node) stack.

(** The [while] loop of [walkThroughOutAst], for at most [fuel]
    iterations.  The result lists the nodes in the order they were popped,
    each of them handed to [generatesAlchemy]. *)
Fixpoint walk_loop (fuel : nat) (stack : list val) : M (list val) :=
  match stack with
  | [] => ret []
  | node :: stack' =>
      match fuel with
      | 0 => timeout
      | S fuel' =>
          generatesAlchemy node ;;;
          stack'' <- read (fun h => Ok (push_children h node stack')) ;;
          visited <- walk_loop fuel' stack'' ;;
          ret (node :: visited)
      end
  end.

Definition walkThroughOutAst (fuel : nat) (rootNode : val) : M (list val) :=
  try_catch (walk_loop fuel [rootNode])
            (fun error => console_error error ;;; ret []).

End transform.

(** [cloneDeep(v)] of lodash: the copy is made of new objects only.  (A
    circular structure has no tree; the plugin clones what
    [JSON.stringify] has accepted or [cloneDeep] itself has made.) *)
Definition cloneDeep (v : val) : M val :=
  fun s =>
    match reify_store (heap s) v with
    | Some t => let '(v', h') := alloc t (heap s) in (Ok v', set_heap h' s)
    | None => (Timeout, s)
    end.

(** [exclude.some(__path => filePath?.includes(resolve(__path)))]:
    [resolve] is not called when [filePath] is undefined, and it throws
    when its argument is not a string. *)
Fixpoint some_excluded (filePath : option string) (entries : list tree) : res bool :=
  match entries with
  | [] => Ok false
  | e :: entries' =>
      match filePath with
      | None => some_excluded filePath entries'
      | Some p =>
          match e with
          | TStr entry =>
              if includes p (resolve entry) then Ok true
              else some_excluded filePath entries'
          | _ => Throw (TypeError "the path argument must be of type string")
          end
      end
  end.

Definition excluded (exclude : tree) (filePath : option string) : res bool :=
  match exclude with
  | TArr entries => some_excluded filePath entries
  | TUndef | TNull => Throw (TypeError "cannot read properties of undefined or null")
  | _ => Throw (TypeError "exclude.some is not a function")
  end.

(** [transformedNodes[hashedNode]] *)
Definition collected (hashedNode : string) : M val :=
  fun s => (Ok (or_undef (transformedNodes s !! hashedNode)), s).

(** [transformedNodes[hashedNode] = v; usedObjects.push(hashedNode)] *)
Definition save (hashedNode : string) (v : val) : M unit :=
  fun s => (Ok tt, State (heap s) (usedObjects s ++ [hashedNode])
                         (<[hashedNode := v]> (transformedNodes s))
                         (engine s) (calls s) (console s)).

(** The fingerprint of a callback body: the digest of its JSON text
    without whitespace. *)
Definition fingerprint (text : string) : string :=
  generatesHashingHex (strip_whitespace text) true false.

Definition hash_body (callback : val) : M string :=
  body <- get callback ["body"] ;;
  json <- read (fun h => json_stringify h body) ;;
  match json with
  | Some text => ret (fingerprint text)
  | None => fun s => (Throw (TypeError "cannot read properties of undefined"), s)
  end.

(** The three statements that transform a callback body and cache a copy of
    the result. *)
Definition transform_and_save (isModular : tree) (filePath : option string)
    (fuel : nat) (callback : val) (hashedNode : string) : M unit :=
  (body <- get callback ["body"] ;; walkThroughOutAst isModular filePath fuel body) ;;;
  copy <- (body <- get callback ["body"] ;; cloneDeep body) ;;
  save hashedNode copy.

(** The statement [if (usedObjects.includes(hashedNode)) ... else ...] of the
    visitor: a fingerprint in use has its cached fragment copied into the
    call site; otherwise, and when the cache has nothing for it, the callback
    body is transformed and a copy of it is cached. *)
Definition cache_protocol (isModular : tree) (filePath : option string) (fuel : nat)
    (callback : val) (hashedNode : string) : M unit :=
  used <- (fun s => (Ok (bool_decide (hashedNode ∈ usedObjects s)), s)) ;;
  if (used : bool) then
    collectedNode <- collected hashedNode ;;
    if negb (truthy collectedNode) then
      transform_and_save isModular filePath fuel callback hashedNode
    else
      copy <- cloneDeep collectedNode ;;
      write (fun h => set_field h callback "body" copy)
  else
    transform_and_save isModular filePath fuel callback hashedNode.

(** The visitor [CallExpression(path, state)] of the plugin, for
    [path.node = node] and [state.filename = filename]; [exclude] and
    [isModular] are the two values the plugin took from [parseConfig()]. *)
Definition CallExpression (exclude isModular : tree) (fuel : nat)
    (node : val) (filename : option string) : M unit :=
  try_catch
    (excludePath <- read (fun _ => excluded exclude filename) ;;
     if excludePath then ret tt
     else
       isCrafting <-
         (callee <- get node ["callee"] ;;
          read (fun h => Ok (type_is h callee "Identifier" &&
                             field_is h callee "name" "craftingStyles"))) ;;
       if negb isCrafting then ret tt
       else
         callback <- (args <- get node ["arguments"] ;; read (fun h => get_index h args 0)) ;;
         if negb (truthy callback) then ret tt
         else
           callbackType <- get callback ["type"] ;;
           if bool_decide (callbackType = VStr "FunctionExpression")
              || bool_decide (callbackType = VStr "ArrowFunctionExpression")
           then
             hashedNode <- hash_body callback ;;
             cache_protocol isModular filename fuel callback hashedNode
           else ret tt)
    (fun error => console_error error).

End Alchemy.

(** ** The configuration file *)

(** What the file system says about [galadriel.json]. *)
Inductive file : Type :=
  | Absent
  | Unreadable
  | Content (text : string).

(** [t.k] for a value that is not null or undefined. *)
Definition tree_field (t : tree) (k : string) : tree :=
  match t with
  | TObj fs => match assoc k fs with Some v => v | None => TUndef end
  | _ => TUndef
  end.

(** A destructuring default: it applies to [undefined] only. *)
Definition default_to (d : tree) (t : tree) : tree :=
  match t with TUndef => d | _ => t end.

Section Config.

(** [JSON.parse], [None] for a text that is not JSON. *)
Variable JSON_parse : string -> option tree.

(** [parseConfig()], with the exceptions it writes to the console. *)
Definition parseConfig (galadriel_json : file) : tree * list exn :=
  match galadriel_json with
  | Absent => (TArr [], [])
  | Unreadable => (TArr [], [SystemError])
  | Content text =>
      match JSON_parse text with
      | None => (TArr [], [SyntaxError])
      | Some TNull | Some TUndef =>
          (TArr [], [TypeError "cannot destructure null"])
      | Some config =>
          (TObj [("exclude", default_to (TArr []) (tree_field config "exclude"));
                 ("module", default_to (TBool false) (tree_field config "module"))], [])
      end
  end.

(** [const { exclude, module } = parseConfig()], as the plugin reads it
    when Babel loads it. *)
Definition plugin_config (galadriel_json : file) : tree * tree :=
  let config := fst (parseConfig galadriel_json) in
  (tree_field config "exclude", tree_field config "module").

End Config.

Arguments heap {EngineState} s.
Arguments usedObjects {EngineState} s.
Arguments transformedNodes {EngineState} s.
Arguments engine {EngineState} s.
Arguments calls {EngineState} s.
Arguments console {EngineState} s.
Arguments State {EngineState} heap usedObjects transformedNodes engine calls console.
Arguments set_heap {EngineState} h s.
Arguments ret {EngineState A} a s.
Arguments bind {EngineState A B} m f s.
Arguments try_catch {EngineState A} m handler s.
Arguments console_error {EngineState} e s.
Arguments read {EngineState A} f s.
Arguments write {EngineState} f s.
Arguments get {EngineState} v ks s.
Arguments assign {EngineState} v ks k x s.
Arguments replaceAll {EngineState} v s.
Arguments engine_call {EngineState} alchemyProcessing c s.
Arguments when {EngineState} b m s.
Arguments for_each {EngineState A} xs body s.
Arguments cloneDeep {EngineState} v s.
Arguments collected {EngineState} hashedNode s.
Arguments save {EngineState} hashedNode v s.
Arguments transform_value {EngineState} alchemyProcessing isModular filePath property lit ks pseudo s.
Arguments transformTemplateLiteral {EngineState} alchemyProcessing isModular filePath property currentPseudo s.
Arguments nested_step {EngineState} alchemyProcessing isModular filePath property nestedProperty s.
Arguments property_step {EngineState} alchemyProcessing isModular filePath property s.
Arguments generatesAlchemy {EngineState} alchemyProcessing isModular filePath node s.
Arguments walk_loop {EngineState} alchemyProcessing isModular filePath fuel stack s.
Arguments walkThroughOutAst {EngineState} alchemyProcessing isModular filePath fuel rootNode s.
Arguments hash_body {EngineState} generatesHashingHex callback s.
Arguments transform_and_save {EngineState} alchemyProcessing isModular filePath fuel callback hashedNode s.
Arguments cache_protocol {EngineState} alchemyProcessing isModular filePath fuel callback
  hashedNode s.
Arguments CallExpression {EngineState} alchemyProcessing generatesHashingHex resolve
  exclude isModular fuel node filename s.

(** ** What one literal asks of the engine *)

Section Outcome.
Context {EngineState : Type}.
Variable alchemyProcessing : call -> EngineState -> option string * EngineState.

(** The state after the call [c]: the call is recorded and the engine has
    moved on; the store is [h]. *)
Definition after_call (c : call) (h : list obj) (s : state EngineState) : state EngineState :=
  State h (usedObjects s) (transformedNodes s)
        (snd (alchemyProcessing c (engine s))) (calls s ++ [c]) (console s).

(** The property [k] of the object at [l] replaced by the string [x], when
    [x] is not empty. *)
Definition replace_nonempty (l : nat) (k x : string) (h : list obj) : list obj :=
  if nonempty x then replace_field l k (VStr x) h else h.

(** The engine is called once with [c]; the text held by the property [k]
    of the object at [l] is replaced by a non-empty answer and left as it is
    by an empty one; a failure of the engine leaves the store as it is. *)
Definition literal_outcome (c : call) (l : nat) (k : string) (s : state EngineState)
    : res unit * state EngineState :=
  match fst (alchemyProcessing c (engine s)) with
  | Some className => (Ok tt, after_call c (replace_nonempty l k className (heap s)) s)
  | None => (Throw EngineFailure, after_call c (heap s) s)
  end.

(** The engine is called with [c1], then with [c2]; the two texts, the
    property [value] of the objects at [l1] and [l2], are replaced once
    both calls have returned. *)
Definition ternary_outcome (c1 c2 : call) (l1 l2 : nat) (s : state EngineState)
    : res unit * state EngineState :=
  match fst (alchemyProcessing c1 (engine s)) with
  | Some classNameConsequent =>
      let s1 := after_call c1 (heap s) s in
      match fst (alchemyProcessing c2 (engine s1)) with
      | Some classNameAlternate =>
          (Ok tt,
           after_call c2
             (replace_nonempty l2 "value" classNameAlternate
                (replace_nonempty l1 "value" classNameConsequent (heap s))) s1)
      | None => (Throw EngineFailure, after_call c2 (heap s) s1)
      end
  | None => (Throw EngineFailure, after_call c1 (heap s) s)
  end.

End Outcome.

(** ** The shape of a store *)

(** The plugin writes to two properties only, [value] and [cooked], a string
    over a string.  The shape of a store forgets the strings held there. *)
Definition erased_key (k : string) : bool := String.eqb k "value" || String.eqb k "cooked".

Definition erase (k : string) (v : val) : val :=
  match v with
  | VStr _ => if erased_key k then VStr EmptyString else v
  | _ => v
  end.

Definition erase_field (kv : string * val) : string * val :=
  (fst kv, erase (fst kv) (snd kv)).

Definition skel (o : obj) : obj :=
  match o with
  | OObj fs => OObj (erase_field <$> fs)
  | OArr es => OArr es
  end.

Definition same_shape (h h' : list obj) : Prop := skel <$> h = skel <$> h'.

(** The values an object holds. *)
Definition obj_values (o : obj) : list val :=
  match o with
  | OObj fs => map snd fs
  | OArr es => es
  end.

(** A value that does not refer to an object below [n]. *)
Definition okv (n : nat) (v : val) : Prop :=
  match v with
  | VRef l => n <= l
  | _ => True
  end.

(** The objects from [n] on refer to objects from [n] on only. *)
Definition closed_from (n : nat) (h : list obj) : Prop :=
  forall l o, n <= l -> h !! l = Some o -> Forall (okv n) (obj_values o).

(** The walk without the transformation: the order in which the nodes are
    popped. *)
Fixpoint dfs (fuel : nat) (h : list obj) (stack : list val) : option (list val) :=
  match stack with
  | [] => Some []
  | node :: stack' =>
      match fuel with
      | 0 => None
      | S fuel' => option_map (cons node) (dfs fuel' h (push_children h node stack'))
      end
  end.

(** The edges the walker follows: from a node to the objects and arrays its
    properties (or elements) hold, but not from an object literal to an
    array. *)
Definition walk_edge (h : list obj) (p c : val) : Prop :=
  c ∈ own_values h p /\ (exists l, c = VRef l) /\
  ~ (type_is h p "ObjectExpression" = true /\ isArray h c = true).

(** ** What a transformation may do to the state *)

Section Sound.
Context {EngineState : Type}.
Variable isModular : tree.
Variable filePath : option string.
Variable n : nat.

(** From [s] to [s']: the store keeps its shape, the objects below [n] are
    not written to, the cache is not touched, and the engine has been
    called for this file only. *)
Record step_ok (s s' : state EngineState) : Prop := StepOk {
  ok_shape : same_shape (heap s) (heap s');
  ok_frame : forall l, l < n -> heap s' !! l = heap s !! l;
  ok_used : usedObjects s' = usedObjects s;
  ok_nodes : transformedNodes s' = transformedNodes s;
  ok_calls : exists ext, calls s' = calls s ++ ext /\
    Forall (fun c => call_file c = path_or_empty filePath /\ call_modular c = isModular) ext
}.

(** A computation that comes to an end, does no more than [step_ok]
    allows, and whose result satisfies [post]. *)
Definition sound {A} (m : M EngineState A) (post : A -> Prop) : Prop :=
  forall s, closed_from n (heap s) ->
    fst (m s) <> Timeout /\ step_ok s (snd (m s)) /\
    forall a, fst (m s) = Ok a -> post a.

(** A computation that only looks at the state. *)
Definition pure_read {A} (m : M EngineState A) (post : A -> Prop) : Prop :=
  forall s, closed_from n (heap s) ->
    snd (m s) = s /\ fst (m s) <> Timeout /\ forall a, fst (m s) = Ok a -> post a.

End Sound.

(** ** Measures of a tree *)

(** The number of objects [alloc] adds to the store for a tree. *)
Fixpoint tsize (t : tree) : nat :=
  match t with
  | TObj fs => S (list_sum (map (fun kt : string * tree => tsize (snd kt)) fs))
  | TArr es => S (list_sum (map tsize es))
  | _ => 0
  end.

(** The number of objects on the longest way down a tree. *)
Fixpoint tdepth (t : tree) : nat :=
  match t with
  | TObj fs => S (list_max (map (fun kt : string * tree => tdepth (snd kt)) fs))
  | TArr es => S (list_max (map tdepth es))
  | _ => 0
  end.

(** [walks h v visited]: a walk that finds [v] on top of its stack pops the
    nodes of [visited] and then goes on with what was below [v]. *)
Definition walks (h : list obj) (v : val) (visited : list val) : Prop :=
  forall fuel stack,
    dfs (length visited + fuel) h (v :: stack) = option_map (app visited) (dfs fuel h stack).

(** ** A tree laid out in the store *)

(** [laid h a b v t]: the objects of [h] from [a] up to [b] (excluded) are
    the objects of the tree [t], the children of a node before the node, and
    [v] is the root.  This is what [alloc] produces and what is left of it as
    long as nothing is written to these objects. *)
Inductive laid (h : list obj) : nat -> nat -> val -> tree -> Prop :=
  | laid_undef a : laid h a a VUndef TUndef
  | laid_null a : laid h a a VNull TNull
  | laid_bool a b : laid h a a (VBool b) (TBool b)
  | laid_num a n : laid h a a (VNum n) (TNum n)
  | laid_str a s : laid h a a (VStr s) (TStr s)
  | laid_obj a b fvs fs :
      laid_elems h a b (map snd fvs) (map snd fs) ->
      map fst fvs = map fst fs ->
      h !! b = Some (OObj fvs) ->
      laid h a (S b) (VRef b) (TObj fs)
  | laid_arr a b vs ts :
      laid_elems h a b vs ts ->
      h !! b = Some (OArr vs) ->
      laid h a (S b) (VRef b) (TArr ts)
with laid_elems (h : list obj) : nat -> nat -> list val -> list tree -> Prop :=
  | laid_elems_nil a : laid_elems h a a [] []
  | laid_elems_cons a m b v t vs ts :
      laid h a m v t -> laid_elems h m b vs ts ->
      laid_elems h a b (v :: vs) (t :: ts).

Scheme laid_mut := Minimality for laid Sort Prop
  with laid_elems_mut := Minimality for laid_elems Sort Prop.

Combined Scheme laid_mutind from laid_mut, laid_elems_mut.

(** Two stores with the same objects from [a] up to [b]. *)
Definition agree_on (a b : nat) (h h' : list obj) : Prop :=
  forall l, a <= l < b -> h !! l = h' !! l.

(** A value that refers, if at all, to an object from [a] up to [b]. *)
Definition in_range (a b : nat) (v : val) : Prop :=
  match v with
  | VRef l => a <= l < b
  | _ => True
  end.

(** A reference to an object from [a] up to [b]. *)
Definition is_ref_in (a b : nat) (v : val) : Prop :=
  exists l, v = VRef l /\ a <= l < b.

(** ** The conversion of a value to a string *)

Section Conversion.

(** The text JavaScript writes for a number ([Number::toString]). *)
Variable number_to_string : Z -> string.

(** The string [v + " "] and [`${v}`] start with, [None] when the conversion
    throws a [TypeError]: [undefined] and [null] by their names; a plain
    object as [[object Object]], unless it has a property [toString] of its
    own, which is no function: the object then cannot be converted; an array
    as its elements separated by commas, where [undefined] and [null] leave
    nothing. *)
Fixpoint js_to_string (t : tree) : option string :=
  match t with
  | TUndef => Some "undefined"
  | TNull => Some "null"
  | TBool true => Some "true"
  | TBool false => Some "false"
  | TNum n => Some (number_to_string n)
  | TStr s => Some s
  | TObj fs =>
      match assoc "toString" fs with
      | Some _ => None
      | None => Some "[object Object]"
      end
  | TArr es =>
      option_map (join ",")
        (reify_seq (fun e => match e with
                             | TUndef | TNull => Some EmptyString
                             | _ => js_to_string e
                             end) es)
  end.

End Conversion.

(** ** The build command *)

(** The callback of [exclude.map] in [assembleApplicationStyles]: the name
    of a folder becomes the pattern of all that is below it. *)
Definition expand_entry (item : string) : string :=
  if negb (includes item "./") && negb (includes item "/") && negb (includes item ".")
  then item +:+ "/**"
  else item.

(** [__path[0] !== "."] *)
Definition starts_with_dot (p : string) : bool :=
  match p with
  | String c _ => Ascii.eqb c "."
  | EmptyString => false
  end.

(** [item.includes(x)] for an array [item]: one of its elements is the
    string [x]. *)
Definition array_includes (es : list tree) (x : string) : bool :=
  existsb (fun e => match e with TStr s => String.eqb s x | _ => false end) es.

Section Build.

Variable number_to_string : Z -> string.

(** [glob(pattern, { ignore })] of the glob library: the files below the
    working directory that match; [ignore] is the list the build puts
    together, whose entries need not be strings.  An exception of [glob] is
    caught by the build like any other and no file is processed: for the
    paths processed it is as if [glob] had found no file. *)
Variable glob : string -> list tree -> list string.

(** The callback of [exclude.map] for an entry of any kind, [None] when it
    throws.  A string is dealt with by [expand_entry].  An array has a method
    [includes] too, which looks for an element: an array without the three
    strings among its elements becomes the pattern made of its text, any
    other array is handed over as it is.  Any other value has no method
    [includes]. *)
Definition expand_item (item : tree) : option tree :=
  match item with
  | TStr s => Some (TStr (expand_entry s))
  | TArr es =>
      if negb (array_includes es "./") && negb (array_includes es "/")
         && negb (array_includes es ".")
      then option_map (fun text => TStr (text +:+ "/**")) (js_to_string number_to_string item)
      else Some item
  | _ => None
  end.

(** The paths for which [assembleApplicationStyles] calls
    [processContent(path.resolve(__path))], in order.  [exclude] is the value
    of the configuration; when it is no array, [exclude.map] throws, and when
    the callback throws for one of its entries, [glob] is not called: no file
    is processed. *)
Definition assembleApplicationStyles (exclude : tree) : list string :=
  match exclude with
  | TArr items =>
      match reify_seq expand_item items with
      | Some entries =>
          List.filter (fun p => negb (starts_with_dot p))
                      (glob "**/*.{js,jsx,ts,tsx}"
                            (map TStr ["node_modules/**"; "**/*.{config.js,config.ts}";
                                       "**/*.{.}"]
                             ++ entries))
      | None => []
      end
  | _ => []
  end.

End Build.

(** *** A model of the patterns of the glob library

    Literal characters, [*] inside a path segment, a segment [**] for any
    number of segments, and one level of braces with alternatives.  A leading
    dot of a segment is matched by a dot only, unless [dot] is set, as it is
    for the patterns of [ignore]. *)

Fixpoint split_on (sep : ascii) (s : string) : list string :=
  match s with
  | EmptyString => [EmptyString]
  | String c s' =>
      if Ascii.eqb c sep then EmptyString :: split_on sep s'
      else
        match split_on sep s' with
        | x :: xs => String c x :: xs
        | [] => [String c EmptyString]
        end
  end.

(** The text before and after the first [c]. *)
Fixpoint cut (c : ascii) (s : string) : option (string * string) :=
  match s with
  | EmptyString => None
  | String d s' =>
      if Ascii.eqb d c then Some (EmptyString, s')
      else
        match cut c s' with
        | Some (a, b) => Some (String d a, b)
        | None => None
        end
  end.

Fixpoint wild_match (p s : string) : bool :=
  match p with
  | EmptyString => match s with EmptyString => true | _ => false end
  | String c p' =>
      if Ascii.eqb c "*" then
        (fix star (s : string) : bool :=
           wild_match p' s ||
           match s with
           | EmptyString => false
           | String _ s' => star s'
           end) s
      else
        match s with
        | String d s' => Ascii.eqb c d && wild_match p' s'
        | EmptyString => false
        end
  end.

Definition segment_match (dot : bool) (p s : string) : bool :=
  wild_match p s && (dot || negb (starts_with_dot s) || starts_with_dot p).

Fixpoint segments_match (dot : bool) (ps ss : list string) : bool :=
  match ps with
  | [] => match ss with [] => true | _ => false end
  | p :: ps' =>
      if String.eqb p "**" then
        (fix star (ss : list string) : bool :=
           segments_match dot ps' ss ||
           match ss with
           | [] => false
           | s :: ss' => (dot || negb (starts_with_dot s)) && star ss'
           end) ss
      else
        match ss with
        | s :: ss' => segment_match dot p s && segments_match dot ps' ss'
        | [] => false
        end
  end.

Fixpoint expand_braces (fuel : nat) (p : string) : list string :=
  match fuel with
  | 0 => [p]
  | S fuel' =>
      match cut "{" p with
      | None => [p]
      | Some (before, rest) =>
          match cut "}" rest with
          | None => [p]
          | Some (body, after) =>
              let tails := expand_braces fuel' after in
              match split_on "," body with
              | (_ :: _ :: _) as alternatives =>
                  flat_map (fun alt => map (fun tl => before +:+ alt +:+ tl) tails) alternatives
              | _ => map (fun tl => before +:+ "{" +:+ body +:+ "}" +:+ tl) tails
              end
          end
      end
  end.

Definition glob_match (dot : bool) (pattern path : string) : bool :=
  existsb (fun p => segments_match dot (split_on "/" p) (split_on "/" path))
          (expand_braces (String.length pattern) pattern).

(** [glob] over the files [listing] of the working directory, given by
    their relative paths, for an [ignore] list of strings; the model finds no
    file for a list that holds something else. *)
Definition glob_model (listing : list string) (pattern : string) (ignore : list tree)
    : list string :=
  match reify_seq (fun ig => match ig with TStr p => Some p | _ => None end) ignore with
  | Some patterns =>
      List.filter (fun path => glob_match false pattern path &&
                               negb (existsb (fun ig => glob_match true ig path) patterns))
                  listing
  | None => []
  end.

(** [path.resolve] of a relative path without dots, in the working
    directory [cwd]. *)
Definition resolve_in (cwd : string) (p : string) : string := cwd +:+ "/" +:+ p.

(** ** Syntax trees and engines for the examples *)

Definition position (line column index : Z) : tree :=
  TObj [("line", TNum line); ("column", TNum column); ("index", TNum index)].

(** A node as the parser builds it: its type, its location, and the
    properties of its kind. *)
Definition node (type : string) (fs : list (string * tree)) : tree :=
  TObj (("type", TStr type)
        :: ("loc", TObj [("start", position 1 0 0); ("end", position 1 0 0)])
        :: fs).

Definition identifier (name : string) : tree := node "Identifier" [("name", TStr name)].

Definition stringLiteral (value : string) : tree :=
  node "StringLiteral" [("value", TStr value)].

Definition objectProperty (key : string) (value : tree) : tree :=
  node "ObjectProperty" [("key", identifier key); ("value", value)].

Definition objectExpression (properties : list tree) : tree :=
  node "ObjectExpression" [("properties", TArr properties)].

Definition templateElement (text : string) : tree :=
  node "TemplateElement" [("value", TObj [("raw", TStr text); ("cooked", TStr text)])].

Definition templateLiteral (quasis expressions : list tree) : tree :=
  node "TemplateLiteral" [("quasis", TArr quasis); ("expressions", TArr expressions)].

Definition conditionalExpression (test consequent alternate : tree) : tree :=
  node "ConditionalExpression"
       [("test", test); ("consequent", consequent); ("alternate", alternate)].

Definition arrowFunctionExpression (body : tree) : tree :=
  node "ArrowFunctionExpression" [("params", TArr []); ("body", body)].

Definition callExpression (callee : string) (arguments : list tree) : tree :=
  node "CallExpression" [("callee", identifier callee); ("arguments", TArr arguments)].

(** The style object of the specification's scenario,
    [{ bgd: "red", Hover: { color: "blue" } }]. *)
Definition scenario : tree :=
  objectExpression
    [objectProperty "bgd" (stringLiteral "red");
     objectProperty "Hover" (objectExpression [objectProperty "color" (stringLiteral "blue")])].

Definition scenario_transformed : tree :=
  objectExpression
    [objectProperty "bgd" (stringLiteral ("bgd_" +:+ json_quote "red"));
     objectProperty "Hover"
       (objectExpression [objectProperty "color" (stringLiteral ("color_" +:+ json_quote "blue"))])].

(** [{ a: "x", b: "y" }] *)
Definition two_properties : tree :=
  objectExpression
    [objectProperty "a" (stringLiteral "x"); objectProperty "b" (stringLiteral "y")].

(** [{ A: { B: { color: "blue" } } }] *)
Definition nested_twice : tree :=
  objectExpression
    [objectProperty "A"
       (objectExpression
          [objectProperty "B"
             (objectExpression [objectProperty "color" (stringLiteral "blue")])])].

(** [{ color: `${dark ? "black" : "white"}` }] *)
Definition with_ternary : tree :=
  objectExpression
    [objectProperty "color"
       (templateLiteral [templateElement EmptyString; templateElement EmptyString]
          [conditionalExpression (identifier "dark")
             (stringLiteral "black") (stringLiteral "white")])].

(** [{ color: `red` }] *)
Definition with_template : tree :=
  objectExpression
    [objectProperty "color" (templateLiteral [templateElement "red"] [])].

(** The mock engine of the specification: [f(prop, val, ...) = prop + "_" + val]. *)
Definition engine_concat (c : call) (e : unit) : option string * unit :=
  (Some (match call_property c with
         | VStr p => p +:+ "_" +:+ call_value c
         | _ => "_" +:+ call_value c
         end), tt).

(** An engine that throws for the property [a]. *)
Definition engine_failing (c : call) (e : unit) : option string * unit :=
  match call_property c with
  | VStr "a" => (None, tt)
  | _ => engine_concat c e
  end.

(** An engine with a state: it numbers its answers. *)
Definition engine_counting (c : call) (e : nat) : option string * nat :=
  (Some ("c" +:+ pretty e), S e).

Definition hash_identity (text : string) (a b : bool) : string := text.

(** The state of a process that has not seen a call site yet. *)
Definition initial_state {EngineState : Type} (e : EngineState) (h : list obj)
    : state EngineState :=
  State h [] ∅ e [] [].

(** The store and the root of the scenario's style object. *)
Definition scenario_root : val := fst (alloc scenario []).
Definition scenario_store : list obj := snd (alloc scenario []).

(** A property [bgd: "red"] written out object by object: the key at 0, the
    literal at 1, the property at 2. *)
Definition property_store : list obj :=
  [OObj [("type", VStr "Identifier"); ("name", VStr "bgd")];
   OObj [("type", VStr "StringLiteral"); ("value", VStr "red")];
   OObj [("type", VStr "ObjectProperty"); ("key", VRef 0); ("value", VRef 1)]].

(** A property [Hover: { color: "blue" }]: the outer key at 0, the inner key
    at 1, the literal at 2, the inner property at 3, the array of the inner
    properties at 4, the object literal at 5 and the outer property at 6. *)
Definition nested_store : list obj :=
  [OObj [("type", VStr "Identifier"); ("name", VStr "Hover")];
   OObj [("type", VStr "Identifier"); ("name", VStr "color")];
   OObj [("type", VStr "StringLiteral"); ("value", VStr "blue")];
   OObj [("type", VStr "ObjectProperty"); ("key", VRef 1); ("value", VRef 2)];
   OArr [VRef 3];
   OObj [("type", VStr "ObjectExpression"); ("properties", VRef 4)];
   OObj [("type", VStr "ObjectProperty"); ("key", VRef 0); ("value", VRef 5)]].

(** A property whose value is the template literal
    [${dark ? "black" : "white"}]: the key at 0, the two literals at 1 and 2,
    the condition at 3, the conditional expression at 4, the array of the
    expressions at 5, the template literal at 6 and the property at 7. *)
Definition ternary_store : list obj :=
  [OObj [("type", VStr "Identifier"); ("name", VStr "color")];
   OObj [("type", VStr "StringLiteral"); ("value", VStr "black")];
   OObj [("type", VStr "StringLiteral"); ("value", VStr "white")];
   OObj [("type", VStr "Identifier"); ("name", VStr "dark")];
   OObj [("type", VStr "ConditionalExpression"); ("test", VRef 3);
         ("consequent", VRef 1); ("alternate", VRef 2)];
   OArr [VRef 4];
   OObj [("type", VStr "TemplateLiteral"); ("expressions", VRef 5)];
   OObj [("type", VStr "ObjectProperty"); ("key", VRef 0); ("value", VRef 6)]].

(** A property whose value is the template literal without expression
    [red]: the key at 0, the cooked and raw text at 1, the template element
    at 2, the arrays of the quasis and of the expressions at 3 and 4, the
    template literal at 5 and the property at 6. *)
Definition static_store : list obj :=
  [OObj [("type", VStr "Identifier"); ("name", VStr "color")];
   OObj [("raw", VStr "red"); ("cooked", VStr "red")];
   OObj [("type", VStr "TemplateElement"); ("value", VRef 1)];
   OArr [VRef 2];
   OArr [];
   OObj [("type", VStr "TemplateLiteral"); ("quasis", VRef 3); ("expressions", VRef 4)];
   OObj [("type", VStr "ObjectProperty"); ("key", VRef 0); ("value", VRef 5)]].

(** The configuration file cannot be used: it is not there, it cannot be
    read, or its text is not JSON. *)
Definition unusable (JSON_parse : string -> option tree) (galadriel_json : file) : Prop :=
  match galadriel_json with
  | Absent | Unreadable => True
  | Content text => JSON_parse text = None
  end.

(** Two callbacks whose bodies differ by a blank inside a string: the
    bodies at 0 and 2, the callbacks at 1 and 3. *)
Definition blank_store : list obj :=
  [OObj [("value", VStr "1px solid")];
   OObj [("type", VStr "ArrowFunctionExpression"); ("body", VRef 0)];
   OObj [("value", VStr "1pxsolid")];
   OObj [("type", VStr "ArrowFunctionExpression"); ("body", VRef 2)]].

(** The object literal [{ a: "x", b: "y" }] written out object by object:
    the properties at 2 and 5, their array at 6, the object literal at 7. *)
Definition failing_store : list obj :=
  [OObj [("type", VStr "Identifier"); ("name", VStr "a")];
   OObj [("type", VStr "StringLiteral"); ("value", VStr "x")];
   OObj [("type", VStr "ObjectProperty"); ("key", VRef 0); ("value", VRef 1)];
   OObj [("type", VStr "Identifier"); ("name", VStr "b")];
   OObj [("type", VStr "StringLiteral"); ("value", VStr "y")];
   OObj [("type", VStr "ObjectProperty"); ("key", VRef 3); ("value", VRef 4)];
   OArr [VRef 2; VRef 5];
   OObj [("type", VStr "ObjectExpression"); ("properties", VRef 6)]].

(** The JSON texts of the two bodies of [blank_store]. *)
Definition blank_text1 : string :=
  "{" +:+ json_quote "value" +:+ ":" +:+ json_quote "1px solid" +:+ "}".
Definition blank_text2 : string :=
  "{" +:+ json_quote "value" +:+ ":" +:+ json_quote "1pxsolid" +:+ "}".

(** ** A process run *)

(** What the objects of the store refer to. *)
Definition points_to (h : list obj) (l l' : nat) : Prop :=
  exists o, h !! l = Some o /\ VRef l' ∈ obj_values o.

(** The objects that can be reached from a value. *)
Definition reach (h : list obj) (v : val) (l : nat) : Prop :=
  exists l0, v = VRef l0 /\ rtc (points_to h) l0 l.

Definition is_node (t : tree) : Prop :=
  match t with
  | TObj _ | TArr _ => True
  | _ => False
  end.

(** [t != null && t.k === x] on a tree. *)
Definition tree_field_is (t : tree) (k x : string) : bool :=
  match tree_field t k with
  | TStr s => String.eqb s x
  | _ => false
  end.

(** A call of the tracked function with an inline function as its first
    argument, whose body is [body]. *)
Definition tracked (site body : tree) : Prop :=
  exists fs cfs cbfs rest ty,
    site = TObj fs /\
    assoc "callee" fs = Some (TObj cfs) /\
    assoc "type" cfs = Some (TStr "Identifier") /\
    assoc "name" cfs = Some (TStr "craftingStyles") /\
    assoc "arguments" fs = Some (TArr (TObj cbfs :: rest)) /\
    assoc "type" cbfs = Some (TStr ty) /\
    (ty = "FunctionExpression" \/ ty = "ArrowFunctionExpression") /\
    assoc "body" cbfs = Some body /\
    is_node body.

(** A call of something else. *)
Definition untracked (site : tree) : Prop :=
  exists fs, site = TObj fs /\
    tree_field_is (tree_field site "callee") "type" "Identifier"
    && tree_field_is (tree_field site "callee") "name" "craftingStyles" = false.

(** [path.node.arguments[0].body] *)
Definition site_body (h : list obj) (node : val) : res val :=
  match get_path h node ["arguments"] with
  | Ok args =>
      match get_index h args 0 with
      | Ok callback => get_field h callback "body"
      | r => r
      end
  | r => r
  end.

Section Run.
Context {EngineState : Type}.
Variable alchemyProcessing : call -> EngineState -> option string * EngineState.
Variable generatesHashingHex : string -> bool -> bool -> string.
Variable resolve : string -> string.
Variable exclude isModular : tree.
Variable fuel : nat.

(** The host parses a file and hands a call expression to the visitor: the
    node is new in the store.  A site is the name of the file and the call
    expression as parsed. *)
Definition visit (site : option string * tree) (s : state EngineState)
    : val * (res unit * state EngineState) :=
  let '(node, h) := alloc (snd site) (heap s) in
  (node, CallExpression alchemyProcessing generatesHashingHex resolve exclude isModular
                        fuel node (fst site) (set_heap h s)).

(** The node the visitor is given at a site, and the state it leaves. *)
Definition node_at (site : option string * tree) (s : state EngineState) : val :=
  fst (visit site s).

Definition after (site : option string * tree) (s : state EngineState) : state EngineState :=
  snd (snd (visit site s)).

(** The call sites of a run, one after the other. *)
Definition run (sites : list (option string * tree)) (s : state EngineState)
    : state EngineState :=
  fold_left (fun s site => after site s) sites s.

(** The sites of the runs considered: a site in a file that the exclusion
    check does not let through, a call of another function, or a call of the
    tracked function with an inline function, small enough for the walk to
    come to its end. *)
Definition admissible (site : option string * tree) : Prop :=
  excluded resolve exclude (fst site) <> Ok false \/
  untracked (snd site) \/
  (exists body, tracked (snd site) body /\ tsize (snd site) <= fuel).

(** Every fingerprint in use has its fragment in the cache, laid out in the
    store. *)
Definition cache_ok (s : state EngineState) : Prop :=
  forall f, f ∈ usedObjects s ->
    exists lc tc a b, transformedNodes s !! f = Some (VRef lc) /\
                      laid (heap s) a b (VRef lc) tc.

(** An occurrence of the fingerprint [f]: a tracked call, in a file that is
    not excluded, whose callback body has this fingerprint. *)
Definition occurrence (f : string) (site : option string * tree) : Prop :=
  excluded resolve exclude (fst site) = Ok false /\
  exists body, tracked (snd site) body /\
               fingerprint generatesHashingHex (to_json body) = f /\
               tsize (snd site) <= fuel.

End Run.

(** Two states with the same store, the same cache and the same record of
    engine calls: they differ by what was written to the console at most. *)
Definition quiet {EngineState} (s s' : state EngineState) : Prop :=
  heap s' = heap s /\ usedObjects s' = usedObjects s /\
  transformedNodes s' = transformedNodes s /\ engine s' = engine s /\ calls s' = calls s.

(** The objects of a call site the visitor goes through: the call [l], its
    array of arguments [la], the callback [lcb], and the value of the
    callback's [body]. *)
Definition located (h : list obj) (l la lcb : nat) (body : val) : Prop :=
  get_field h (VRef l) "arguments" = Ok (VRef la) /\
  (exists es, h !! la = Some (OArr (VRef lcb :: es))) /\
  (exists cfs, h !! lcb = Some (OObj cfs) /\ assoc "body" cfs = Some body) /\
  lcb < la < l.

(** From [s] to [s'] the store has grown, its objects of before are as they
    were, and so are the fingerprints in use and their fragments. *)
Definition grows {EngineState} (s s' : state EngineState) : Prop :=
  agree_on 0 (length (heap s)) (heap s) (heap s') /\
  length (heap s) <= length (heap s') /\
  forall f, f ∈ usedObjects s ->
    f ∈ usedObjects s' /\ transformedNodes s' !! f = transformedNodes s !! f.

(** Two files with the call [craftingStyles(() => ({ bgd: "red", Hover:
    { color: "blue" } }))], and a file with a call of another function. *)
Definition styles_call : tree :=
  callExpression "craftingStyles" [arrowFunctionExpression scenario].

Definition first_site : option string * tree := (Some "/app/src/a.js", styles_call).
Definition later_site : option string * tree := (Some "/app/src/b.js", styles_call).
Definition other_site : option string * tree :=
  (Some "/app/src/c.js", callExpression "useState" [stringLiteral "x"]).

Definition scenario_fingerprint : string := fingerprint hash_identity (to_json scenario).

(** ** The run-time function

    [craftingStyles(callback)] stays in the code the plugin has transformed:
    at run time it turns the object its callback returns into a list of
    class names. *)

(** [s.trim()]: the white space and the line terminators at both ends are
    removed (among the code units below 256, the characters of
    [is_whitespace]). *)
Fixpoint trim_start (s : string) : string :=
  match s with
  | EmptyString => EmptyString
  | String c s' => if is_whitespace c then trim_start s' else s
  end.

Fixpoint trim_end (s : string) : string :=
  match s with
  | EmptyString => EmptyString
  | String c s' =>
      match trim_end s' with
      | EmptyString => if is_whitespace c then EmptyString else String c EmptyString
      | r => String c r
      end
  end.

Definition trim (s : string) : string := trim_end (trim_start s).

(** The values [t[key]] for the keys [for (var key in t)] enumerates: the
    properties of an object (listed in the order of enumeration), the
    elements of an array, the characters of a string; nothing for the other
    values, [undefined] and [null] included. *)
Definition for_in_values (t : tree) : list tree :=
  match t with
  | TObj fs => map snd fs
  | TArr es => es
  | TStr s => map (fun c => TStr (String c EmptyString)) (list_ascii_of_string s)
  | _ => []
  end.

(** [typeof t === "object"] *)
Definition typeof_object_tree (t : tree) : bool :=
  match t with
  | TNull | TObj _ | TArr _ => true
  | _ => false
  end.

Section ClassNames.

(** The text JavaScript writes for a number. *)
Variable number_to_string : Z -> string.

(** The loop [for (k in value) classNames += value[k] + " "] over the
    values [values]: the text it leaves in [classNames], and whether it was
    left by an exception (the conversion of a value to a string). *)
Fixpoint append_all (values : list tree) (classNames : string) : string * bool :=
  match values with
  | [] => (classNames, false)
  | value :: values' =>
      match js_to_string number_to_string value with
      | Some text => append_all values' (classNames +:+ text +:+ " ")
      | None => (classNames, true)
      end
  end.

(** The outer loop of [transformIntoClassNames]: a value that is an object
    (or an array, or [null]) has the inner loop run over its own values. *)
Fixpoint append_classes (values : list tree) (classNames : string) : string * bool :=
  match values with
  | [] => (classNames, false)
  | value :: values' =>
      let '(classNames', thrown) :=
        if typeof_object_tree value then append_all (for_in_values value) classNames
        else append_all [value] classNames in
      if thrown then (classNames', true) else append_classes values' classNames'
  end.

(** [transformIntoClassNames(classes)]: an exception inside the loops ends
    them, it is caught and dropped, and what [classNames] holds by then is
    trimmed and returned. *)
Definition transformIntoClassNames (classes : tree) : string :=
  trim (fst (append_classes (for_in_values classes) EmptyString)).

(** [craftingStyles(callback)]; an exception of the callback is not caught. *)
Definition craftingStyles (callback : unit -> res tree) : res string :=
  match callback tt with
  | Ok classes => Ok (transformIntoClassNames classes)
  | Throw e => Throw e
  | Timeout => Timeout
  end.

(** The values [transformIntoClassNames] goes through, in order: a value
    that is not an object, and for an object (or an array) the values it
    holds; [null] holds none. *)
Definition class_values (classes : tree) : list tree :=
  flat_map (fun value => if typeof_object_tree value then for_in_values value else [value])
           (for_in_values classes).

(** The texts of the values up to the first one whose conversion throws. *)
Fixpoint texts_until_throw (values : list tree) : list string :=
  match values with
  | [] => []
  | value :: values' =>
      match js_to_string number_to_string value with
      | Some text => text :: texts_until_throw values'
      | None => []
      end
  end.

(** The texts [transformIntoClassNames] puts together. *)
Definition class_texts (classes : tree) : list string :=
  texts_until_throw (class_values classes).

End ClassNames.

(** The texts put one after the other, each followed by a space. *)
Definition spaced (texts : list string) : string :=
  fold_right (fun text rest => text +:+ " " +:+ rest) EmptyString texts.

(** A text with something in it and no white space at its ends. *)
Definition clean (text : string) : Prop := text <> EmptyString /\ trim text = text.

(** ** The watcher of the [dev] command *)

(** Truthiness of a value of the configuration. *)
Definition truthy_tree (t : tree) : bool :=
  match t with
  | TUndef | TNull => false
  | TBool b => b
  | TNum n => negb (Z.eqb n 0)
  | TStr s => negb (String.eqb s EmptyString)
  | TObj _ | TArr _ => true
  end.

(** What the watcher is told to ignore: an entry of [exclude], or the
    regular expression for the names that start with a dot. *)
Inductive ignored : Type :=
  | Entry (t : tree)
  | DotNames.

(** What [spectraScribe] comes to: the message about [galadriel.json] and
    no watcher, a watcher with its list of what to ignore, or an exception
    written to the console. *)
Inductive watch : Type :=
  | Refused
  | Watching (ignore : list ignored)
  | Failed (e : exn).

(** [spectraScribe()], for the value of [exclude] it reads from the
    configuration.  The spread [...exclude] takes the elements of an array
    and the characters of a string; any other true value is not iterable. *)
Definition spectraScribe (exclude : tree) : watch :=
  if negb (truthy_tree exclude) then Refused
  else
    match exclude with
    | TArr items => Watching (map Entry items ++ [DotNames])
    | TStr s =>
        Watching (map (fun c => Entry (TStr (String c EmptyString))) (list_ascii_of_string s)
                  ++ [DotNames])
    | _ => Failed (TypeError "exclude is not iterable")
    end.

Section Commands.
Variable JSON_parse : string -> option tree.
Variable number_to_string : Z -> string.
Variable glob : string -> list tree -> list string.

(** The [build] command: [assembleApplicationStyles] with the [exclude] of
    the configuration. *)
Definition build_command (galadriel_json : file) : list string :=
  assembleApplicationStyles number_to_string glob
    (tree_field (fst (parseConfig JSON_parse galadriel_json)) "exclude").

(** The [dev] command: the build, then the watcher; each of the two reads
    the configuration. *)
Definition dev_command (galadriel_json : file) : list string * watch :=
  (build_command galadriel_json,
   spectraScribe (tree_field (fst (parseConfig JSON_parse galadriel_json)) "exclude")).

End Commands.

(** A call the visitor passes over once it has looked at it: a call of
    another function, a call of the tracked function without argument, or
    with a first argument that is not an inline function. *)
Definition passed_over (site : tree) : Prop :=
  untracked site \/
  exists fs cfs,
    site = TObj fs /\
    assoc "callee" fs = Some (TObj cfs) /\
    assoc "type" cfs = Some (TStr "Identifier") /\
    assoc "name" cfs = Some (TStr "craftingStyles") /\
    (assoc "arguments" fs = Some (TArr []) \/
     exists afs rest ty,
       assoc "arguments" fs = Some (TArr (TObj afs :: rest)) /\
       assoc "type" afs = Some (TStr ty) /\
       ty <> "FunctionExpression" /\ ty <> "ArrowFunctionExpression").

(** A store whose one object holds a reference to itself. *)
Definition cyclic_store : list obj :=
  [OObj [("type", VStr "Identifier"); ("parent", VRef 0)]].

(** A property the loop of [generatesAlchemy] passes over: its key is not
    an identifier, or its value is neither a string literal, nor an object
    literal, nor a template literal. *)
Definition inert_property (h : list obj) (property : val) : Prop :=
  exists key,
    get_path h property ["key"] = Ok key /\
    (type_is h key "Identifier" = false \/
     exists ty,
       get_path h property ["value"; "type"] = Ok ty /\
       ty <> VStr "StringLiteral" /\ ty <> VStr "ObjectExpression" /\
       ty <> VStr "TemplateLiteral").

(** [{ "bgd": "red", width: 10, ...rest }] *)
Definition inert_object : tree :=
  objectExpression
    [node "ObjectProperty" [("key", stringLiteral "bgd"); ("value", stringLiteral "red")];
     objectProperty "width" (node "NumericLiteral" [("value", TNum 10)]);
     node "SpreadElement" [("argument", identifier "rest")]].

Definition inert_root : val := fst (alloc inert_object []).
Definition inert_store : list obj := snd (alloc inert_object []).

(** The property [color: `${x}`], whose template literal embeds an
    expression that is not a conditional expression. *)
Definition interpolated_property : tree :=
  objectProperty "color"
    (templateLiteral [templateElement EmptyString; templateElement EmptyString]
                     [identifier "x"]).

Definition interpolated_root : val := fst (alloc interpolated_property []).
Definition interpolated_store : list obj := snd (alloc interpolated_property []).

(** The property [Hover: { "color": "blue" }], whose nested property has a
    quoted key: laid out as [nested_store], with a string literal at 1. *)
Definition quoted_store : list obj :=
  [OObj [("type", VStr "Identifier"); ("name", VStr "Hover")];
   OObj [("type", VStr "StringLiteral"); ("value", VStr "color")];
   OObj [("type", VStr "StringLiteral"); ("value", VStr "blue")];
   OObj [("type", VStr "ObjectProperty"); ("key", VRef 1); ("value", VRef 2)];
   OArr [VRef 3];
   OObj [("type", VStr "ObjectExpression"); ("properties", VRef 4)];
   OObj [("type", VStr "ObjectProperty"); ("key", VRef 0); ("value", VRef 5)]].

(** The list of the fingerprints in use and the cache go together: no
    fingerprint is listed twice, and the fingerprints listed are those that
    have a fragment in the cache. *)
Definition cache_sync {EngineState} (s : state EngineState) : Prop :=
  NoDup (usedObjects s) /\
  forall f, f ∈ usedObjects s <-> is_Some (transformedNodes s !! f).

(** ** Object literals of string properties *)

(** The syntax tree of a property [name: "text"]: an identifier as key, a
    string literal as value. *)
Definition string_property (name text : string) (p : tree) : Prop :=
  exists pfs kfs vfs,
    p = TObj pfs /\
    assoc "key" pfs = Some (TObj kfs) /\
    assoc "type" kfs = Some (TStr "Identifier") /\
    assoc "name" kfs = Some (TStr name) /\
    assoc "value" pfs = Some (TObj vfs) /\
    assoc "type" vfs = Some (TStr "StringLiteral") /\
    assoc "value" vfs = Some (TStr text).

(** The syntax tree of an object literal whose properties are the string
    properties [props], names and texts, in order. *)
Definition flat_literal (props : list (string * string)) (t : tree) : Prop :=
  exists fs ps,
    t = TObj fs /\
    assoc "type" fs = Some (TStr "ObjectExpression") /\
    assoc "properties" fs = Some (TArr ps) /\
    Forall2 (fun (nt : string * string) p => string_property (fst nt) (snd nt) p) props ps.

(** The call of the engine for a string property at the top of a style
    object. *)
Definition property_call (isModular : tree) (filePath : option string)
    (nt : string * string) : call :=
  Call (VStr (fst nt)) (json_quote (replaceAll_dquote (snd nt))) isModular
       (path_or_empty filePath) (VStr EmptyString).

(** The engine taken through the calls [cs] from the state [e]: its answers
    and the state it ends in, or nothing when one of the calls throws. *)
Fixpoint engine_answers {EngineState : Type}
    (alchemyProcessing : call -> EngineState -> option string * EngineState)
    (cs : list call) (e : EngineState) : option (list string * EngineState) :=
  match cs with
  | [] => Some ([], e)
  | c :: cs' =>
      match alchemyProcessing c e with
      | (Some answer, e') =>
          match engine_answers alchemyProcessing cs' e' with
          | Some (answers, e'') => Some (answer :: answers, e'')
          | None => None
          end
      | (None, _) => None
      end
  end.

(** The properties with their texts replaced by the answers that are not
    empty. *)
Definition substituted (props : list (string * string)) (answers : list string)
    : list (string * string) :=
  zip_with (fun (nt : string * string) answer =>
              (fst nt, if nonempty answer then answer else snd nt)) props answers.

(** The objects of a string property in the store: the property at [lp],
    its key at [lk], its literal at [lv]. *)
Definition property_cells (h : list obj) (lp lk lv : nat) (name text : string) : Prop :=
  lk <> lv /\ lp <> lv /\
  exists pfs kfs vfs,
    h !! lp = Some (OObj pfs) /\
    assoc "key" pfs = Some (VRef lk) /\
    assoc "value" pfs = Some (VRef lv) /\
    h !! lk = Some (OObj kfs) /\
    assoc "type" kfs = Some (VStr "Identifier") /\
    assoc "name" kfs = Some (VStr name) /\
    h !! lv = Some (OObj vfs) /\
    assoc "type" vfs = Some (VStr "StringLiteral") /\
    assoc "value" vfs = Some (VStr text).

(** A tree without object literal: no node of it has the type
    [ObjectExpression]. *)
Fixpoint no_object_literal (t : tree) : bool :=
  match t with
  | TObj fs =>
      negb (tree_field_is t "type" "ObjectExpression")
      && forallb (fun kt : string * tree => no_object_literal (snd kt)) fs
  | TArr es => forallb no_object_literal es
  | _ => true
  end.

(** An object literal from which the walk finds no other object literal:
    what its properties hold, the arrays apart (the walk does not go into
    them), is without object literal. *)
Definition walked_plain (t : tree) : bool :=
  match t with
  | TObj fs =>
      forallb (fun kt : string * tree =>
                 match snd kt with
                 | TArr _ => true
                 | child => no_object_literal child
                 end) fs
  | _ => true
  end.

(** The trees a tree holds. *)
Definition children (t : tree) : list tree :=
  match t with
  | TObj fs => map snd fs
  | TArr es => es
  | _ => []
  end.

(** The call [craftingStyles(() => ({ a: "x", b: "y" }))]. *)
Definition two_properties_call : tree :=
  callExpression "craftingStyles" [arrowFunctionExpression two_properties].

(** [{ b: "y", a: "x", c: "z" }], and the call
    [craftingStyles(() => ({ b: "y", a: "x", c: "z" }))]. *)
Definition three_properties : tree :=
  objectExpression
    [objectProperty "b" (stringLiteral "y"); objectProperty "a" (stringLiteral "x");
     objectProperty "c" (stringLiteral "z")].

Definition three_properties_call : tree :=
  callExpression "craftingStyles" [arrowFunctionExpression three_properties].

(** [{ color: `${size} ${dark ? "black" : "white"}` }]: the conditional
    expression is the second expression of the template literal. *)
Definition ternary_second : tree :=
  objectExpression
    [objectProperty "color"
       (templateLiteral
          [templateElement EmptyString; templateElement " "; templateElement EmptyString]
          [identifier "size";
           conditionalExpression (identifier "dark")
             (stringLiteral "black") (stringLiteral "white")])].

(** The state the walk leaves when it pops the nodes of [visited] one after
    the other: each of them is handed to [generatesAlchemy] in the state the
    nodes before it have left. *)
Definition transformed_in_turn {EngineState : Type}
    (alchemyProcessing : call -> EngineState -> option string * EngineState)
    (isModular : tree) (filePath : option string)
    (visited : list val) (s : state EngineState) : state EngineState :=
  fold_left (fun s node => snd (generatesAlchemy alchemyProcessing isModular filePath node s))
            visited s.

(** A block of two statements with a comment between them: the comment, at
    0, is held by the first statement (among the comments that trail it, at
    1) and by the second (among the comments that lead it, at 3). *)
Definition shared_comment_store : list obj :=
  [OObj [("type", VStr "CommentLine"); ("value", VStr "note")];
   OArr [VRef 0];
   OObj [("type", VStr "EmptyStatement"); ("trailingComments", VRef 1)];
   OArr [VRef 0];
   OObj [("type", VStr "EmptyStatement"); ("leadingComments", VRef 3)];
   OArr [VRef 2; VRef 4];
   OObj [("type", VStr "BlockStatement"); ("body", VRef 5)]].

(** ** Style object literals *)

(** A property of a group: a string property, [name: "text"], or a property
    whose value is an object literal again. *)
Inductive nested_item : Type :=
  | NText (name text : string)
  | NDeep (property : tree).

(** A property of a style object literal: a string property, or a group,
    [name: { ... }], with its properties. *)
Inductive item : Type :=
  | IText (name text : string)
  | IGroup (name : string) (nested : list nested_item).

(** The syntax tree of a property whose value is an object literal. *)
Definition deep_property (p : tree) : Prop :=
  exists pfs vfs,
    p = TObj pfs /\
    assoc "value" pfs = Some (TObj vfs) /\
    assoc "type" vfs = Some (TStr "ObjectExpression").

(** The syntax tree of a property [name: { ... }]: an identifier as key, an
    object literal with the properties [ps] as value. *)
Definition group_property (name : string) (ps : list tree) (p : tree) : Prop :=
  exists pfs kfs vfs,
    p = TObj pfs /\
    assoc "key" pfs = Some (TObj kfs) /\
    assoc "type" kfs = Some (TStr "Identifier") /\
    assoc "name" kfs = Some (TStr name) /\
    assoc "value" pfs = Some (TObj vfs) /\
    assoc "type" vfs = Some (TStr "ObjectExpression") /\
    assoc "properties" vfs = Some (TArr ps).

Definition nested_tree (n : nested_item) (p : tree) : Prop :=
  match n with
  | NText name text => string_property name text p
  | NDeep q => p = q /\ deep_property q
  end.

Definition item_tree (i : item) (p : tree) : Prop :=
  match i with
  | IText name text => string_property name text p
  | IGroup name nested =>
      exists ps, group_property name ps p /\ Forall2 nested_tree nested ps
  end.

(** The syntax tree of a style object literal: an object literal whose
    properties are those of [items], in order. *)
Definition style_literal (items : list item) (t : tree) : Prop :=
  exists fs ps,
    t = TObj fs /\
    assoc "type" fs = Some (TStr "ObjectExpression") /\
    assoc "properties" fs = Some (TArr ps) /\
    Forall2 item_tree items ps.


(** A function with a state taken through a list. *)
Fixpoint thread {A S : Type} (f : A -> S -> option (A * S)) (xs : list A) (e : S)
    : option (list A * S) :=
  match xs with
  | [] => Some ([], e)
  | x :: xs' =>
      match f x e with
      | Some (x', e1) =>
          match thread f xs' e1 with
          | Some (xs'', e2) => Some (x' :: xs'', e2)
          | None => None
          end
      | None => None
      end
  end.

Section Answers.
Context {EngineState : Type}.
Variable alchemyProcessing : call -> EngineState -> option string * EngineState.
Variable isModular : tree.
Variable filePath : option string.

(** The call of the engine for a string property of the group [group]. *)
Definition group_call (group name text : string) : call :=
  Call (VStr name) (json_quote (replaceAll_dquote text)) isModular
       (path_or_empty filePath) (VStr group).

(** What a text becomes when the engine is asked with [c]: the answer, or
    the text itself when the answer is empty; nothing when the engine
    throws. *)
Definition answer_text (c : call) (text : string) (e : EngineState)
    : option (string * EngineState) :=
  match alchemyProcessing c e with
  | (Some className, e') => Some (if nonempty className then className else text, e')
  | (None, _) => None
  end.

Definition answer_nested (group : string) (n : nested_item) (e : EngineState)
    : option (nested_item * EngineState) :=
  match n with
  | NText name text =>
      match answer_text (group_call group name text) text e with
      | Some (text', e') => Some (NText name text', e')
      | None => None
      end
  | NDeep p => Some (NDeep p, e)
  end.

Definition answer_item (i : item) (e : EngineState) : option (item * EngineState) :=
  match i with
  | IText name text =>
      match answer_text (property_call isModular filePath (name, text)) text e with
      | Some (text', e') => Some (IText name text', e')
      | None => None
      end
  | IGroup name nested =>
      match thread (answer_nested name) nested e with
      | Some (nested', e') => Some (IGroup name nested', e')
      | None => None
      end
  end.

(** The style object literal with the answers of the engine in place of its
    texts, and the state the engine ends in: the string properties are taken
    in order, those of a group with the name of the group as pseudo-group, and
    an object literal inside a group is left as it is. *)
Definition answer_items (items : list item) (e : EngineState)
    : option (list item * EngineState) :=
  thread answer_item items e.

Definition nested_calls (group : string) (n : nested_item) : list call :=
  match n with
  | NText name text => [group_call group name text]
  | NDeep _ => []
  end.

Definition item_calls (i : item) : list call :=
  match i with
  | IText name text => [property_call isModular filePath (name, text)]
  | IGroup name nested => flat_map (nested_calls name) nested
  end.

(** The calls of the engine for a style object literal, in order. *)
Definition style_calls (items : list item) : list call := flat_map item_calls items.

End Answers.

(** From [s] to [s']: the engine has been called with [cs] and is left in
    [e'], the store keeps its shape and is written to from [a] up to [b]
    only, and nothing else changes. *)
Definition effect {EngineState : Type} (a b : nat) (cs : list call) (e' : EngineState)
    (s s' : state EngineState) : Prop :=
  calls s' = calls s ++ cs /\ engine s' = e' /\
  usedObjects s' = usedObjects s /\ transformedNodes s' = transformedNodes s /\
  console s' = console s /\
  same_shape (heap s) (heap s') /\
  forall l, ~ (a <= l < b) -> heap s' !! l = heap s !! l.

(** The property at [lp] has a key with the name [group]. *)
Definition outer_key (h : list obj) (lp : nat) (group : string) : Prop :=
  exists pfs lk kfs,
    h !! lp = Some (OObj pfs) /\ assoc "key" pfs = Some (VRef lk) /\
    h !! lk = Some (OObj kfs) /\ assoc "name" kfs = Some (VStr group).

(** [{ bgd: "red", Hover: { color: "blue", Inner: { pdg: "1px" } } }] *)
Definition grouped_block : tree :=
  objectExpression
    [objectProperty "bgd" (stringLiteral "red");
     objectProperty "Hover"
       (objectExpression
          [objectProperty "color" (stringLiteral "blue");
           objectProperty "Inner"
             (objectExpression [objectProperty "pdg" (stringLiteral "1px")])])].

Definition grouped_items : list item :=
  [IText "bgd" "red";
   IGroup "Hover"
     [NText "color" "blue";
      NDeep (objectProperty "Inner"
               (objectExpression [objectProperty "pdg" (stringLiteral "1px")]))]].




(** ** Facts *)

Arguments get_field : simpl never.
Arguments get_index : simpl never.
Arguments set_field : simpl never.

Lemma get_field_obj h l fs k :
  h !! l = Some (OObj fs) -> get_field h (VRef l) k = Ok (or_undef (assoc k fs)).
Proof. intros H. unfold get_field. by rewrite H. Qed.

Lemma get_path_obj h l fs k ks :
  h !! l = Some (OObj fs) ->
  get_path h (VRef l) (k :: ks) = get_path h (or_undef (assoc k fs)) ks.
Proof. intros H. cbn [get_path]. by rewrite (get_field_obj _ _ _ _ H). Qed.

Lemma get_index_arr h l es i :
  h !! l = Some (OArr es) -> get_index h (VRef l) i = Ok (or_undef (es !! i)).
Proof. intros H. unfold get_index. by rewrite H. Qed.

Lemma assoc_set_other {A} k k' (x : A) fs :
  k' <> k -> assoc k' (assoc_set k x fs) = assoc k' fs.
Proof.
  intros Hne. induction fs as [|[k0 v] fs IH]; simpl.
  - destruct (String.eqb_spec k' k); [done|done].
  - destruct (String.eqb_spec k k0) as [->|Hk]; simpl.
    + destruct (String.eqb_spec k' k0); [done|done].
    + destruct (String.eqb_spec k' k0); [done|]. apply IH.
Qed.

Lemma assoc_set_same {A} k (x : A) fs : assoc k (assoc_set k x fs) = Some x.
Proof.
  induction fs as [|[k0 v] fs IH]; simpl.
  - by rewrite String.eqb_refl.
  - destruct (String.eqb_spec k k0) as [->|Hk]; simpl.
    + by rewrite String.eqb_refl.
    + destruct (String.eqb_spec k k0); [done|]. apply IH.
Qed.

(** A write to the property [k] is not seen by a read of another property. *)
Lemma get_field_replace_field_other l k x h v k' :
  k' <> k -> get_field (replace_field l k x h) v k' = get_field h v k'.
Proof.
  intros Hne. unfold replace_field.
  destruct (h !! l) as [[fs|es]|] eqn:Hl; try done.
  destruct v as [| | | | |l0]; try done. unfold get_field.
  destruct (decide (l0 = l)) as [->|Hl0].
  - rewrite list_lookup_insert_eq by (by eapply lookup_lt_Some).
    by rewrite Hl, assoc_set_other.
  - by rewrite list_lookup_insert_ne.
Qed.

Lemma replace_field_lookup_ne l k x h l' :
  l' <> l -> replace_field l k x h !! l' = h !! l'.
Proof.
  intros Hne. unfold replace_field.
  destruct (h !! l) as [[fs|es]|]; try done. by rewrite list_lookup_insert_ne.
Qed.

Lemma replace_field_length l k x h : length (replace_field l k x h) = length h.
Proof.
  unfold replace_field. destruct (h !! l) as [[fs|es]|]; try done. by rewrite length_insert.
Qed.

(** Symbolic execution of the reads of a computation whose store is known
    cell by cell. *)
Ltac run_reads :=
  repeat first
    [ progress (unfold bind, get, read, ret; cbn [get_path fst snd heap or_undef])
    | match goal with
      | H : ?h !! ?l = Some (OObj ?fs) |- context [get_field ?h (VRef ?l) ?k] =>
          rewrite (get_field_obj h l fs k H)
      | H : assoc ?k ?fs = Some _ |- context [assoc ?k ?fs] => rewrite H
      end
    | progress simpl ].

Lemma get_field_replace_other l k x h v k' :
  k' <> k -> get_field (replace_field l k (VStr x) h) v k' = get_field h v k'.
Proof. apply get_field_replace_field_other. Qed.

Section StepFacts.
Context {EngineState : Type}.
Variable alchemyProcessing : call -> EngineState -> option string * EngineState.
Variable isModular : tree.
Variable filePath : option string.

Abbreviation state := (state EngineState).
Abbreviation property_step := (property_step alchemyProcessing isModular filePath).
Abbreviation nested_step := (nested_step alchemyProcessing isModular filePath).
Abbreviation transformTemplateLiteral := (transformTemplateLiteral alchemyProcessing isModular filePath).
Abbreviation transform_value := (transform_value alchemyProcessing isModular filePath).

Lemma engine_call_eq c (s : state) :
  engine_call alchemyProcessing c s =
  match fst (alchemyProcessing c (engine s)) with
  | Some className => (Ok className, after_call alchemyProcessing c (heap s) s)
  | None => (Throw EngineFailure, after_call alchemyProcessing c (heap s) s)
  end.
Proof.
  unfold engine_call, after_call. destruct (alchemyProcessing c (engine s)) as [[r|] e']; done.
Qed.

Lemma property_step_string (s : state) lp lk lv pfs kfs vfs name text :
  heap s !! lp = Some (OObj pfs) ->
  assoc "key" pfs = Some (VRef lk) ->
  assoc "value" pfs = Some (VRef lv) ->
  heap s !! lk = Some (OObj kfs) ->
  assoc "type" kfs = Some (VStr "Identifier") ->
  assoc "name" kfs = Some name ->
  heap s !! lv = Some (OObj vfs) ->
  assoc "type" vfs = Some (VStr "StringLiteral") ->
  assoc "value" vfs = Some (VStr text) ->
  property_step (VRef lp) s =
  literal_outcome alchemyProcessing
    (Call name (json_quote (replaceAll_dquote text)) isModular (path_or_empty filePath) (VStr EmptyString))
    lv "value" s.
Proof.
  intros Hp Hk Hv Hlk Hkt Hkn Hlv Hvt Hvv.
  unfold property_step, transform_value, type_is, field_is.
  run_reads. rewrite engine_call_eq. unfold literal_outcome.
  destruct (fst (alchemyProcessing _ (engine s))) as [className|]; [|done].
  unfold when, replace_nonempty. destruct (nonempty className); [|done].
  unfold assign. by run_reads.
Qed.

Lemma nested_step_string (s : state) lp lk kfs pfs ln nfs lnk nkfs lv vfs pseudo name text :
  heap s !! lp = Some (OObj pfs) ->
  assoc "key" pfs = Some (VRef lk) ->
  heap s !! lk = Some (OObj kfs) ->
  assoc "name" kfs = Some pseudo ->
  heap s !! ln = Some (OObj nfs) ->
  assoc "key" nfs = Some (VRef lnk) ->
  assoc "value" nfs = Some (VRef lv) ->
  heap s !! lnk = Some (OObj nkfs) ->
  assoc "name" nkfs = Some name ->
  heap s !! lv = Some (OObj vfs) ->
  assoc "type" vfs = Some (VStr "StringLiteral") ->
  assoc "value" vfs = Some (VStr text) ->
  nested_step (VRef lp) (VRef ln) s =
  literal_outcome alchemyProcessing
    (Call name (json_quote (replaceAll_dquote text)) isModular (path_or_empty filePath) pseudo)
    lv "value" s.
Proof.
  intros Hp Hk Hlk Hkn Hn Hnk Hnv Hlnk Hnkn Hlv Hvt Hvv.
  unfold nested_step, transform_value.
  run_reads. rewrite engine_call_eq. unfold literal_outcome.
  destruct (fst (alchemyProcessing _ (engine s))) as [className|]; [|done].
  unfold when, replace_nonempty. destruct (nonempty className); [|done].
  unfold assign. by run_reads.
Qed.

(** A property whose value is not a template literal is none of
    [transformTemplateLiteral]'s business. *)
Lemma transformTemplateLiteral_other (s : state) property pseudo ty :
  get_path (heap s) property ["value"; "type"] = Ok ty ->
  ty <> VStr "TemplateLiteral" ->
  transformTemplateLiteral property pseudo s = (Ok tt, s).
Proof.
  intros Hty Hne. unfold transformTemplateLiteral, bind, get, read. rewrite Hty.
  by destruct (decide (ty = VStr "TemplateLiteral")).
Qed.

Lemma nested_step_object (s : state) lp lk kfs pfs ln nfs lv vfs :
  heap s !! lp = Some (OObj pfs) ->
  assoc "key" pfs = Some (VRef lk) ->
  heap s !! lk = Some (OObj kfs) ->
  heap s !! ln = Some (OObj nfs) ->
  assoc "value" nfs = Some (VRef lv) ->
  heap s !! lv = Some (OObj vfs) ->
  assoc "type" vfs = Some (VStr "ObjectExpression") ->
  nested_step (VRef lp) (VRef ln) s = (Ok tt, s).
Proof.
  intros Hp Hk Hlk Hn Hnv Hlv Hvt.
  unfold nested_step. run_reads.
  apply transformTemplateLiteral_other with (ty := VStr "ObjectExpression"); [|done].
  by run_reads.
Qed.

Lemma transformTemplateLiteral_ternary (s : state) lp pfs lk kfs lt tfs le es lc cfs
    la afs lb bfs name a b pseudo :
  heap s !! lp = Some (OObj pfs) ->
  assoc "key" pfs = Some (VRef lk) ->
  assoc "value" pfs = Some (VRef lt) ->
  heap s !! lk = Some (OObj kfs) ->
  assoc "name" kfs = Some name ->
  heap s !! lt = Some (OObj tfs) ->
  assoc "type" tfs = Some (VStr "TemplateLiteral") ->
  assoc "expressions" tfs = Some (VRef le) ->
  heap s !! le = Some (OArr es) ->
  es !! 0 = Some (VRef lc) ->
  heap s !! lc = Some (OObj cfs) ->
  assoc "consequent" cfs = Some (VRef la) ->
  assoc "alternate" cfs = Some (VRef lb) ->
  heap s !! la = Some (OObj afs) ->
  assoc "value" afs = Some (VStr a) ->
  heap s !! lb = Some (OObj bfs) ->
  assoc "value" bfs = Some (VStr b) ->
  transformTemplateLiteral (VRef lp) pseudo s =
  ternary_outcome alchemyProcessing
    (Call name (json_quote (replaceAll_dquote a)) isModular (path_or_empty filePath) pseudo)
    (Call name (json_quote (replaceAll_dquote b)) isModular (path_or_empty filePath) pseudo)
    la lb s.
Proof.
  intros Hp Hk Hv Hlk Hkn Hlt Htt Hte Hle Hes Hlc Hca Hcb Hla Hav Hlb Hbv.
  unfold transformTemplateLiteral, transform_value. run_reads.
  rewrite (get_index_arr _ _ _ _ Hle), Hes. run_reads.
  rewrite engine_call_eq. unfold ternary_outcome.
  destruct (fst (alchemyProcessing _ (engine s))) as [x|]; [|done].
  run_reads. rewrite engine_call_eq. simpl.
  destruct (fst (alchemyProcessing _ _)) as [y|]; [|done].
  unfold when, assign, replace_nonempty, write.
  destruct (nonempty x), (nonempty y); run_reads; try done.
  rewrite get_field_replace_other by done. by run_reads.
Qed.

Lemma transformTemplateLiteral_static (s : state) lp pfs lk kfs lt tfs le lq qs lqe qfs
    lqv qvfs name text pseudo :
  heap s !! lp = Some (OObj pfs) ->
  assoc "key" pfs = Some (VRef lk) ->
  assoc "value" pfs = Some (VRef lt) ->
  heap s !! lk = Some (OObj kfs) ->
  assoc "name" kfs = Some name ->
  heap s !! lt = Some (OObj tfs) ->
  assoc "type" tfs = Some (VStr "TemplateLiteral") ->
  assoc "expressions" tfs = Some (VRef le) ->
  heap s !! le = Some (OArr []) ->
  assoc "quasis" tfs = Some (VRef lq) ->
  heap s !! lq = Some (OArr qs) ->
  qs !! 0 = Some (VRef lqe) ->
  heap s !! lqe = Some (OObj qfs) ->
  assoc "value" qfs = Some (VRef lqv) ->
  heap s !! lqv = Some (OObj qvfs) ->
  assoc "cooked" qvfs = Some (VStr text) ->
  transformTemplateLiteral (VRef lp) pseudo s =
  literal_outcome alchemyProcessing
    (Call name (json_quote (replaceAll_dquote text)) isModular (path_or_empty filePath) pseudo)
    lqv "cooked" s.
Proof.
  intros Hp Hk Hv Hlk Hkn Hlt Htt Hte Hle Htq Hlq Hqs Hlqe Hqv Hlqv Hc.
  unfold transformTemplateLiteral, transform_value. run_reads.
  rewrite (get_index_arr _ _ _ _ Hle). run_reads.
  rewrite (get_index_arr _ _ _ _ Hlq), Hqs. run_reads.
  rewrite engine_call_eq. unfold literal_outcome.
  destruct (fst (alchemyProcessing _ (engine s))) as [className|]; [|done].
  unfold when, replace_nonempty. destruct (nonempty className); [|done].
  unfold assign. by run_reads.
Qed.

End StepFacts.

(** *** Shapes *)

Lemma erased_key_value : erased_key "value" = true.
Proof. reflexivity. Qed.

Lemma erased_key_cooked : erased_key "cooked" = true.
Proof. reflexivity. Qed.

Lemma same_shape_refl h : same_shape h h.
Proof. reflexivity. Qed.

Lemma same_shape_trans h1 h2 h3 :
  same_shape h1 h2 -> same_shape h2 h3 -> same_shape h1 h3.
Proof. unfold same_shape. congruence. Qed.

Lemma same_shape_sym h1 h2 : same_shape h1 h2 -> same_shape h2 h1.
Proof. unfold same_shape. congruence. Qed.

Lemma same_shape_length h h' : same_shape h h' -> length h = length h'.
Proof. intros H. apply (f_equal length) in H. by rewrite !length_fmap in H. Qed.

Lemma same_shape_lookup h h' l :
  same_shape h h' -> skel <$> (h !! l) = skel <$> (h' !! l).
Proof. intros H. by rewrite <- !list_lookup_fmap, H. Qed.

Lemma same_shape_lookup_Some h h' l o :
  same_shape h h' -> h !! l = Some o ->
  exists o', h' !! l = Some o' /\ skel o = skel o'.
Proof.
  intros H Hl. pose proof (same_shape_lookup h h' l H) as E. rewrite Hl in E.
  destruct (h' !! l) as [o'|]; simpl in E; [|done]. exists o'. split; [done|congruence].
Qed.

Lemma same_shape_lookup_None h h' l :
  same_shape h h' -> h !! l = None -> h' !! l = None.
Proof.
  intros H Hl. pose proof (same_shape_lookup h h' l H) as E. rewrite Hl in E.
  by destruct (h' !! l).
Qed.

Lemma assoc_erase k fs : assoc k (erase_field <$> fs) = erase k <$> assoc k fs.
Proof.
  induction fs as [|[k0 v] fs IH]; [done|]. simpl.
  destruct (String.eqb_spec k k0) as [->|Hne]; [done|apply IH].
Qed.

(** Two values that differ by the text of a string at most. *)
Definition alike (v v' : val) : Prop :=
  v = v' \/ exists a b, v = VStr a /\ v' = VStr b.

Lemma alike_refl v : alike v v.
Proof. by left. Qed.

Lemma erase_alike k v v' : erase k v = erase k v' -> alike v v'.
Proof.
  unfold erase. destruct v, v'; try (intros [=]; subst; by left);
    destruct (erased_key k); intros E; try done; try (by left).
  all: first [ right; by eauto | left; congruence ].
Qed.

Lemma erase_other k v v' : erased_key k = false -> erase k v = erase k v' -> v = v'.
Proof. unfold erase. intros ->. by destruct v, v'. Qed.

Lemma erase_okv n k v : okv n (erase k v) <-> okv n v.
Proof. unfold erase. destruct v; try done. by destruct (erased_key k). Qed.

Lemma skel_obj_inv o fs' :
  skel o = OObj fs' -> exists fs, o = OObj fs /\ fs' = erase_field <$> fs.
Proof. destruct o as [fs|es]; simpl; [|done]. intros [= <-]. eauto. Qed.

Lemma skel_arr_inv o es : skel o = OArr es -> o = OArr es.
Proof. destruct o as [fs|es']; simpl; [done|]. by intros [= <-]. Qed.

(** A read sees the same value in two stores of one shape, up to the text of
    a string held by an erased property. *)
Lemma get_field_shape h h' v k :
  same_shape h h' ->
  match get_field h v k, get_field h' v k with
  | Ok x, Ok x' => erase k x = erase k x'
  | Throw e, Throw e' => e = e'
  | _, _ => False
  end.
Proof.
  intros H. unfold get_field. destruct v as [| | | |s|l]; try done.
  - by destruct (String.eqb k "length").
  - destruct (h !! l) as [o|] eqn:Hl.
    + destruct (same_shape_lookup_Some _ _ _ _ H Hl) as (o' & -> & Ho).
      destruct o as [fs|es]; simpl in Ho.
      * symmetry in Ho. apply skel_obj_inv in Ho as (fs' & -> & Hfs).
        assert (E : erase k <$> assoc k fs = erase k <$> assoc k fs')
          by (by rewrite <- !assoc_erase, Hfs).
        destruct (assoc k fs), (assoc k fs'); simpl in *; congruence.
      * symmetry in Ho. apply skel_arr_inv in Ho as ->.
        by destruct (String.eqb k "length").
    + by rewrite (same_shape_lookup_None _ _ _ H Hl).
Qed.

Lemma get_field_shape_other h h' v k :
  same_shape h h' -> erased_key k = false -> get_field h' v k = get_field h v k.
Proof.
  intros H Hk. pose proof (get_field_shape h h' v k H) as E.
  destruct (get_field h v k), (get_field h' v k); try done; [|congruence].
  f_equal. symmetry. by eapply erase_other.
Qed.

Lemma get_field_shape_str h h' v k a :
  same_shape h h' -> get_field h v k = Ok (VStr a) ->
  exists b, get_field h' v k = Ok (VStr b).
Proof.
  intros H Hg. pose proof (get_field_shape h h' v k H) as E. rewrite Hg in E.
  destruct (get_field h' v k) as [x'| |]; try done.
  apply erase_alike in E as [<-|(a' & b & _ & ->)]; eauto.
Qed.

Lemma get_field_shape_ref h h' v k l :
  same_shape h h' -> get_field h v k = Ok (VRef l) -> get_field h' v k = Ok (VRef l).
Proof.
  intros H Hg. pose proof (get_field_shape h h' v k H) as E. rewrite Hg in E.
  destruct (get_field h' v k) as [x'| |]; try done.
  simpl in E. unfold erase in E. destruct x'; try done; [|congruence].
  by destruct (erased_key k).
Qed.

Lemma type_is_shape h h' v ty : same_shape h h' -> type_is h' v ty = type_is h v ty.
Proof.
  intros H. unfold type_is, field_is. by rewrite (get_field_shape_other h h' v "type" H).
Qed.

Lemma isArray_shape h h' v : same_shape h h' -> isArray h' v = isArray h v.
Proof.
  intros H. unfold isArray. destruct v as [| | | | |l]; try done.
  destruct (h !! l) as [o|] eqn:Hl.
  - destruct (same_shape_lookup_Some _ _ _ _ H Hl) as (o' & -> & Ho).
    destruct o, o'; simpl in Ho; congruence.
  - by rewrite (same_shape_lookup_None _ _ _ H Hl).
Qed.

Lemma pushed_shape h h' node v v' :
  same_shape h h' -> alike v v' -> pushed h' node v' = pushed h node v.
Proof.
  intros H [<-|(a & b & -> & ->)].
  - unfold pushed. by rewrite (type_is_shape _ _ _ _ H), (isArray_shape _ _ _ H).
  - unfold pushed. simpl. by rewrite !andb_false_r.
Qed.

Lemma pushed_ref h node v : pushed h node v = true -> exists l, v = VRef l.
Proof.
  unfold pushed. destruct v; simpl; rewrite ?andb_false_r; try done. eauto.
Qed.

Lemma erase_field_alike fs fs' :
  erase_field <$> fs = erase_field <$> fs' -> Forall2 alike (map snd fs) (map snd fs').
Proof.
  revert fs'. induction fs as [|[k v] fs IH]; intros [|[k' v'] fs'] Hfs; simpl in *; try done.
  injection Hfs as Hk Hv Hfs. subst k'.
  constructor; [by eapply erase_alike|by apply IH].
Qed.

Lemma own_values_shape h h' v :
  same_shape h h' -> Forall2 alike (own_values h v) (own_values h' v).
Proof.
  intros H. unfold own_values. destruct v as [| | | |s|l]; try done.
  - apply Forall_Forall2_diag, Forall_forall. intros; apply alike_refl.
  - destruct (h !! l) as [o|] eqn:Hl.
    + destruct (same_shape_lookup_Some _ _ _ _ H Hl) as (o' & -> & Ho).
      destruct o as [fs|es]; simpl in Ho.
      * symmetry in Ho. apply skel_obj_inv in Ho as (fs' & -> & Hfs).
        by apply erase_field_alike.
      * symmetry in Ho. apply skel_arr_inv in Ho as ->.
        apply Forall_Forall2_diag, Forall_forall. intros; apply alike_refl.
    + by rewrite (same_shape_lookup_None _ _ _ H Hl).
Qed.

Lemma push_children_shape h h' node stack :
  same_shape h h' -> push_children h' node stack = push_children h node stack.
Proof.
  intros H. unfold push_children.
  pose proof (own_values_shape h h' node H) as F. revert stack.
  induction F as [|v v' vs vs' Hv F IH]; intros stack; [done|]. simpl.
  rewrite (pushed_shape h h' node v v' H Hv), IH.
  destruct Hv as [<-|(a & b & -> & ->)]; [done|].
  unfold pushed. simpl. by rewrite !andb_false_r.
Qed.

Lemma dfs_shape fuel h h' stack :
  same_shape h h' -> dfs fuel h' stack = dfs fuel h stack.
Proof.
  intros H. revert stack. induction fuel as [|fuel IH]; intros [|node stack]; try done.
  simpl. by rewrite (push_children_shape _ _ _ _ H), IH.
Qed.

Lemma erase_field_assoc_set k a c fs :
  erased_key k = true -> assoc k fs = Some (VStr a) ->
  erase_field <$> assoc_set k (VStr c) fs = erase_field <$> fs.
Proof.
  intros Hk. induction fs as [|[k0 v] fs IH]; [done|]. simpl.
  destruct (String.eqb_spec k k0) as [->|Hne].
  - intros [= ->]. simpl. unfold erase_field; simpl. by rewrite Hk.
  - intros Ha. simpl. f_equal. by apply IH.
Qed.

(** Writing a string over a string held by [value] or [cooked] keeps the
    shape. *)
Lemma replace_field_shape h l fs k a c :
  erased_key k = true -> h !! l = Some (OObj fs) -> assoc k fs = Some (VStr a) ->
  same_shape h (replace_field l k (VStr c) h).
Proof.
  intros Hk Hl Ha. unfold same_shape, replace_field. rewrite Hl.
  rewrite list_fmap_insert. simpl. rewrite (erase_field_assoc_set _ a) by done.
  symmetry. apply list_insert_id. by rewrite list_lookup_fmap, Hl.
Qed.

Lemma closed_from_shape n h h' : same_shape h h' -> closed_from n h -> closed_from n h'.
Proof.
  intros H Hc l o' Hn Hl.
  destruct (same_shape_lookup_Some _ _ _ _ (same_shape_sym _ _ H) Hl) as (o & Ho & E).
  specialize (Hc l o Hn Ho). destruct o as [fs|es]; simpl in E.
  - apply skel_obj_inv in E as (fs' & -> & Hfs). simpl in *.
    apply erase_field_alike in Hfs. revert Hc. clear -Hfs.
    induction Hfs as [|v v' vs vs' Hv F IH]; [done|].
    intros Hc. inversion Hc; subst. constructor; [|by apply IH].
    by destruct Hv as [<-|(a & b & -> & ->)].
  - by apply skel_arr_inv in E as ->.
Qed.

(** *** Values read from a closed part of the store *)

Lemma okv_or_undef n (o : option val) vs :
  Forall (okv n) vs -> (forall v, o = Some v -> v ∈ vs) -> okv n (or_undef o).
Proof.
  intros F H. destruct o as [v|]; [|done]. simpl.
  eapply Forall_forall; [exact F|]. by apply H.
Qed.

Lemma assoc_elem {A} k (fs : list (string * A)) v : assoc k fs = Some v -> v ∈ map snd fs.
Proof.
  induction fs as [|[k0 v0] fs IH]; [done|]. simpl.
  destruct (String.eqb k k0).
  - intros [= ->]. apply list_elem_of_here.
  - intros H. apply list_elem_of_further. by apply IH.
Qed.

Lemma get_field_okv n h v k v' :
  closed_from n h -> okv n v -> get_field h v k = Ok v' -> okv n v'.
Proof.
  intros Hc Hv. unfold get_field. destruct v as [| | | |s|l]; try (intros [= <-]; done).
  - destruct (String.eqb k "length"); by intros [= <-].
  - destruct (h !! l) as [[fs|es]|] eqn:Hl; try (intros [= <-]; done).
    + intros [= <-]. apply (okv_or_undef n _ (map snd fs)).
      * exact (Hc l _ Hv Hl).
      * intros v. apply assoc_elem.
    + destruct (String.eqb k "length"); by intros [= <-].
Qed.

Lemma get_index_okv n h v i v' :
  closed_from n h -> okv n v -> get_index h v i = Ok v' -> okv n v'.
Proof.
  intros Hc Hv. unfold get_index. destruct v as [| | | |s|l]; try (intros [= <-]; done).
  - destruct (String.get i s); by intros [= <-].
  - destruct (h !! l) as [[fs|es]|] eqn:Hl; try (intros [= <-]; done).
    + intros [= <-]. apply (okv_or_undef n _ (map snd fs)).
      * exact (Hc l _ Hv Hl).
      * intros v. apply assoc_elem.
    + intros [= <-]. apply (okv_or_undef n _ es).
      * exact (Hc l _ Hv Hl).
      * intros v. apply list_elem_of_lookup_2.
Qed.

Lemma get_path_okv n h v ks v' :
  closed_from n h -> okv n v -> get_path h v ks = Ok v' -> okv n v'.
Proof.
  intros Hc. revert v. induction ks as [|k ks IH]; intros v Hv; simpl.
  - by intros [= <-].
  - destruct (get_field h v k) as [x| |] eqn:E; try done.
    apply IH. by eapply get_field_okv.
Qed.

Lemma iterate_okv n h v vs :
  closed_from n h -> okv n v -> iterate h v = Ok vs -> Forall (okv n) vs.
Proof.
  intros Hc Hv. unfold iterate. destruct v as [| | | |s|l]; try done.
  - intros [= <-]. apply Forall_forall. intros x Hx.
    apply list_elem_of_In, in_map_iff in Hx as (c & <- & _). done.
  - destruct (h !! l) as [[fs|es]|] eqn:Hl; try done.
    intros [= <-]. exact (Hc l _ Hv Hl).
Qed.

Lemma own_values_okv n h v :
  closed_from n h -> okv n v -> Forall (okv n) (own_values h v).
Proof.
  intros Hc Hv. unfold own_values. destruct v as [| | | |s|l]; try done.
  - apply Forall_forall. intros x Hx.
    apply list_elem_of_In, in_map_iff in Hx as (c & <- & _). done.
  - destruct (h !! l) as [[fs|es]|] eqn:Hl; try done; exact (Hc l _ Hv Hl).
Qed.

Lemma push_children_okv n h node stack :
  closed_from n h -> okv n node -> Forall (okv n) stack ->
  Forall (okv n) (push_children h node stack).
Proof.
  intros Hc Hv. unfold push_children.
  pose proof (own_values_okv n h node Hc Hv) as F. revert stack.
  induction F as [|v vs Hx F IH]; intros stack Hs; [done|]. simpl.
  apply IH. destruct (pushed h node v); [by constructor|done].
Qed.

Lemma get_path_app h v ks k :
  get_path h v (ks ++ [k]) =
  match get_path h v ks with
  | Ok o => get_field h o k
  | r => r
  end.
Proof.
  revert v. induction ks as [|k0 ks IH]; intros v; simpl.
  - by destruct (get_field h v k).
  - destruct (get_field h v k0); [apply IH|done|done].
Qed.

Lemma get_path_shape_other h h' v ks :
  same_shape h h' -> forallb (fun k => negb (erased_key k)) ks = true ->
  get_path h' v ks = get_path h v ks.
Proof.
  intros H. revert v. induction ks as [|k ks IH]; intros v Hks; [done|].
  simpl in *. apply andb_true_iff in Hks as [Hk Hks].
  rewrite (get_field_shape_other h h' v k H) by (by destruct (erased_key k)).
  destruct (get_field h v k); [by apply IH|done|done].
Qed.

(** A property that holds a string and is not [length] is the property of an
    object. *)
Lemma get_field_str_inv h o k a :
  erased_key k = true -> get_field h o k = Ok (VStr a) ->
  exists l fs, o = VRef l /\ h !! l = Some (OObj fs) /\ assoc k fs = Some (VStr a).
Proof.
  intros Hk. unfold get_field. destruct o as [| | | |s|l]; try done.
  - by destruct (String.eqb k "length").
  - destruct (h !! l) as [[fs|es]|] eqn:Hl; try done.
    + intros [= E]. exists l, fs. repeat split; try done.
      by destruct (assoc k fs) as [x|]; simpl in E; subst.
    + by destruct (String.eqb k "length").
Qed.

Lemma get_field_not_timeout h v k : get_field h v k <> Timeout.
Proof.
  unfold get_field. destruct v as [| | | |s|l]; try done.
  - by destruct (String.eqb k "length").
  - destruct (h !! l) as [[fs|es]|]; try done. by destruct (String.eqb k "length").
Qed.

Lemma get_index_not_timeout h v i : get_index h v i <> Timeout.
Proof.
  unfold get_index. destruct v as [| | | |s|l]; try done.
  - by destruct (String.get i s).
  - by destruct (h !! l) as [[fs|es]|].
Qed.

Lemma get_path_not_timeout h v ks : get_path h v ks <> Timeout.
Proof.
  revert v. induction ks as [|k ks IH]; intros v; simpl; [done|].
  pose proof (get_field_not_timeout h v k). by destruct (get_field h v k).
Qed.

Lemma iterate_not_timeout h v : iterate h v <> Timeout.
Proof.
  unfold iterate. destruct v as [| | | |s|l]; try done.
  by destruct (h !! l) as [[fs|es]|].
Qed.

Lemma bind_ok {E A B} (m : M E A) (f : A -> M E B) s a s1 :
  m s = (Ok a, s1) -> bind m f s = f a s1.
Proof. intros H. unfold bind. by rewrite H. Qed.

Lemma bind_throw {E A B} (m : M E A) (f : A -> M E B) s e s1 :
  m s = (Throw e, s1) -> bind m f s = (Throw e, s1).
Proof. intros H. unfold bind. by rewrite H. Qed.

Lemma bind_timeout {E A B} (m : M E A) (f : A -> M E B) s s1 :
  m s = (Timeout, s1) -> bind m f s = (Timeout, s1).
Proof. intros H. unfold bind. by rewrite H. Qed.

(** *** The transformation is sound *)

Section SoundFacts.
Context {EngineState : Type}.
Variable alchemyProcessing : call -> EngineState -> option string * EngineState.
Variable isModular : tree.
Variable filePath : option string.
Variable n : nat.

Abbreviation state := (state EngineState).
Abbreviation step_ok := (@step_ok EngineState isModular filePath n).
Abbreviation sound := (@sound EngineState isModular filePath n).
Abbreviation pure_read := (@pure_read EngineState n).

Lemma step_ok_refl (s : state) : step_ok s s.
Proof.
  split; try done. exists []. by rewrite app_nil_r.
Qed.

Lemma step_ok_trans (s1 s2 s3 : state) : step_ok s1 s2 -> step_ok s2 s3 -> step_ok s1 s3.
Proof.
  intros [A1 B1 C1 D1 (e1 & E1 & F1)] [A2 B2 C2 D2 (e2 & E2 & F2)]. split.
  - by eapply same_shape_trans.
  - intros l Hl. by rewrite B2, B1.
  - congruence.
  - congruence.
  - exists (e1 ++ e2). rewrite E2, E1, app_assoc. split; [done|]. by apply Forall_app.
Qed.

Lemma step_ok_closed (s s' : state) :
  step_ok s s' -> closed_from n (heap s) -> closed_from n (heap s').
Proof. intros H. apply closed_from_shape, H. Qed.

Lemma sound_ret {A} (a : A) (post : A -> Prop) : post a -> sound (ret a) post.
Proof.
  intros Ha s Hc. simpl. split; [done|]. split; [apply step_ok_refl|]. by intros a' [= <-].
Qed.

Lemma sound_weaken {A} (m : M EngineState A) (P Q : A -> Prop) :
  sound m P -> (forall a, P a -> Q a) -> sound m Q.
Proof.
  intros Hm HPQ s Hc. destruct (Hm s Hc) as (H1 & H2 & H3). eauto.
Qed.

Lemma sound_bind {A B} (m : M EngineState A) (f : A -> M EngineState B) P Q :
  sound m P -> (forall a, P a -> sound (f a) Q) -> sound (bind m f) Q.
Proof.
  intros Hm Hf s Hc. destruct (Hm s Hc) as (H1 & H2 & H3). unfold bind.
  destruct (m s) as [[a|e|] s1]; simpl in *; try done.
  destruct (Hf a (H3 a eq_refl) s1 (step_ok_closed _ _ H2 Hc)) as (G1 & G2 & G3).
  split; [done|]. split; [by eapply step_ok_trans|done].
Qed.

Lemma sound_pure_read {A} (m : M EngineState A) P : pure_read m P -> sound m P.
Proof.
  intros Hm s Hc. destruct (Hm s Hc) as (H1 & H2 & H3).
  split; [done|]. split; [rewrite H1; apply step_ok_refl|done].
Qed.

Lemma sound_weaken_pure {A} (m : M EngineState A) (P Q : A -> Prop) :
  pure_read m P -> (forall a, P a -> Q a) -> pure_read m Q.
Proof.
  intros Hm HPQ s Hc. destruct (Hm s Hc) as (H1 & H2 & H3). eauto.
Qed.

Lemma pure_read_ret {A} (a : A) (P : A -> Prop) : P a -> pure_read (ret a) P.
Proof. intros Ha s Hc. simpl. repeat split; try done. by intros a' [= <-]. Qed.

Lemma pure_read_get v ks : okv n v -> pure_read (get v ks) (okv n).
Proof.
  intros Hv s Hc. unfold get, read. simpl. split; [done|]. split.
  - apply get_path_not_timeout.
  - intros a Ha. by eapply get_path_okv.
Qed.

Lemma pure_read_get_index v i : okv n v -> pure_read (read (fun h => get_index h v i)) (okv n).
Proof.
  intros Hv s Hc. unfold read. simpl. split; [done|]. split.
  - apply get_index_not_timeout.
  - intros a Ha. by eapply get_index_okv.
Qed.

Lemma pure_read_iterate v : okv n v -> pure_read (read (fun h => iterate h v)) (Forall (okv n)).
Proof.
  intros Hv s Hc. unfold read. simpl. split; [done|]. split.
  - apply iterate_not_timeout.
  - intros a Ha. by eapply iterate_okv.
Qed.

Lemma pure_read_test (f : list obj -> bool) :
  pure_read (read (fun h => Ok (f h))) (fun _ => True).
Proof. intros s Hc. by unfold read. Qed.

Lemma pure_read_bind {A B} (m : M EngineState A) (f : A -> M EngineState B) P Q :
  pure_read m P -> (forall a, P a -> pure_read (f a) Q) -> pure_read (bind m f) Q.
Proof.
  intros Hm Hf s Hc. destruct (Hm s Hc) as (H1 & H2 & H3). unfold bind.
  destruct (m s) as [[a|e|] s1] eqn:E; simpl in *; subst; try done.
  by apply Hf; [apply H3|].
Qed.

Lemma sound_bind_pure {A B} (m : M EngineState A) (f : A -> M EngineState B) P Q :
  pure_read m P -> (forall a, P a -> sound (f a) Q) -> sound (bind m f) Q.
Proof. intros Hm. apply sound_bind. by apply sound_pure_read. Qed.

Lemma sound_try_catch {A} (m : M EngineState A) handler P :
  sound m P -> (forall e, sound (handler e) P) -> sound (try_catch m handler) P.
Proof.
  intros Hm Hh s Hc. destruct (Hm s Hc) as (H1 & H2 & H3). unfold try_catch.
  destruct (m s) as [[a|e|] s1]; simpl in *; try done.
  destruct (Hh e s1 (step_ok_closed _ _ H2 Hc)) as (G1 & G2 & G3).
  split; [done|]. split; [by eapply step_ok_trans|done].
Qed.

Lemma sound_console_error e : sound (console_error e) (fun _ => True).
Proof.
  intros s Hc. unfold console_error. simpl. repeat split; try done.
  exists []. by rewrite app_nil_r.
Qed.

Lemma sound_for_each {A} (xs : list A) (body : A -> M EngineState unit) (P : A -> Prop) :
  Forall P xs -> (forall x, P x -> sound (body x) (fun _ => True)) ->
  sound (for_each xs body) (fun _ => True).
Proof.
  intros F Hb. induction F as [|x xs Hx F IH]; simpl.
  - by apply sound_ret.
  - eapply sound_bind; [by apply Hb|]. intros _ _. apply IH.
Qed.

Lemma sound_when b (m : M EngineState unit) :
  sound m (fun _ => True) -> sound (when b m) (fun _ => True).
Proof. intros Hm. unfold when. destruct b; [done|by apply sound_ret]. Qed.

Lemma step_ok_call (s : state) e' name text pseudo :
  step_ok s (State (heap s) (usedObjects s) (transformedNodes s) e'
                   (calls s ++ [Call name text isModular (path_or_empty filePath) pseudo])
                   (console s)).
Proof.
  split; try done. simpl. eexists. split; [done|]. by repeat constructor.
Qed.

(** The reads of [transform_value] and its one call. *)
Lemma transform_value_spec property lit ks pseudo (s : state) :
  pure_read pseudo (fun _ => True) -> closed_from n (heap s) ->
  let r := transform_value alchemyProcessing isModular filePath property lit ks pseudo s in
  fst r <> Timeout /\ heap (snd r) = heap s /\ step_ok s (snd r) /\
  forall c, fst r = Ok c -> exists a, get_path (heap s) lit ks = Ok (VStr a).
Proof.
  intros Hp Hc. unfold transform_value, bind, get, read.
  pose proof (get_path_not_timeout (heap s) property ["key"; "name"]) as T1.
  destruct (get_path (heap s) property ["key"; "name"]) as [name|e|]; try done;
    [|by repeat split; try done; apply step_ok_refl].
  cbn [heap].
  pose proof (get_path_not_timeout (heap s) lit ks) as T2.
  destruct (get_path (heap s) lit ks) as [raw|e|]; try done;
    [|by repeat split; try done; apply step_ok_refl].
  destruct raw as [| | | |a|]; simpl; try (by repeat split; try done; apply step_ok_refl).
  destruct (Hp s Hc) as (P1 & P2 & _).
  destruct (pseudo s) as [[ps|e|] s1]; simpl in *; subst s1; try done;
    [|by repeat split; try done; apply step_ok_refl].
  unfold engine_call.
  destruct (alchemyProcessing _ (engine s)) as [[className|] e']; simpl.
  - repeat split; try done; [apply step_ok_call|]. intros _ _. eauto.
  - repeat split; try done. apply step_ok_call.
Qed.

(** A string written over the string a literal holds. *)
Lemma assign_str_spec lit ks k c a (s : state) :
  okv n lit -> erased_key k = true -> closed_from n (heap s) ->
  get_path (heap s) lit (ks ++ [k]) = Ok (VStr a) ->
  exists s', assign lit ks k (VStr c) s = (Ok tt, s') /\ step_ok s s'.
Proof.
  intros Hv Hk Hc Hg. rewrite get_path_app in Hg.
  destruct (get_path (heap s) lit ks) as [o| |] eqn:Ho; try done.
  destruct (get_field_str_inv _ _ _ _ Hk Hg) as (l & fs & -> & Hl & Ha).
  pose proof (get_path_okv n _ _ _ _ Hc Hv Ho) as Hn. simpl in Hn.
  unfold assign, bind, get, read, write. rewrite Ho. cbn [heap set_field].
  eexists. split; [done|]. split; simpl; try done.
  - by eapply replace_field_shape.
  - intros l' Hl'. apply replace_field_lookup_ne. lia.
  - exists []. by rewrite app_nil_r.
Qed.

Lemma sound_rewrite property lit ks k pseudo :
  okv n lit -> erased_key k = true -> pure_read pseudo (fun _ => True) ->
  sound (bind (transform_value alchemyProcessing isModular filePath property lit (ks ++ [k]) pseudo)
              (fun className => when (nonempty className) (assign lit ks k (VStr className))))
        (fun _ => True).
Proof.
  intros Hv Hk Hp s Hc.
  destruct (transform_value_spec property lit (ks ++ [k]) pseudo s Hp Hc) as (T & Hh & Hok & Hs).
  destruct (transform_value _ _ _ _ _ _ _ s) as [[c|e|] s1] eqn:E; cbn [fst snd] in *; try done.
  2: { rewrite (bind_throw _ _ _ _ _ E). by cbn [fst snd]. }
  rewrite (bind_ok _ _ _ _ _ E).
  destruct (Hs c eq_refl) as (a & Ha). unfold when.
  destruct (nonempty c); [|by simpl].
  destruct (assign_str_spec lit ks k c a s1 Hv Hk) as (s2 & -> & Hok2).
  - by rewrite Hh.
  - by rewrite Hh.
  - cbn [fst snd]. split; [done|]. split; [by eapply step_ok_trans|done].
Qed.

Lemma get_path_str_shape h h' lit ks k a :
  same_shape h h' -> erased_key k = true ->
  forallb (fun k => negb (erased_key k)) ks = true ->
  get_path h lit (ks ++ [k]) = Ok (VStr a) ->
  exists b, get_path h' lit (ks ++ [k]) = Ok (VStr b).
Proof.
  intros H Hk Hks. rewrite !get_path_app, (get_path_shape_other _ _ _ _ H Hks).
  destruct (get_path h lit ks) as [o| |]; try done.
  by apply get_field_shape_str.
Qed.

Lemma sound_ternary property condExpr pseudo :
  okv n condExpr ->
  sound
    (bind (transform_value alchemyProcessing isModular filePath property condExpr
                           ["consequent"; "value"] (ret pseudo))
       (fun classNameConsequent =>
          bind (transform_value alchemyProcessing isModular filePath property condExpr
                                ["alternate"; "value"] (ret pseudo))
            (fun classNameAlternate =>
               bind (when (nonempty classNameConsequent)
                          (assign condExpr ["consequent"] "value" (VStr classNameConsequent)))
                 (fun _ => when (nonempty classNameAlternate)
                             (assign condExpr ["alternate"] "value" (VStr classNameAlternate))))))
    (fun _ => True).
Proof.
  intros Hv s Hc.
  assert (Hp : pure_read (ret pseudo) (fun _ : val => True)) by (by apply pure_read_ret).
  destruct (transform_value_spec property condExpr ["consequent"; "value"] _ s Hp Hc)
    as (T1 & Hh1 & Hok1 & Hs1).
  destruct (transform_value _ _ _ _ _ _ _ s) as [[c1|e|] s1] eqn:E1; cbn [fst snd] in *; try done.
  2: { rewrite (bind_throw _ _ _ _ _ E1). by cbn [fst snd]. }
  rewrite (bind_ok _ _ _ _ _ E1).
  destruct (Hs1 c1 eq_refl) as (a & Ha).
  pose proof (step_ok_closed _ _ Hok1 Hc) as Hc1.
  destruct (transform_value_spec property condExpr ["alternate"; "value"] _ s1 Hp Hc1)
    as (T2 & Hh2 & Hok2 & Hs2).
  destruct (transform_value _ _ _ _ _ _ _ s1) as [[c2|e|] s2] eqn:E2; cbn [fst snd] in *; try done.
  2: { rewrite (bind_throw _ _ _ _ _ E2). cbn [fst snd].
       split; [done|]. split; [by eapply step_ok_trans|done]. }
  rewrite (bind_ok _ _ _ _ _ E2).
  destruct (Hs2 c2 eq_refl) as (b & Hb).
  pose proof (step_ok_closed _ _ Hok2 Hc1) as Hc2.
  assert (Hok12 : step_ok s s2) by (by eapply step_ok_trans).
  assert (W1 : exists s3, when (nonempty c1) (assign condExpr ["consequent"] "value" (VStr c1)) s2
                          = (Ok tt, s3) /\ step_ok s2 s3).
  { unfold when. destruct (nonempty c1).
    - apply (assign_str_spec condExpr ["consequent"] "value" c1 a); try done.
      by rewrite Hh2, Hh1.
    - exists s2. split; [done|apply step_ok_refl]. }
  destruct W1 as (s3 & E3 & Hok3). rewrite (bind_ok _ _ _ _ _ E3).
  pose proof (step_ok_closed _ _ Hok3 Hc2) as Hc3.
  assert (W2 : exists s4, when (nonempty c2) (assign condExpr ["alternate"] "value" (VStr c2)) s3
                          = (Ok tt, s4) /\ step_ok s3 s4).
  { unfold when. destruct (nonempty c2).
    - destruct (get_path_str_shape (heap s1) (heap s3) condExpr ["alternate"] "value" b)
        as (b' & Hb'); try done.
      + rewrite <- Hh2. apply Hok3.
      + by apply (assign_str_spec condExpr ["alternate"] "value" c2 b').
    - exists s3. split; [done|apply step_ok_refl]. }
  destruct W2 as (s4 & -> & Hok4). cbn [fst snd]. split; [done|]. split; [|done].
  eapply step_ok_trans; [exact Hok12|]. by eapply step_ok_trans.
Qed.

Lemma sound_transformTemplateLiteral property pseudo :
  okv n property ->
  sound (transformTemplateLiteral alchemyProcessing isModular filePath property pseudo)
        (fun _ => True).
Proof.
  intros Hv. unfold transformTemplateLiteral.
  eapply sound_bind_pure; [by apply pure_read_get|]. intros ty _.
  destruct (decide (ty = VStr "TemplateLiteral")); [|by apply sound_ret].
  eapply sound_bind_pure.
  { eapply pure_read_bind; [by apply pure_read_get|].
    intros exprs He. by apply pure_read_get_index. }
  intros condExpr Hc. destruct (truthy condExpr); [by apply sound_ternary|].
  eapply sound_bind_pure.
  { eapply pure_read_bind; [by apply pure_read_get|].
    intros qs Hq. by apply pure_read_get_index. }
  intros quasis Hq. destruct (truthy quasis); [|by apply sound_ret].
  by apply (sound_rewrite property quasis ["value"] "cooked").
Qed.

Lemma sound_nested_step property nestedProperty :
  okv n property -> okv n nestedProperty ->
  sound (nested_step alchemyProcessing isModular filePath property nestedProperty)
        (fun _ => True).
Proof.
  intros Hp Hn. unfold nested_step.
  eapply sound_bind_pure; [by apply pure_read_get|]. intros nty _.
  destruct (decide (nty = VStr "StringLiteral")).
  - apply (sound_rewrite nestedProperty nestedProperty ["value"] "value"); try done.
    eapply sound_weaken_pure; [by apply pure_read_get|done].
  - eapply sound_bind_pure; [by apply pure_read_get|]. intros pseudo _.
    by apply sound_transformTemplateLiteral.
Qed.

Lemma sound_property_step property :
  okv n property ->
  sound (property_step alchemyProcessing isModular filePath property) (fun _ => True).
Proof.
  intros Hp. unfold property_step.
  eapply sound_bind_pure.
  { eapply pure_read_bind; [by apply pure_read_get|].
    intros key Hk. apply pure_read_test. }
  intros isId _. destruct (negb isId); [by apply sound_ret|].
  eapply sound_bind_pure; [by apply pure_read_get|]. intros ty _.
  destruct (decide (ty = VStr "StringLiteral")).
  { by apply (sound_rewrite property property ["value"] "value"). }
  destruct (decide (ty = VStr "ObjectExpression")).
  - eapply sound_bind_pure.
    { eapply pure_read_bind; [by apply pure_read_get|].
      intros ps Hps. by apply pure_read_iterate. }
    intros nested Hnested. eapply sound_for_each; [exact Hnested|].
    intros x Hx. by apply sound_nested_step.
  - by apply sound_transformTemplateLiteral.
Qed.

Lemma sound_generatesAlchemy node :
  okv n node ->
  sound (generatesAlchemy alchemyProcessing isModular filePath node) (fun _ => True).
Proof.
  intros Hv. unfold generatesAlchemy. apply sound_try_catch.
  - eapply sound_bind_pure; [apply pure_read_test|]. intros isObj _.
    destruct (negb isObj); [by apply sound_ret|].
    eapply sound_bind_pure.
    { eapply pure_read_bind; [by apply pure_read_get|].
      intros ps Hps. by apply pure_read_iterate. }
    intros properties Hps. eapply sound_for_each; [exact Hps|].
    intros x Hx. by apply sound_property_step.
  - intros e. apply sound_console_error.
Qed.

(** [generatesAlchemy] returns: whatever is thrown inside is caught and
    written to the console. *)
Lemma generatesAlchemy_ok node (s : state) :
  okv n node -> closed_from n (heap s) ->
  exists s1, generatesAlchemy alchemyProcessing isModular filePath node s = (Ok tt, s1)
             /\ step_ok s s1.
Proof.
  intros Hv Hc. destruct (sound_generatesAlchemy node Hv s Hc) as (T & Hok & _).
  revert T Hok. unfold generatesAlchemy, try_catch.
  destruct (bind _ _ s) as [[[]|e|] s1]; cbn [fst snd]; try done; eauto.
Qed.

(** The walker pops the nodes in the order of [dfs] on the store it starts
    from. *)
Lemma walk_loop_dfs fuel stack (s : state) :
  Forall (okv n) stack -> closed_from n (heap s) ->
  exists s', walk_loop alchemyProcessing isModular filePath fuel stack s =
             (match dfs fuel (heap s) stack with Some visited => Ok visited | None => Timeout end, s')
             /\ step_ok s s'.
Proof.
  revert stack s. induction fuel as [|fuel IH]; intros [|node stack] s Hs Hc;
    try (exists s; split; [done|apply step_ok_refl]).
  inversion Hs as [|? ? Hnode Hstack]; subst.
  destruct (generatesAlchemy_ok node s Hnode Hc) as (s1 & E1 & Hok1).
  pose proof (step_ok_closed _ _ Hok1 Hc) as Hc1.
  destruct (IH (push_children (heap s1) node stack) s1) as (s2 & E2 & Hok2); [|done|].
  { by apply push_children_okv. }
  exists s2. split; [|by eapply step_ok_trans].
  cbn [walk_loop dfs]. rewrite (bind_ok _ _ _ _ _ E1).
  unfold read at 1. unfold bind at 1. cbn [heap].
  rewrite (dfs_shape _ _ _ _ (ok_shape _ _ _ _ _ Hok1)) in E2.
  rewrite (push_children_shape _ _ _ _ (ok_shape _ _ _ _ _ Hok1)) in E2 |- *.
  unfold bind. rewrite E2.
  by destruct (dfs fuel (heap s) (push_children (heap s) node stack)).
Qed.

End SoundFacts.

(** *** Trees and their layout in the store *)

Lemma tree_ind' (P : tree -> Prop)
    (Hundef : P TUndef) (Hnull : P TNull) (Hbool : forall b, P (TBool b))
    (Hnum : forall n, P (TNum n)) (Hstr : forall s, P (TStr s))
    (Hobj : forall fs, Forall (fun kt : string * tree => P (snd kt)) fs -> P (TObj fs))
    (Harr : forall es, Forall P es -> P (TArr es)) :
  forall t, P t.
Proof.
  fix IH 1.
  intros [| | b | n | s | fs | es];
    [exact Hundef|exact Hnull|apply Hbool|apply Hnum|apply Hstr| |].
  - apply Hobj. revert fs. fix go 1.
    intros [|kt fs']; constructor; [apply IH|apply go].
  - apply Harr. revert es. fix go 1.
    intros [|t es']; constructor; [apply IH|apply go].
Qed.

Lemma agree_on_refl a b h : agree_on a b h h.
Proof. by intros l _. Qed.

Lemma agree_on_sub a b a' b' h h' :
  agree_on a b h h' -> a <= a' -> b' <= b -> agree_on a' b' h h'.
Proof. intros H Ha Hb l Hl. apply H. lia. Qed.

Lemma agree_on_prefix a h1 h2 : h1 `prefix_of` h2 -> agree_on a (length h1) h2 h1.
Proof.
  intros [k ->] l Hl. apply lookup_app_l. lia.
Qed.

Lemma laid_range_mut h :
  (forall a b v t, laid h a b v t -> a <= b) /\
  (forall a b vs ts, laid_elems h a b vs ts -> a <= b).
Proof. apply laid_mutind; intros; lia. Qed.

Lemma laid_range h a b v t : laid h a b v t -> a <= b.
Proof. apply laid_range_mut. Qed.

Lemma laid_elems_range h a b vs ts : laid_elems h a b vs ts -> a <= b.
Proof. apply laid_range_mut. Qed.

(** Only the objects from [a] up to [b] matter. *)
Lemma laid_agree_mut h h' :
  (forall a b v t, laid h a b v t -> agree_on a b h h' -> laid h' a b v t) /\
  (forall a b vs ts, laid_elems h a b vs ts -> agree_on a b h h' -> laid_elems h' a b vs ts).
Proof.
  apply laid_mutind; intros; try (by constructor).
  - eapply laid_obj; [|done|].
    + apply H0. eapply agree_on_sub; [done|lia|lia].
    + rewrite <- H3; [done|]. apply laid_elems_range in H. lia.
  - eapply laid_arr.
    + apply H0. eapply agree_on_sub; [done|lia|lia].
    + rewrite <- H2; [done|]. apply laid_elems_range in H. lia.
  - apply laid_range in H. apply laid_elems_range in H1.
    eapply laid_elems_cons.
    + apply H0. eapply agree_on_sub; [done|lia|lia].
    + apply H2. eapply agree_on_sub; [done|lia|lia].
Qed.

Lemma laid_agree h h' a b v t : laid h a b v t -> agree_on a b h h' -> laid h' a b v t.
Proof. apply laid_agree_mut. Qed.

Lemma laid_elems_agree h h' a b vs ts :
  laid_elems h a b vs ts -> agree_on a b h h' -> laid_elems h' a b vs ts.
Proof. apply laid_agree_mut. Qed.

Lemma alloc_seq_fields fs h :
  let r := alloc_seq (fun (kt : string * tree) h0 =>
                        let '(v, h1) := alloc (snd kt) h0 in ((fst kt, v), h1)) fs h in
  alloc_seq alloc (map snd fs) h = (map snd (fst r), snd r) /\
  map fst (fst r) = map fst fs.
Proof.
  revert h. induction fs as [|[k t] fs IH]; intros h; [done|]. simpl.
  destruct (alloc t h) as [v h1]. specialize (IH h1). simpl in IH.
  destruct (alloc_seq _ fs h1) as [fvs h2]. simpl in *.
  destruct IH as [-> ->]. done.
Qed.

Lemma alloc_elems_laid ts :
  Forall (fun t => forall h v h', alloc t h = (v, h') ->
                   h `prefix_of` h' /\ laid h' (length h) (length h') v t) ts ->
  forall h vs h', alloc_seq alloc ts h = (vs, h') ->
    h `prefix_of` h' /\ laid_elems h' (length h) (length h') vs ts.
Proof.
  induction 1 as [|t ts Ht _ IH]; intros h vs h'; simpl.
  - intros [= <- <-]. split; [done|constructor].
  - destruct (alloc t h) as [v h1] eqn:E1. destruct (alloc_seq alloc ts h1) as [vs' h2] eqn:E2.
    intros [= <- <-]. destruct (Ht _ _ _ E1) as [P1 L1]. destruct (IH _ _ _ E2) as [P2 L2].
    split; [by etrans|]. econstructor; [|exact L2].
    eapply laid_agree; [exact L1|]. intros l Hl. symmetry.
    exact (agree_on_prefix (length h) h1 h2 P2 l Hl).
Qed.

(** [alloc] lays the tree out at the end of the store. *)
Lemma alloc_laid t h v h' :
  alloc t h = (v, h') -> h `prefix_of` h' /\ laid h' (length h) (length h') v t.
Proof.
  revert h v h'. induction t as [| | b | n | s | fs IH | es IH] using tree_ind';
    intros h v h'; simpl; try (intros [= <- <-]; split; [done|constructor]).
  - pose proof (alloc_seq_fields fs h) as [E1 E2]. simpl in E1, E2.
    destruct (alloc_seq _ fs h) as [fvs h1]. simpl in *. intros [= <- <-].
    assert (IH' : Forall (fun t => forall h v h', alloc t h = (v, h') ->
                            h `prefix_of` h' /\ laid h' (length h) (length h') v t)
                         (snd <$> fs)) by (apply Forall_fmap; exact IH).
    destruct (alloc_elems_laid _ IH' _ _ _ E1) as [P1 L1].
    split; [by apply prefix_app_r|].
    rewrite length_app. simpl. replace (length h1 + 1) with (S (length h1)) by lia.
    eapply laid_obj; [|exact E2|].
    + eapply laid_elems_agree; [exact L1|]. intros l Hl. symmetry. apply lookup_app_l. lia.
    + by apply list_lookup_middle.
  - destruct (alloc_seq alloc es h) as [vs h1] eqn:E1. intros [= <- <-].
    destruct (alloc_elems_laid _ IH _ _ _ E1) as [P1 L1].
    split; [by apply prefix_app_r|].
    rewrite length_app. simpl. replace (length h1 + 1) with (S (length h1)) by lia.
    eapply laid_arr.
    + eapply laid_elems_agree; [exact L1|]. intros l Hl. symmetry. apply lookup_app_l. lia.
    + by apply list_lookup_middle.
Qed.

Lemma in_range_mono a b a' b' v : in_range a b v -> a' <= a -> b <= b' -> in_range a' b' v.
Proof. destruct v; simpl; try done. lia. Qed.

Lemma laid_root h a b v t : laid h a b v t -> in_range a b v.
Proof.
  destruct 1; simpl; try done.
  - apply laid_elems_range in H. lia.
  - apply laid_elems_range in H. lia.
Qed.

Lemma laid_ref_inv h a b l t :
  laid h a b (VRef l) t ->
  b = S l /\
  ((exists fvs fs, t = TObj fs /\ h !! l = Some (OObj fvs) /\ map fst fvs = map fst fs /\
                   laid_elems h a l (map snd fvs) (map snd fs)) \/
   (exists vs ts, t = TArr ts /\ h !! l = Some (OArr vs) /\ laid_elems h a l vs ts)).
Proof.
  inversion 1; subst; (split; [done|]); [left|right]; eauto 10.
Qed.

Lemma reify_seq_fields (f : val -> option tree) fvs fs :
  map fst fvs = map fst fs ->
  reify_seq f (map snd fvs) = Some (map snd fs) ->
  reify_seq (fun kv : string * val => option_map (pair (fst kv)) (f (snd kv))) fvs = Some fs.
Proof.
  revert fs. induction fvs as [|[k v] fvs IH]; intros [|[k' t] fs]; simpl; try done.
  intros [= -> Hk]. destruct (f v) as [t'|]; [|done]. simpl.
  destruct (reify_seq f (map snd fvs)) as [ts|] eqn:E; [|done].
  intros [= -> ->]. by rewrite (IH fs).
Qed.

Lemma reify_seq_impl {A B} (f g : A -> option B) l bs :
  (forall a b, a ∈ l -> f a = Some b -> g a = Some b) ->
  reify_seq f l = Some bs -> reify_seq g l = Some bs.
Proof.
  revert bs. induction l as [|a l IH]; intros bs Hfg; simpl; [done|].
  destruct (f a) as [b|] eqn:Ea; [|done].
  rewrite (Hfg a b) by (done || apply list_elem_of_here).
  destruct (reify_seq f l) as [bs'|]; [|done].
  rewrite (IH bs'); [done| |done].
  intros a' b' Hin. apply Hfg. by apply list_elem_of_further.
Qed.

Lemma reify_mono d h v t : reify d h v = Some t -> forall d', d <= d' -> reify d' h v = Some t.
Proof.
  revert v t. induction d as [|d IH]; intros v t.
  - destruct v; simpl; try done; intros [= <-] d' _; by destruct d'.
  - intros H [|d'] Hd; [lia|]. destruct v as [| | | | |l]; try done. simpl in *.
    destruct (h !! l) as [[fs|es]|]; [| |done].
    + destruct (reify_seq _ fs) as [tfs|] eqn:E; [|done].
      erewrite reify_seq_impl; [exact H| |exact E].
      intros [k v] kt _. simpl. destruct (reify d h v) as [t'|] eqn:Ev; [|done].
      rewrite (IH _ _ Ev d') by lia. done.
    + destruct (reify_seq _ es) as [ts|] eqn:E; [|done].
      erewrite reify_seq_impl; [exact H| |exact E].
      intros v t' _ Ev. apply (IH _ _ Ev). lia.
Qed.

(** What is laid out reads back as the tree. *)
Lemma laid_reify_mut h :
  (forall a b v t, laid h a b v t -> forall d, tdepth t <= d -> reify d h v = Some t) /\
  (forall a b vs ts, laid_elems h a b vs ts ->
     forall d, Forall (fun t => tdepth t <= d) ts -> reify_seq (reify d h) vs = Some ts).
Proof.
  apply laid_mutind.
  1-5: by intros; destruct d.
  - intros a b fvs fs _ IH Hk Hl d Hd. destruct d as [|d]; simpl in Hd; [lia|].
    simpl. rewrite Hl. rewrite (reify_seq_fields (reify d h) fvs fs); [done|done|].
    apply IH. apply Forall_fmap.
    assert (F : Forall (fun k => k <= d) (map (fun kt : string * tree => tdepth (snd kt)) fs))
      by (apply list_max_le; lia).
    apply Forall_fmap in F. exact F.
  - intros a b vs ts _ IH Hl d Hd. destruct d as [|d]; simpl in Hd; [lia|].
    simpl. rewrite Hl. rewrite (IH d); [done|].
    assert (F : Forall (fun k => k <= d) (map tdepth ts)) by (apply list_max_le; lia).
    apply Forall_fmap in F. exact F.
  - done.
  - intros a m b v t vs ts _ IH1 _ IH2 d Hd. inversion Hd; subst. simpl.
    by rewrite (IH1 d), (IH2 d).
Qed.

Lemma laid_reify h a b v t d : laid h a b v t -> tdepth t <= d -> reify d h v = Some t.
Proof. intros H. by apply (proj1 (laid_reify_mut h) a b). Qed.

(** A tree is no deeper than the number of its objects. *)
Lemma laid_depth_mut h :
  (forall a b v t, laid h a b v t -> tdepth t <= b - a) /\
  (forall a b vs ts, laid_elems h a b vs ts -> Forall (fun t => tdepth t <= b - a) ts).
Proof.
  apply laid_mutind; simpl; try (intros; lia).
  - intros a b fvs fs Hr IH _ _. apply laid_elems_range in Hr.
    assert (list_max (map (fun kt : string * tree => tdepth (snd kt)) fs) <= b - a); [|lia].
    apply list_max_le. apply Forall_fmap. apply Forall_fmap in IH. exact IH.
  - intros a b vs ts Hr IH _. apply laid_elems_range in Hr.
    assert (list_max (map tdepth ts) <= b - a); [|lia].
    apply list_max_le. by apply Forall_fmap.
  - intros; constructor.
  - intros a m b v t vs ts H1 IH1 H2 IH2. apply laid_range in H1. apply laid_elems_range in H2.
    constructor; [lia|]. eapply Forall_impl; [exact IH2|]. intros; simpl in *; lia.
Qed.

Lemma laid_bound h a b v t : laid h a b v t -> b <= length h \/ a = b.
Proof.
  destruct 1; try (by right); left.
  - apply lookup_lt_Some in H1. lia.
  - apply lookup_lt_Some in H0. lia.
Qed.

(** What is laid out is within the depth [reify_store] allows. *)
Lemma laid_reify_store h a b v t : laid h a b v t -> reify_store h v = Some t.
Proof.
  intros H. unfold reify_store. eapply laid_reify; [exact H|].
  pose proof (proj1 (laid_depth_mut h) _ _ _ _ H). destruct (laid_bound _ _ _ _ _ H); lia.
Qed.

(** The objects of a laid out tree refer to objects of the tree only. *)
Lemma laid_cells_mut h :
  (forall a b v t, laid h a b v t ->
     forall l o, a <= l < b -> h !! l = Some o -> Forall (in_range a b) (obj_values o)) /\
  (forall a b vs ts, laid_elems h a b vs ts ->
     Forall (in_range a b) vs /\
     forall l o, a <= l < b -> h !! l = Some o -> Forall (in_range a b) (obj_values o)).
Proof.
  apply laid_mutind; try (intros; lia).
  - intros a b fvs fs Hr [IH1 IH2] _ Hb l o Hl Ho.
    destruct (decide (l = b)) as [->|Hne].
    + rewrite Hb in Ho. injection Ho as <-. simpl.
      eapply Forall_impl; [exact IH1|]. intros v Hv. eapply in_range_mono; [exact Hv|lia|lia].
    + eapply Forall_impl; [apply (IH2 l o); [lia|done]|].
      intros v Hv. eapply in_range_mono; [exact Hv|lia|lia].
  - intros a b vs ts Hr [IH1 IH2] Hb l o Hl Ho.
    destruct (decide (l = b)) as [->|Hne].
    + rewrite Hb in Ho. injection Ho as <-. simpl.
      eapply Forall_impl; [exact IH1|]. intros v Hv. eapply in_range_mono; [exact Hv|lia|lia].
    + eapply Forall_impl; [apply (IH2 l o); [lia|done]|].
      intros v Hv. eapply in_range_mono; [exact Hv|lia|lia].
  - intros a. split; [constructor|]. intros; lia.
  - intros a m b v t vs ts H1 IH1 H2 [IH2 IH3].
    pose proof (laid_range _ _ _ _ _ H1). pose proof (laid_elems_range _ _ _ _ _ H2). split.
    + constructor.
      * eapply in_range_mono; [by eapply laid_root|lia|lia].
      * eapply Forall_impl; [exact IH2|]. intros x Hx. eapply in_range_mono; [exact Hx|lia|lia].
    + intros l o Hl Ho. destruct (decide (l < m)).
      * eapply Forall_impl; [apply (IH1 l o); [lia|done]|].
        intros x Hx. eapply in_range_mono; [exact Hx|lia|lia].
      * eapply Forall_impl; [apply (IH3 l o); [lia|done]|].
        intros x Hx. eapply in_range_mono; [exact Hx|lia|lia].
Qed.

Lemma in_range_okv a b v : in_range a b v -> okv a v.
Proof. destruct v; simpl; try done. lia. Qed.

(** After [alloc], the new objects refer to new objects only. *)
Lemma alloc_closed t h v h' : alloc t h = (v, h') -> closed_from (length h) h' /\ okv (length h) v.
Proof.
  intros E. destruct (alloc_laid _ _ _ _ E) as [_ L]. split.
  - intros l o Hl Ho. pose proof (lookup_lt_Some _ _ _ Ho).
    eapply Forall_impl; [apply (proj1 (laid_cells_mut h') _ _ _ _ L l o); [lia|done]|].
    intros x. apply in_range_okv.
  - eapply in_range_okv, laid_root, L.
Qed.

(** *** The order of the walk *)

Lemma push_children_eq h node stack :
  push_children h node stack = rev (List.filter (pushed h node) (own_values h node)) ++ stack.
Proof.
  unfold push_children. generalize (own_values h node). intros vs. revert stack.
  induction vs as [|v vs IH]; intros stack; [done|]. simpl.
  rewrite IH. destruct (pushed h node v); [|done]. simpl. by rewrite <- app_assoc.
Qed.

Lemma walk_edge_pushed h p c :
  walk_edge h p c <-> In c (List.filter (pushed h p) (own_values h p)).
Proof.
  rewrite filter_In, <- list_elem_of_In. unfold walk_edge, pushed. split.
  - intros (Hin & (l & ->) & Hn). split; [done|].
    destruct (type_is h p "ObjectExpression") eqn:E1;
      destruct (isArray h (VRef l)) eqn:E2; try done.
    by destruct Hn.
  - intros (Hin & Hp). split; [done|].
    destruct c as [| | | | |l]; try (by cbn in Hp; rewrite ?andb_false_r in Hp).
    split; [eauto|]. intros [H1 H2]. by rewrite H1, H2 in Hp.
Qed.

Lemma walks_list h cs wls :
  Forall2 (walks h) cs wls ->
  forall fuel stack,
    dfs (length (concat wls) + fuel) h (cs ++ stack) =
    option_map (app (concat wls)) (dfs fuel h stack).
Proof.
  induction 1 as [|c wl cs wls Hc _ IH]; intros fuel stack; simpl.
  - by destruct (dfs fuel h stack).
  - rewrite length_app, <- Nat.add_assoc. rewrite (Hc _ (cs ++ stack)), IH.
    destruct (dfs fuel h stack); [|done]. simpl. by rewrite app_assoc.
Qed.

Lemma walks_node h node wls :
  Forall2 (walks h) (rev (List.filter (pushed h node) (own_values h node))) wls ->
  walks h node (node :: concat wls).
Proof.
  intros F fuel stack. simpl. rewrite push_children_eq, (walks_list _ _ _ F).
  by destruct (dfs fuel h stack).
Qed.

Lemma reach_node h node (wl : list val) :
  (forall x, x ∈ wl <->
             exists c, In c (List.filter (pushed h node) (own_values h node)) /\
                       rtc (walk_edge h) c x) ->
  forall x, x ∈ node :: wl <-> rtc (walk_edge h) node x.
Proof.
  intros H x. rewrite elem_of_cons, H. split.
  - intros [->|(c & Hc & Hr)]; [done|]. eapply rtc_l; [|exact Hr]. by apply walk_edge_pushed.
  - intros Hr. apply rtc_inv in Hr as [->|(c & Hc & Hr)]; [by left|right].
    exists c. split; [by apply walk_edge_pushed|done].
Qed.

Lemma is_ref_in_mono a b a' b' v : is_ref_in a b v -> a' <= a -> b <= b' -> is_ref_in a' b' v.
Proof. intros (l & -> & Hl) Ha Hb. exists l. split; [done|lia]. Qed.

(** The walk over a laid out tree: every node the walker's edges lead to is
    popped once, and the walk then goes on below the root. *)
Lemma laid_walks_mut h :
  (forall a b v t, laid h a b v t ->
     forall l, v = VRef l ->
     exists wl, walks h v wl /\ NoDup wl /\ Forall (is_ref_in a b) wl /\
                forall x, x ∈ wl <-> rtc (walk_edge h) v x) /\
  (forall a b vs ts, laid_elems h a b vs ts ->
     forall sel : val -> bool, (forall x, sel x = true -> exists l, x = VRef l) ->
     exists wls, Forall2 (walks h) (rev (List.filter sel vs)) wls /\
                 NoDup (concat wls) /\ Forall (is_ref_in a b) (concat wls) /\
                 forall x, x ∈ concat wls <->
                           exists c, In c (List.filter sel vs) /\ rtc (walk_edge h) c x).
Proof.
  apply laid_mutind; try (intros; discriminate).
  - intros a b fvs fs Hr IH _ Hb l [= <-].
    pose proof (laid_elems_range _ _ _ _ _ Hr) as Hab.
    assert (Hov : own_values h (VRef b) = map snd fvs) by (by simpl; rewrite Hb).
    destruct (IH (pushed h (VRef b)) (pushed_ref h (VRef b))) as (wls & F & ND & R & M).
    rewrite <- Hov in F, M.
    exists (VRef b :: concat wls). split; [by apply walks_node|]. split; [|split].
    + apply NoDup_cons. split; [|done]. intros Hin.
      destruct (proj1 (Forall_forall _ _) R _ Hin) as (l & El & Hl).
      injection El as <-. lia.
    + constructor; [exists b; split; [done|lia]|].
      eapply Forall_impl; [exact R|]. intros x Hx. eapply is_ref_in_mono; [exact Hx|lia|lia].
    + by apply reach_node.
  - intros a b vs ts Hr IH Hb l [= <-].
    pose proof (laid_elems_range _ _ _ _ _ Hr) as Hab.
    assert (Hov : own_values h (VRef b) = vs) by (by simpl; rewrite Hb).
    destruct (IH (pushed h (VRef b)) (pushed_ref h (VRef b))) as (wls & F & ND & R & M).
    rewrite <- Hov in F, M.
    exists (VRef b :: concat wls). split; [by apply walks_node|]. split; [|split].
    + apply NoDup_cons. split; [|done]. intros Hin.
      destruct (proj1 (Forall_forall _ _) R _ Hin) as (l & El & Hl).
      injection El as <-. lia.
    + constructor; [exists b; split; [done|lia]|].
      eapply Forall_impl; [exact R|]. intros x Hx. eapply is_ref_in_mono; [exact Hx|lia|lia].
    + by apply reach_node.
  - intros a sel Hsel. exists []. simpl. repeat split; try constructor.
    + intros Hx. by apply elem_of_nil in Hx.
    + by intros (c & [] & _).
  - intros a m b v t vs ts H1 IH1 H2 IH2 sel Hsel.
    pose proof (laid_range _ _ _ _ _ H1) as Ham.
    pose proof (laid_elems_range _ _ _ _ _ H2) as Hmb.
    destruct (IH2 sel Hsel) as (wls & F & ND & R & M). simpl.
    destruct (sel v) eqn:Ev.
    + destruct (Hsel v Ev) as (l & ->).
      destruct (IH1 l eq_refl) as (wl & W & NDw & Rw & Mw).
      exists (wls ++ [wl]). simpl. rewrite concat_app. simpl. rewrite app_nil_r.
      split; [apply Forall2_app; [done|by constructor]|]. split; [|split].
      * apply NoDup_app. split; [done|]. split; [|done]. intros x Hx Hx'.
        destruct (proj1 (Forall_forall _ _) R _ Hx) as (l1 & -> & Hl1).
        destruct (proj1 (Forall_forall _ _) Rw _ Hx') as (l2 & El & Hl2).
        injection El as <-. lia.
      * apply Forall_app. split.
        -- eapply Forall_impl; [exact R|]. intros x Hx. eapply is_ref_in_mono; [exact Hx|lia|lia].
        -- eapply Forall_impl; [exact Rw|]. intros x Hx. eapply is_ref_in_mono; [exact Hx|lia|lia].
      * intros x. rewrite elem_of_app, M, Mw. split.
        -- intros [(c & Hc & Hr)|Hr]; [exists c; split; [by right|done]|].
           exists (VRef l). split; [by left|done].
        -- intros (c & [<-|Hc] & Hr); [by right|left; eauto].
    + exists wls. split; [done|]. split; [done|]. split; [|done].
      eapply Forall_impl; [exact R|]. intros x Hx. eapply is_ref_in_mono; [exact Hx|lia|lia].
Qed.

Lemma closed_from_0 h : closed_from 0 h.
Proof.
  intros l o _ _. apply Forall_forall. intros v _. destruct v; simpl; try done. lia.
Qed.

Lemma okv_0 v : okv 0 v.
Proof. destruct v; simpl; try done. lia. Qed.

Lemma own_values_prim_pushed h v node :
  (forall l, v <> VRef l) -> List.filter (pushed h node) (own_values h v) = [].
Proof.
  intros Hv. destruct v as [| | | |s|l]; try done; [|by destruct (Hv l)].
  simpl. induction (list_ascii_of_string s) as [|c cs IH]; [done|]. simpl.
  replace (pushed h node (VStr (String c EmptyString))) with false; [done|].
  unfold pushed. cbn [typeof_object]. by rewrite andb_false_r.
Qed.

Lemma own_values_prim_refs h v c :
  (forall l, v <> VRef l) -> c ∈ own_values h v -> forall l, c <> VRef l.
Proof.
  intros Hv. destruct v as [| | | |s|l0]; simpl; try (by intros Hc; apply elem_of_nil in Hc);
    [|by destruct (Hv l0)].
  intros Hc l ->. apply list_elem_of_In, in_map_iff in Hc as (x & [=] & _).
Qed.

(** A root that is not an object is popped and has nothing below it. *)
Lemma walks_prim h v :
  (forall l, v <> VRef l) ->
  walks h v [v] /\ forall x, x ∈ [v] <-> rtc (walk_edge h) v x.
Proof.
  intros Hv. split.
  - intros fuel stack. simpl. rewrite push_children_eq, own_values_prim_pushed by done.
    simpl. by destruct (dfs fuel h stack).
  - intros x. rewrite list_elem_of_singleton. split; [by intros ->|].
    intros Hr. apply rtc_inv in Hr as [->|(c & (Hc & (l & ->) & _) & _)]; [done|].
    by destruct (own_values_prim_refs h v (VRef l) Hv Hc l).
Qed.

(** The nodes a walk from the root of a laid out tree pops. *)
Lemma laid_walk_order h a b v t :
  laid h a b v t ->
  exists visited, walks h v visited /\ NoDup visited /\
                  forall x, x ∈ visited <-> rtc (walk_edge h) v x.
Proof.
  intros L. destruct v as [| | | | |l].
  1-5: eexists; split; [by apply walks_prim|];
       split; [apply NoDup_singleton|by apply walks_prim].
  destruct (proj1 (laid_walks_mut h) _ _ _ _ L l eq_refl) as (wl & W & ND & _ & M). eauto.
Qed.

Section WalkFacts.
Context {EngineState : Type}.
Variable alchemyProcessing : call -> EngineState -> option string * EngineState.
Variable isModular : tree.
Variable filePath : option string.

(** When the walk comes to an end it has popped the nodes of [visited], the
    store has kept its shape and its objects below [n] are as before. *)
Lemma walkThroughOutAst_walks n (s : state EngineState) root visited fuel :
  closed_from n (heap s) -> okv n root ->
  walks (heap s) root visited -> length visited <= fuel ->
  exists s', walkThroughOutAst alchemyProcessing isModular filePath fuel root s = (Ok visited, s')
             /\ step_ok isModular filePath n s s'.
Proof.
  intros Hc Hv W Hf.
  destruct (walk_loop_dfs alchemyProcessing isModular filePath n fuel [root] s)
    as (s' & E & Hok); [by repeat constructor|done|].
  exists s'. split; [|done]. unfold walkThroughOutAst, try_catch. rewrite E.
  replace fuel with (length visited + (fuel - length visited)) by lia.
  rewrite (W _ []). destruct (fuel - length visited); simpl; by rewrite app_nil_r.
Qed.

End WalkFacts.

(** The walk hands each node it pops to [generatesAlchemy], in the state
    the nodes popped before it have left. *)
Lemma walk_loop_in_turn {EngineState : Type}
    (alchemyProcessing : call -> EngineState -> option string * EngineState)
    (isModular : tree) (filePath : option string) fuel stack visited (s : state EngineState) :
  dfs fuel (heap s) stack = Some visited ->
  walk_loop alchemyProcessing isModular filePath fuel stack s
  = (Ok visited, transformed_in_turn alchemyProcessing isModular filePath visited s) /\
  same_shape (heap s) (heap (transformed_in_turn alchemyProcessing isModular filePath visited s)).
Proof.
  revert stack visited s.
  induction fuel as [|fuel IH]; intros [|node stack] visited s Hd;
    try (injection Hd as <-; split; [done|apply same_shape_refl]); try done.
  cbn [dfs] in Hd.
  destruct (dfs fuel (heap s) (push_children (heap s) node stack)) as [rest|] eqn:Er; [|done].
  injection Hd as <-.
  destruct (generatesAlchemy_ok alchemyProcessing isModular filePath 0 node s)
    as (s1 & E1 & Hok1); [apply okv_0|apply closed_from_0|].
  pose proof (ok_shape _ _ _ _ _ Hok1) as Hsh.
  destruct (IH (push_children (heap s) node stack) rest s1) as [E2 Hsh2].
  { by rewrite (dfs_shape _ _ _ _ Hsh). }
  assert (Et : transformed_in_turn alchemyProcessing isModular filePath (node :: rest) s
               = transformed_in_turn alchemyProcessing isModular filePath rest s1)
    by (unfold transformed_in_turn; cbn [fold_left]; by rewrite E1).
  rewrite Et. split; [|by eapply same_shape_trans].
  cbn [walk_loop]. rewrite (bind_ok _ _ _ _ _ E1).
  unfold read at 1. unfold bind at 1. cbn [fst snd].
  rewrite (push_children_shape _ _ _ _ Hsh). unfold bind. by rewrite E2.
Qed.

(** The nodes a walk pops are the nodes that can be reached from the nodes
    of its stack, whatever the store. *)
Lemma dfs_covers fuel h stack visited :
  dfs fuel h stack = Some visited ->
  forall x, x ∈ visited <-> exists r, r ∈ stack /\ rtc (walk_edge h) r x.
Proof.
  revert stack visited. induction fuel as [|fuel IH]; intros [|node stack] visited Hd x;
    try (injection Hd as <-; split; [by intros ?%elem_of_nil|by intros (r & ?%elem_of_nil & _)]);
    try done.
  cbn [dfs] in Hd.
  destruct (dfs fuel h (push_children h node stack)) as [rest|] eqn:Er; [|done].
  injection Hd as <-. rewrite elem_of_cons, (IH _ _ Er x), push_children_eq. split.
  - intros [->|(r & Hr & Hx)].
    + exists node. split; [apply elem_of_cons; by left|done].
    + apply elem_of_app in Hr as [Hr|Hr].
      * exists node. split; [apply elem_of_cons; by left|].
        eapply rtc_l; [|exact Hx]. apply walk_edge_pushed.
        apply list_elem_of_In in Hr. by apply in_rev in Hr.
      * exists r. split; [apply elem_of_cons; by right|done].
  - intros (r & Hr & Hx). apply elem_of_cons in Hr as [->|Hr].
    + apply rtc_inv in Hx as [->|(c & Hc & Hx)]; [by left|right].
      exists c. split; [|done]. apply elem_of_app. left.
      apply list_elem_of_In. apply (proj1 (in_rev _ _)). by apply walk_edge_pushed.
    + right. exists r. split; [|done]. apply elem_of_app. by right.
Qed.

(** C8 (as stated in the specification, refuted).  The walk keeps no record
    of the nodes it has popped: an object that two nodes hold is popped
    twice.  In a block of two statements with a comment between them, held
    by the statement before it and by the statement after it, the comment
    (the object at 0) is popped once for each, and handed to
    [generatesAlchemy] twice. *)
Lemma C8_shared_node_counterexample :
  walkThroughOutAst engine_concat (TBool false) None 100 (VRef 6)
                    (initial_state tt shared_comment_store)
  = (Ok [VRef 6; VRef 5; VRef 4; VRef 3; VRef 0; VRef 2; VRef 1; VRef 0],
     initial_state tt shared_comment_store) /\
  ~ NoDup [VRef 6; VRef 5; VRef 4; VRef 3; VRef 0; VRef 2; VRef 1; VRef 0].
Proof.
  split; [vm_compute; reflexivity|].
  intros H. do 4 (apply NoDup_cons in H as [_ H]). apply NoDup_cons in H as [H _].
  apply H. do 2 (apply elem_of_cons; right). apply elem_of_cons. by left.
Qed.

(** C8 (amended).  Tree-walker coverage and the object-literal skip rule.
    From the root of a tree laid out in the store (no object of it is held
    twice), the loop of [walkThroughOutAst] comes to an end once it is given
    as many iterations as there are nodes to pop.  The nodes it pops are all
    different, and they are exactly the nodes that can be reached from the
    root along the edges of [walk_edge]: from a node to the objects and
    arrays held by its properties or elements, except from an object literal
    to an array (its [properties]).  Each node popped is handed to
    [generatesAlchemy], in the order of the pops: the state the walk leaves
    is the state these calls of [generatesAlchemy] leave, one after the
    other.  On any store, whenever the walk comes to an end, it has popped
    the nodes that can be reached from the root, and them only, each at
    least once, and it has handed each node popped to [generatesAlchemy]. *)
Theorem C8_walker_coverage :
  (forall (EngineState : Type)
          (alchemyProcessing : call -> EngineState -> option string * EngineState)
          (isModular : tree) (filePath : option string)
          (t : tree) (h0 : list obj) (root : val) (s : state EngineState),
      alloc t h0 = (root, heap s) ->
      exists visited,
        NoDup visited /\
        (forall x, x ∈ visited <-> rtc (walk_edge (heap s)) root x) /\
        forall fuel, length visited <= fuel ->
          walkThroughOutAst alchemyProcessing isModular filePath fuel root s
          = (Ok visited, transformed_in_turn alchemyProcessing isModular filePath visited s) /\
          same_shape (heap s)
            (heap (transformed_in_turn alchemyProcessing isModular filePath visited s))) /\
  (forall (EngineState : Type)
          (alchemyProcessing : call -> EngineState -> option string * EngineState)
          (isModular : tree) (filePath : option string)
          (fuel : nat) (root : val) (s s' : state EngineState) (visited : list val),
      walkThroughOutAst alchemyProcessing isModular filePath fuel root s = (Ok visited, s') ->
      s' = transformed_in_turn alchemyProcessing isModular filePath visited s /\
      (forall x, x ∈ visited <-> rtc (walk_edge (heap s)) root x) /\
      same_shape (heap s) (heap s')).
Proof.
  split.
  - intros EngineState alchemyProcessing isModular filePath t h0 root s E.
    destruct (alloc_laid _ _ _ _ E) as [_ L].
    destruct (laid_walk_order _ _ _ _ _ L) as (visited & W & ND & M).
    exists visited. split; [done|]. split; [done|]. intros fuel Hf.
    assert (Hd : dfs fuel (heap s) [root] = Some visited).
    { replace fuel with (length visited + (fuel - length visited)) by lia.
      rewrite (W _ []). destruct (fuel - length visited); simpl; by rewrite app_nil_r. }
    destruct (walk_loop_in_turn alchemyProcessing isModular filePath fuel [root] visited s Hd)
      as [Ew Hsh].
    split; [|done]. unfold walkThroughOutAst, try_catch. by rewrite Ew.
  - intros EngineState alchemyProcessing isModular filePath fuel root s s' visited E.
    destruct (dfs fuel (heap s) [root]) as [popped|] eqn:Hd.
    + destruct (walk_loop_in_turn alchemyProcessing isModular filePath fuel [root] popped s Hd)
        as [Ew Hsh].
      unfold walkThroughOutAst, try_catch in E. rewrite Ew in E. injection E as <- <-.
      split; [done|]. split; [|done]. intros x.
      rewrite (dfs_covers _ _ _ _ Hd x). split.
      * by intros (r & ->%list_elem_of_singleton & Hx).
      * intros Hx. exists root. split; [by apply list_elem_of_singleton|done].
    + exfalso.
      destruct (walk_loop_dfs alchemyProcessing isModular filePath 0 fuel [root] s)
        as (s1 & Ew & _); [constructor; [apply okv_0|constructor]|apply closed_from_0|].
      rewrite Hd in Ew. unfold walkThroughOutAst, try_catch in E. by rewrite Ew in E.
Qed.

(** *** The property transformer *)

(** C6.  Engine argument composition and in-place substitution.  For a
    property with an identifier key and a string-literal value, the engine is
    called once with the key's name, the JSON text of the value with its
    double quotes turned into single quotes, the module flag, the file path
    (the empty string when there is none) and the empty pseudo-group; for such
    a property one level inside an object-literal value, the pseudo-group is
    the name of the enclosing key.  What the literal holds is replaced, in the
    literal itself, by a non-empty answer and left as it is by an empty one.
    On [{ bgd: "red", Hover: { color: "blue" } }] the mock engine
    [prop + "_" + val] gives
    [{ bgd: 'bgd_"red"', Hover: { color: 'color_"blue"' } }]. *)
Theorem C6_engine_arguments_and_substitution :
  (forall (EngineState : Type)
          (alchemyProcessing : call -> EngineState -> option string * EngineState)
          (isModular : tree) (filePath : option string) (s : state EngineState)
          lp lk lv pfs kfs vfs name text,
      heap s !! lp = Some (OObj pfs) ->
      assoc "key" pfs = Some (VRef lk) ->
      assoc "value" pfs = Some (VRef lv) ->
      heap s !! lk = Some (OObj kfs) ->
      assoc "type" kfs = Some (VStr "Identifier") ->
      assoc "name" kfs = Some name ->
      heap s !! lv = Some (OObj vfs) ->
      assoc "type" vfs = Some (VStr "StringLiteral") ->
      assoc "value" vfs = Some (VStr text) ->
      property_step alchemyProcessing isModular filePath (VRef lp) s =
      literal_outcome alchemyProcessing
        (Call name (json_quote (replaceAll_dquote text)) isModular
              (path_or_empty filePath) (VStr EmptyString))
        lv "value" s) /\
  (forall (EngineState : Type)
          (alchemyProcessing : call -> EngineState -> option string * EngineState)
          (isModular : tree) (filePath : option string) (s : state EngineState)
          lp lk kfs pfs ln nfs lnk nkfs lv vfs pseudo name text,
      heap s !! lp = Some (OObj pfs) ->
      assoc "key" pfs = Some (VRef lk) ->
      heap s !! lk = Some (OObj kfs) ->
      assoc "name" kfs = Some pseudo ->
      heap s !! ln = Some (OObj nfs) ->
      assoc "key" nfs = Some (VRef lnk) ->
      assoc "value" nfs = Some (VRef lv) ->
      heap s !! lnk = Some (OObj nkfs) ->
      assoc "name" nkfs = Some name ->
      heap s !! lv = Some (OObj vfs) ->
      assoc "type" vfs = Some (VStr "StringLiteral") ->
      assoc "value" vfs = Some (VStr text) ->
      nested_step alchemyProcessing isModular filePath (VRef lp) (VRef ln) s =
      literal_outcome alchemyProcessing
        (Call name (json_quote (replaceAll_dquote text)) isModular
              (path_or_empty filePath) pseudo)
        lv "value" s) /\
  (let '(root, h) := alloc scenario [] in
   let '(r, s') := generatesAlchemy engine_concat (TBool false) (Some "/src/a.js") root
                                    (initial_state tt h) in
   r = Ok tt /\
   reify_store (heap s') root = Some scenario_transformed /\
   calls s' =
     [Call (VStr "bgd") (json_quote "red") (TBool false) "/src/a.js" (VStr EmptyString);
      Call (VStr "color") (json_quote "blue") (TBool false) "/src/a.js" (VStr "Hover")]).
Proof.
  split; [|split].
  - intros. by eapply property_step_string.
  - intros. by eapply nested_step_string.
  - vm_compute. done.
Qed.

Lemma C6_engine_arguments_and_substitution_witness :
  property_step engine_concat (TBool false) (Some "/src/a.js") (VRef 2)
                (initial_state tt property_store) =
  literal_outcome engine_concat
    (Call (VStr "bgd") (json_quote (replaceAll_dquote "red")) (TBool false)
          (path_or_empty (Some "/src/a.js")) (VStr EmptyString))
    1 "value" (initial_state tt property_store).
Proof.
  apply (proj1 C6_engine_arguments_and_substitution unit engine_concat (TBool false)
               (Some "/src/a.js") (initial_state tt property_store) 2 0 1
               [("type", VStr "ObjectProperty"); ("key", VRef 0); ("value", VRef 1)]
               [("type", VStr "Identifier"); ("name", VStr "bgd")]
               [("type", VStr "StringLiteral"); ("value", VStr "red")]
               (VStr "bgd") "red"); reflexivity.
Defined.

Lemma C8_walker_coverage_witness :
  exists visited,
    NoDup visited /\
    (forall x, x ∈ visited <->
               rtc (walk_edge (heap (initial_state tt scenario_store))) scenario_root x) /\
    forall fuel, length visited <= fuel ->
      walkThroughOutAst engine_concat (TBool false) None fuel scenario_root
                        (initial_state tt scenario_store)
      = (Ok visited,
         transformed_in_turn engine_concat (TBool false) None visited
                             (initial_state tt scenario_store)) /\
      same_shape (heap (initial_state tt scenario_store))
        (heap (transformed_in_turn engine_concat (TBool false) None visited
                                   (initial_state tt scenario_store))).
Proof.
  refine (proj1 C8_walker_coverage unit engine_concat (TBool false) None scenario []
                scenario_root (initial_state tt scenario_store) _).
  vm_compute. reflexivity.
Defined.

Lemma replace_nonempty_lookup_ne l k x h l' :
  l' <> l -> replace_nonempty l k x h !! l' = h !! l'.
Proof.
  intros Hne. unfold replace_nonempty. destruct (nonempty x); [|done].
  by apply replace_field_lookup_ne.
Qed.

Lemma get_field_replace_nonempty_other l k x h v k' :
  k' <> k -> get_field (replace_nonempty l k x h) v k' = get_field h v k'.
Proof.
  intros Hne. unfold replace_nonempty. destruct (nonempty x); [|done].
  by apply get_field_replace_field_other.
Qed.

(** The two writes of a conditional template reach the two literals and their
    property [value] only. *)
Lemma ternary_outcome_frame {EngineState : Type}
    (alchemyProcessing : call -> EngineState -> option string * EngineState)
    c1 c2 la lb (s : state EngineState) :
  let s' := snd (ternary_outcome alchemyProcessing c1 c2 la lb s) in
  (forall l, l <> la -> l <> lb -> heap s' !! l = heap s !! l) /\
  (forall v k, k <> "value" -> get_field (heap s') v k = get_field (heap s) v k).
Proof.
  unfold ternary_outcome.
  destruct (fst (alchemyProcessing c1 (engine s))) as [x|]; [|done].
  destruct (fst (alchemyProcessing c2 _)) as [y|]; [|done].
  cbn [snd after_call heap]. split.
  - intros l Ha Hb. by rewrite !replace_nonempty_lookup_ne.
  - intros v k Hk. by rewrite !get_field_replace_nonempty_other.
Qed.

(** C7 (as stated in the specification, refuted).  A conditional expression
    that is not the first expression of its template literal is not
    transformed.  On [{ color: `${size} ${dark ? "black" : "white"}` }] the
    transformer takes the first expression, [size], for the conditional
    expression: the read of the text of its consequent throws, before any
    call of the engine; [generatesAlchemy] catches the exception, and the two
    texts are left as they were, although the engine would answer for
    them. *)
Lemma C7_ternary_not_first_counterexample :
  let '(root, h) := alloc ternary_second [] in
  let '(r, s') := generatesAlchemy engine_concat (TBool false) None root
                                   (initial_state tt h) in
  r = Ok tt /\
  calls s' = [] /\
  console s' = [TypeError "cannot read properties of undefined or null"] /\
  reify_store (heap s') root = Some ternary_second /\
  fst (engine_concat (Call (VStr "color") (json_quote "black") (TBool false) EmptyString
                           (VStr EmptyString)) tt)
  = Some ("color_" +:+ json_quote "black").
Proof. vm_compute. repeat split. Qed.

(** C7 (amended).  Conditional-template handling with an untouched condition.  For a
    property whose value is a template literal with a conditional expression
    as its first expression, the engine is called once for the text of the
    consequent and once for the text of the alternate; each of the two texts
    is replaced by a non-empty answer and left as it is by an empty one; no
    other object of the store is written to, and in every object every
    property other than [value], the [test] of the conditional expression
    among them, holds what it held.  For a template literal without
    expression, the engine is called for the cooked text of its first
    segment, which is replaced by a non-empty answer.  For a template
    literal whose first expression is no conditional expression (it has no
    [consequent]), whatever the expressions that follow it, the transformer
    throws a [TypeError] before any call of the engine and leaves the state
    as it is. *)
Theorem C7_conditional_template :
  (forall (EngineState : Type)
          (alchemyProcessing : call -> EngineState -> option string * EngineState)
          (isModular : tree) (filePath : option string) (s : state EngineState)
          lp pfs lk kfs lt tfs le es lc cfs la afs lb bfs name a b pseudo,
      heap s !! lp = Some (OObj pfs) ->
      assoc "key" pfs = Some (VRef lk) ->
      assoc "value" pfs = Some (VRef lt) ->
      heap s !! lk = Some (OObj kfs) ->
      assoc "name" kfs = Some name ->
      heap s !! lt = Some (OObj tfs) ->
      assoc "type" tfs = Some (VStr "TemplateLiteral") ->
      assoc "expressions" tfs = Some (VRef le) ->
      heap s !! le = Some (OArr es) ->
      es !! 0 = Some (VRef lc) ->
      heap s !! lc = Some (OObj cfs) ->
      assoc "consequent" cfs = Some (VRef la) ->
      assoc "alternate" cfs = Some (VRef lb) ->
      heap s !! la = Some (OObj afs) ->
      assoc "value" afs = Some (VStr a) ->
      heap s !! lb = Some (OObj bfs) ->
      assoc "value" bfs = Some (VStr b) ->
      let r := transformTemplateLiteral alchemyProcessing isModular filePath (VRef lp) pseudo s in
      r = ternary_outcome alchemyProcessing
            (Call name (json_quote (replaceAll_dquote a)) isModular (path_or_empty filePath) pseudo)
            (Call name (json_quote (replaceAll_dquote b)) isModular (path_or_empty filePath) pseudo)
            la lb s /\
      (forall l, l <> la -> l <> lb -> heap (snd r) !! l = heap s !! l) /\
      (forall v k, k <> "value" -> get_field (heap (snd r)) v k = get_field (heap s) v k)) /\
  (forall (EngineState : Type)
          (alchemyProcessing : call -> EngineState -> option string * EngineState)
          (isModular : tree) (filePath : option string) (s : state EngineState)
          lp pfs lk kfs lt tfs le lq qs lqe qfs lqv qvfs name text pseudo,
      heap s !! lp = Some (OObj pfs) ->
      assoc "key" pfs = Some (VRef lk) ->
      assoc "value" pfs = Some (VRef lt) ->
      heap s !! lk = Some (OObj kfs) ->
      assoc "name" kfs = Some name ->
      heap s !! lt = Some (OObj tfs) ->
      assoc "type" tfs = Some (VStr "TemplateLiteral") ->
      assoc "expressions" tfs = Some (VRef le) ->
      heap s !! le = Some (OArr []) ->
      assoc "quasis" tfs = Some (VRef lq) ->
      heap s !! lq = Some (OArr qs) ->
      qs !! 0 = Some (VRef lqe) ->
      heap s !! lqe = Some (OObj qfs) ->
      assoc "value" qfs = Some (VRef lqv) ->
      heap s !! lqv = Some (OObj qvfs) ->
      assoc "cooked" qvfs = Some (VStr text) ->
      transformTemplateLiteral alchemyProcessing isModular filePath (VRef lp) pseudo s =
      literal_outcome alchemyProcessing
        (Call name (json_quote (replaceAll_dquote text)) isModular (path_or_empty filePath) pseudo)
        lqv "cooked" s) /\
  (forall (EngineState : Type)
          (alchemyProcessing : call -> EngineState -> option string * EngineState)
          (isModular : tree) (filePath : option string) (s : state EngineState)
          lp pfs lk kfs lt tfs le es lc cfs name pseudo,
      heap s !! lp = Some (OObj pfs) ->
      assoc "key" pfs = Some (VRef lk) ->
      assoc "value" pfs = Some (VRef lt) ->
      heap s !! lk = Some (OObj kfs) ->
      assoc "name" kfs = Some name ->
      heap s !! lt = Some (OObj tfs) ->
      assoc "type" tfs = Some (VStr "TemplateLiteral") ->
      assoc "expressions" tfs = Some (VRef le) ->
      heap s !! le = Some (OArr es) ->
      es !! 0 = Some (VRef lc) ->
      heap s !! lc = Some (OObj cfs) ->
      assoc "consequent" cfs = None ->
      transformTemplateLiteral alchemyProcessing isModular filePath (VRef lp) pseudo s =
      (Throw (TypeError "cannot read properties of undefined or null"), s)).
Proof.
  split; [|split].
  - intros. subst r.
    erewrite transformTemplateLiteral_ternary by done.
    split; [done|]. apply ternary_outcome_frame.
  - intros. by eapply transformTemplateLiteral_static.
  - intros EngineState alchemyProcessing isModular filePath s lp pfs lk kfs lt tfs le es lc cfs
           name pseudo Hp Hk Hv Hlk Hkn Hlt Htt Hte Hle Hes Hlc Hca.
    unfold transformTemplateLiteral, transform_value. run_reads.
    rewrite (get_index_arr _ _ _ _ Hle), Hes. run_reads.
    rewrite Hca. done.
Qed.

Lemma C7_conditional_template_witness :
  let s := initial_state tt ternary_store in
  let r := transformTemplateLiteral engine_concat (TBool false) None (VRef 7) (VStr EmptyString) s in
  r = ternary_outcome engine_concat
        (Call (VStr "color") (json_quote (replaceAll_dquote "black")) (TBool false)
              (path_or_empty None) (VStr EmptyString))
        (Call (VStr "color") (json_quote (replaceAll_dquote "white")) (TBool false)
              (path_or_empty None) (VStr EmptyString))
        1 2 s /\
  (forall l, l <> 1 -> l <> 2 -> heap (snd r) !! l = heap s !! l) /\
  (forall v k, k <> "value" -> get_field (heap (snd r)) v k = get_field (heap s) v k).
Proof.
  apply (proj1 C7_conditional_template unit engine_concat (TBool false) None
               (initial_state tt ternary_store) 7
               [("type", VStr "ObjectProperty"); ("key", VRef 0); ("value", VRef 6)]
               0 [("type", VStr "Identifier"); ("name", VStr "color")]
               6 [("type", VStr "TemplateLiteral"); ("expressions", VRef 5)]
               5 [VRef 4]
               4 [("type", VStr "ConditionalExpression"); ("test", VRef 3);
                  ("consequent", VRef 1); ("alternate", VRef 2)]
               1 [("type", VStr "StringLiteral"); ("value", VStr "black")]
               2 [("type", VStr "StringLiteral"); ("value", VStr "white")]
               (VStr "color") "black" "white" (VStr EmptyString)); reflexivity.
Defined.

(** C5 (as stated in the specification, refuted).  A string literal two
    levels down, [color] in [{ A: { B: { color: "blue" } } }], is not
    transformed: the walk makes no call to the engine and leaves the tree as
    it is, although the engine would answer with a token. *)
Lemma C5_nesting_depth_counterexample :
  let '(root, h) := alloc nested_twice [] in
  let '(r, s') := walkThroughOutAst engine_concat (TBool false) None 100 root
                                    (initial_state tt h) in
  (exists visited, r = Ok visited) /\
  calls s' = [] /\
  reify_store (heap s') root = Some nested_twice /\
  fst (engine_concat (Call (VStr "color") (json_quote "blue") (TBool false) EmptyString
                           (VStr "B")) tt)
  = Some ("color_" +:+ json_quote "blue").
Proof. vm_compute. repeat split; eauto. Qed.

Lemma for_each_app {E A} (xs ys : list A) (body : A -> M E unit) s :
  for_each (xs ++ ys) body s = bind (for_each xs body) (fun _ => for_each ys body) s.
Proof.
  revert s. induction xs as [|x xs IH]; intros s; [done|].
  cbn [for_each app]. unfold bind at 1 2 3.
  destruct (body x s) as [[[]|e|] s1]; try done.
Qed.

(** C4 (as stated in the specification, refuted).  On [{ a: "x", b: "y" }]
    with an engine that throws for [a], the exception is caught and written
    to the console, but the sibling [b] is not transformed: the engine is
    never called for it and the tree is left as it was, although the engine
    would answer with a token for [b]. *)
Lemma C4_failure_isolation_counterexample :
  let '(root, h) := alloc two_properties [] in
  let '(r, s') := generatesAlchemy engine_failing (TBool false) None root
                                   (initial_state tt h) in
  r = Ok tt /\
  console s' = [EngineFailure] /\
  calls s' = [Call (VStr "a") (json_quote "x") (TBool false) EmptyString (VStr EmptyString)] /\
  reify_store (heap s') root = Some two_properties /\
  fst (engine_failing (Call (VStr "b") (json_quote "y") (TBool false) EmptyString
                            (VStr EmptyString)) tt)
  = Some ("b_" +:+ json_quote "y").
Proof. vm_compute. repeat split. Qed.

(** C4 (amended).  A failure is caught for the object literal as a whole.
    When the step of one property throws, after the steps of the properties
    before it have returned, [generatesAlchemy] returns with the state that
    step left, the exception written to the console: the properties before
    are transformed, the properties after are not visited.  When the engine
    throws for a string literal, the store is as it was before the call.
    And [generatesAlchemy] returns whatever happens inside, so that the walk
    goes on with the next node. *)
Theorem C4_failure_caught_per_object_literal :
  (forall (EngineState : Type)
          (alchemyProcessing : call -> EngineState -> option string * EngineState)
          (isModular : tree) (filePath : option string) (s s1 s2 : state EngineState)
          node ps before property after e,
      type_is (heap s) node "ObjectExpression" = true ->
      get_path (heap s) node ["properties"] = Ok ps ->
      iterate (heap s) ps = Ok (before ++ property :: after) ->
      for_each before (property_step alchemyProcessing isModular filePath) s = (Ok tt, s1) ->
      property_step alchemyProcessing isModular filePath property s1 = (Throw e, s2) ->
      generatesAlchemy alchemyProcessing isModular filePath node s =
      (Ok tt, State (heap s2) (usedObjects s2) (transformedNodes s2) (engine s2) (calls s2)
                    (console s2 ++ [e]))) /\
  (forall (EngineState : Type)
          (alchemyProcessing : call -> EngineState -> option string * EngineState)
          (isModular : tree) (filePath : option string) (s : state EngineState)
          lp lk lv pfs kfs vfs name text,
      heap s !! lp = Some (OObj pfs) ->
      assoc "key" pfs = Some (VRef lk) ->
      assoc "value" pfs = Some (VRef lv) ->
      heap s !! lk = Some (OObj kfs) ->
      assoc "type" kfs = Some (VStr "Identifier") ->
      assoc "name" kfs = Some name ->
      heap s !! lv = Some (OObj vfs) ->
      assoc "type" vfs = Some (VStr "StringLiteral") ->
      assoc "value" vfs = Some (VStr text) ->
      let c := Call name (json_quote (replaceAll_dquote text)) isModular
                    (path_or_empty filePath) (VStr EmptyString) in
      fst (alchemyProcessing c (engine s)) = None ->
      property_step alchemyProcessing isModular filePath (VRef lp) s =
      (Throw EngineFailure, after_call alchemyProcessing c (heap s) s)) /\
  (forall (EngineState : Type)
          (alchemyProcessing : call -> EngineState -> option string * EngineState)
          (isModular : tree) (filePath : option string) (s : state EngineState) node,
      fst (generatesAlchemy alchemyProcessing isModular filePath node s) = Ok tt).
Proof.
  split; [|split].
  - intros E engine isModular filePath s s1 s2 node ps before property after e
           Hty Hps Hit E1 E2.
    unfold generatesAlchemy, try_catch, get, read.
    unfold bind at 1. cbn [fst snd]. rewrite Hty. cbn [negb].
    unfold bind at 1. unfold bind at 1. rewrite Hps. rewrite Hit.
    rewrite for_each_app, (bind_ok _ _ _ _ _ E1). cbn [for_each].
    by rewrite (bind_throw _ _ _ _ _ E2).
  - intros E engine isModular filePath s lp lk lv pfs kfs vfs name text
           Hp Hk Hv Hlk Hkt Hkn Hlv Hvt Hvv c Hc.
    rewrite (property_step_string engine isModular filePath s lp lk lv pfs kfs vfs name text)
      by done.
    unfold literal_outcome. fold c. by rewrite Hc.
  - intros E engine isModular filePath s node.
    destruct (generatesAlchemy_ok engine isModular filePath 0 node s) as (s1 & -> & _);
      [apply okv_0|apply closed_from_0|done].
Qed.

Lemma C4_failure_caught_per_object_literal_witness :
  let s := initial_state tt failing_store in
  let c := Call (VStr "a") (json_quote "x") (TBool false) EmptyString (VStr EmptyString) in
  generatesAlchemy engine_failing (TBool false) None (VRef 7) s =
  (Ok tt, State failing_store [] ∅ tt [c] [EngineFailure]).
Proof.
  exact (proj1 C4_failure_caught_per_object_literal unit engine_failing (TBool false) None
               (initial_state tt failing_store) (initial_state tt failing_store)
               (State failing_store [] ∅ tt
                      [Call (VStr "a") (json_quote "x") (TBool false) EmptyString
                            (VStr EmptyString)] [])
               (VRef 7) (VRef 6) [] (VRef 2) [VRef 5] EngineFailure
               eq_refl eq_refl eq_refl eq_refl eq_refl).
Defined.

(** *** The fingerprint *)

(** C2.  Fingerprint normalization.  The fingerprint of a callback is the
    digest [generatesHashingHex(text, true, false)] of the JSON text of its
    body without whitespace: two callbacks whose texts are equal once the
    whitespace is removed have the same fingerprint. *)
Theorem C2_fingerprint_normalization {EngineState : Type}
    (generatesHashingHex : string -> bool -> bool -> string)
    (s1 s2 : state EngineState) (callback1 callback2 body1 body2 : val)
    (text1 text2 : string) :
  get_path (heap s1) callback1 ["body"] = Ok body1 ->
  json_stringify (heap s1) body1 = Ok (Some text1) ->
  get_path (heap s2) callback2 ["body"] = Ok body2 ->
  json_stringify (heap s2) body2 = Ok (Some text2) ->
  strip_whitespace text1 = strip_whitespace text2 ->
  hash_body generatesHashingHex callback1 s1
  = (Ok (generatesHashingHex (strip_whitespace text1) true false), s1) /\
  hash_body generatesHashingHex callback2 s2
  = (Ok (generatesHashingHex (strip_whitespace text1) true false), s2).
Proof.
  intros B1 J1 B2 J2 Hs. unfold hash_body, fingerprint, bind, get, read.
  rewrite B1, B2. cbn [heap]. rewrite J1, J2. cbn [ret]. by rewrite Hs.
Qed.

Lemma C2_fingerprint_normalization_witness :
  hash_body hash_identity (VRef 1) (initial_state tt blank_store)
  = (Ok (hash_identity (strip_whitespace blank_text1) true false), initial_state tt blank_store) /\
  hash_body hash_identity (VRef 3) (initial_state tt blank_store)
  = (Ok (hash_identity (strip_whitespace blank_text1) true false), initial_state tt blank_store).
Proof.
  refine (C2_fingerprint_normalization hash_identity
            (initial_state tt blank_store) (initial_state tt blank_store)
            (VRef 1) (VRef 3) (VRef 0) (VRef 2) blank_text1 blank_text2 _ _ _ _ _);
    vm_compute; reflexivity.
Defined.

(** *** The configuration *)

(** C10.  Missing-configuration degradation.  When [galadriel.json] is
    absent, unreadable or not JSON, [parseConfig] returns an empty array, the
    plugin reads [exclude] and [module] as undefined from it, and the
    visitor, at any call site of any file, throws on [exclude.some], catches
    the exception and writes it to the console: the store, the cache, the
    engine and the record of its calls are left as they were. *)
Theorem C10_missing_configuration (JSON_parse : string -> option tree) (galadriel_json : file) :
  unusable JSON_parse galadriel_json ->
  fst (parseConfig JSON_parse galadriel_json) = TArr [] /\
  plugin_config JSON_parse galadriel_json = (TUndef, TUndef) /\
  forall (EngineState : Type)
         (alchemyProcessing : call -> EngineState -> option string * EngineState)
         (generatesHashingHex : string -> bool -> bool -> string)
         (resolve : string -> string) (fuel : nat) (node : val) (filename : option string)
         (s : state EngineState),
    CallExpression alchemyProcessing generatesHashingHex resolve
                   (fst (plugin_config JSON_parse galadriel_json))
                   (snd (plugin_config JSON_parse galadriel_json))
                   fuel node filename s
    = (Ok tt, State (heap s) (usedObjects s) (transformedNodes s) (engine s) (calls s)
                    (console s ++ [TypeError "cannot read properties of undefined or null"])).
Proof.
  intros H.
  assert (E : fst (parseConfig JSON_parse galadriel_json) = TArr []).
  { destruct galadriel_json as [| |text]; try done. simpl in *. by rewrite H. }
  assert (E' : plugin_config JSON_parse galadriel_json = (TUndef, TUndef)).
  { unfold plugin_config. by rewrite E. }
  split; [done|]. split; [done|]. intros. by rewrite E'.
Qed.

Lemma C10_missing_configuration_witness :
  fst (parseConfig (fun _ => None) (Content "{ exclude: ")) = TArr [] /\
  plugin_config (fun _ => None) (Content "{ exclude: ") = (TUndef, TUndef) /\
  forall (EngineState : Type)
         (alchemyProcessing : call -> EngineState -> option string * EngineState)
         (generatesHashingHex : string -> bool -> bool -> string)
         (resolve : string -> string) (fuel : nat) (node : val) (filename : option string)
         (s : state EngineState),
    CallExpression alchemyProcessing generatesHashingHex resolve
                   (fst (plugin_config (fun _ => None) (Content "{ exclude: ")))
                   (snd (plugin_config (fun _ => None) (Content "{ exclude: ")))
                   fuel node filename s
    = (Ok tt, State (heap s) (usedObjects s) (transformedNodes s) (engine s) (calls s)
                    (console s ++ [TypeError "cannot read properties of undefined or null"])).
Proof.
  exact (C10_missing_configuration (fun _ => None) (Content "{ exclude: ") eq_refl).
Defined.

(** *** The exclusion filter *)









(** *** Reading a laid out tree *)

Lemma laid_elems_assoc h fvs :
  forall fs a b, map fst fvs = map fst fs ->
    laid_elems h a b (map snd fvs) (map snd fs) ->
    forall k,
      match assoc k fs with
      | Some t => exists v a' b', assoc k fvs = Some v /\ laid h a' b' v t /\ a <= a' /\ b' <= b
      | None => assoc k fvs = None
      end.
Proof.
  induction fvs as [|[k0 v0] fvs IH]; intros [|[k1 t1] fs] a b Hk Hl k; simpl in *; try done.
  injection Hk as -> Hk. inversion Hl as [|? m ? ? ? ? ? L1 L2]; subst.
  pose proof (laid_range _ _ _ _ _ L1). pose proof (laid_elems_range _ _ _ _ _ L2).
  destruct (String.eqb k k1).
  - exists v0, a, m. repeat split; try done.
  - specialize (IH fs m b Hk L2 k). destruct (assoc k fs); [|done].
    destruct IH as (v & a' & b' & ? & ? & ? & ?). exists v, a', b'. repeat split; try done. lia.
Qed.

Lemma laid_elems_lookup h a b vs ts :
  laid_elems h a b vs ts ->
  forall i,
    match ts !! i with
    | Some t => exists v a' b', vs !! i = Some v /\ laid h a' b' v t /\ a <= a' /\ b' <= b
    | None => vs !! i = None
    end.
Proof.
  induction 1 as [|a m b v t vs ts L1 L2 IH]; intros i; [done|].
  pose proof (laid_range _ _ _ _ _ L1). pose proof (laid_elems_range _ _ _ _ _ L2).
  destruct i as [|i]; simpl.
  - exists v, a, m. repeat split; try done.
  - specialize (IH i). destruct (ts !! i); [|done].
    destruct IH as (v' & a' & b' & ? & ? & ? & ?). exists v', a', b'. repeat split; try done. lia.
Qed.

Lemma laid_get_field h a b l fs k :
  laid h a b (VRef l) (TObj fs) ->
  exists v a' b', get_field h (VRef l) k = Ok v /\
                  laid h a' b' v (tree_field (TObj fs) k) /\ a <= a' /\ b' <= l.
Proof.
  inversion 1 as [| | | | |? ? fvs ? L Hk Hl|]; subst.
  rewrite (get_field_obj _ _ _ _ Hl). simpl.
  pose proof (laid_elems_assoc h fvs fs a l Hk L k) as H1.
  pose proof (laid_elems_range _ _ _ _ _ L).
  destruct (assoc k fs) as [t|].
  - destruct H1 as (v & a' & b' & -> & ? & ? & ?). exists v, a', b'. repeat split; done.
  - rewrite H1. exists VUndef, a, a. repeat split; try done. constructor.
Qed.

Lemma laid_get_field_some h a b l fs k t :
  laid h a b (VRef l) (TObj fs) -> assoc k fs = Some t ->
  exists v a' b', get_field h (VRef l) k = Ok v /\ laid h a' b' v t /\ a <= a' /\ b' <= l.
Proof.
  intros L Hk. destruct (laid_get_field h a b l fs k L) as (v & a' & b' & ? & L' & ? & ?).
  simpl in L'. rewrite Hk in L'. eauto 10.
Qed.

Lemma laid_get_index h a b l ts i t :
  laid h a b (VRef l) (TArr ts) -> ts !! i = Some t ->
  exists v a' b', get_index h (VRef l) i = Ok v /\ laid h a' b' v t /\ a <= a' /\ b' <= l.
Proof.
  inversion 1 as [| | | | | |? ? vs ? L Hl]; subst. intros Hi.
  rewrite (get_index_arr _ _ _ _ Hl).
  pose proof (laid_elems_lookup _ _ _ _ _ L i) as H1. rewrite Hi in H1.
  destruct H1 as (v & a' & b' & -> & ? & ? & ?). exists v, a', b'. repeat split; done.
Qed.

Lemma laid_str_inv h a b v s : laid h a b v (TStr s) -> v = VStr s.
Proof. by inversion 1. Qed.

Lemma laid_str_inv' h a b s t : laid h a b (VStr s) t -> t = TStr s.
Proof. by inversion 1. Qed.

Lemma laid_node_inv h a b v t : laid h a b v t -> is_node t -> exists l, v = VRef l /\ b = S l.
Proof. destruct 1; simpl; try done; eauto. Qed.

Lemma laid_ref_node h a b l t : laid h a b (VRef l) t -> is_node t.
Proof. by inversion 1. Qed.

Lemma laid_field_is h a b v t k x :
  laid h a b v t -> field_is h v k x = tree_field_is t k x.
Proof.
  intros L. unfold field_is, tree_field_is.
  destruct L as [a|a|a c|a n|a s|a b fvs fs L Hk Hl|a b vs ts L Hl]; try done.
  - unfold get_field. simpl. by destruct (String.eqb k "length").
  - rewrite (get_field_obj _ _ _ _ Hl). simpl.
    pose proof (laid_elems_assoc h fvs fs a b Hk L k) as H1.
    destruct (assoc k fs) as [t|].
    + destruct H1 as (v & a' & b' & -> & L' & _). simpl.
      destruct L'; try done.
    + by rewrite H1.
  - unfold get_field. rewrite Hl. simpl. by destruct (String.eqb k "length").
Qed.

(** What can be reached from the root of a laid out tree is an object of the
    tree. *)
Lemma laid_reach h a b v t l : laid h a b v t -> reach h v l -> a <= l < b.
Proof.
  intros L (l0 & -> & Hr).
  pose proof (laid_root _ _ _ _ _ L) as H0. simpl in H0.
  pose proof (proj1 (laid_cells_mut h) _ _ _ _ L) as C. clear L.
  induction Hr as [|l1 l2 l3 (o & Ho & Hin) _ IH]; [done|].
  apply IH. exact (proj1 (Forall_forall _ _) (C l1 o H0 Ho) _ Hin).
Qed.

Lemma erase_field_inv fs fs' :
  erase_field <$> fs = erase_field <$> fs' ->
  Forall2 (fun kv kv' : string * val => fst kv = fst kv' /\ alike (snd kv) (snd kv')) fs fs'.
Proof.
  revert fs'. induction fs as [|[k v] fs IH]; intros [|[k' v'] fs'] Hfs; simpl in *; try done.
  injection Hfs as Hk Hv Hfs. subst k'. constructor; [|by apply IH].
  split; [done|]. by eapply erase_alike.
Qed.

(** *** The size of what is laid out *)

Lemma laid_size_mut h :
  (forall a b v t, laid h a b v t -> b = a + tsize t) /\
  (forall a b vs ts, laid_elems h a b vs ts -> b = a + list_sum (map tsize ts)).
Proof.
  apply laid_mutind; intros; simpl; try lia.
  rewrite map_map in H0. lia.
Qed.

Lemma laid_size h a b v t : laid h a b v t -> b = a + tsize t.
Proof. apply laid_size_mut. Qed.

Lemma alloc_length t h v h' : alloc t h = (v, h') -> length h' = length h + tsize t.
Proof. intros E. destruct (alloc_laid _ _ _ _ E) as [_ L]. by apply laid_size in L. Qed.

Lemma laid_elems_length_mut h :
  (forall a b v t, laid h a b v t -> True) /\
  (forall a b vs ts, laid_elems h a b vs ts -> length vs = length ts).
Proof. apply laid_mutind; intros; simpl; try done. by f_equal. Qed.

Lemma laid_elems_length h a b vs ts : laid_elems h a b vs ts -> length vs = length ts.
Proof. apply laid_elems_length_mut. Qed.

(** Distinct references to the objects from [a] up to [b] are no more than
    these objects. *)
Lemma refs_length a b (wl : list val) :
  NoDup wl -> Forall (is_ref_in a b) wl -> length wl <= b - a.
Proof.
  intros ND F.
  assert (S : wl ⊆+ (VRef <$> seq a (b - a))).
  { apply NoDup_submseteq; [done|]. intros x Hx.
    destruct (proj1 (Forall_forall _ _) F x Hx) as (l & -> & Hl).
    apply list_elem_of_fmap. exists l. split; [done|]. apply elem_of_seq. lia. }
  apply submseteq_length in S. by rewrite length_fmap, length_seq in S.
Qed.

(** *** What the transformation leaves of a laid out tree *)

Lemma laid_shape_mut h h' :
  same_shape h h' ->
  (forall a b v t, laid h a b v t -> exists t', laid h' a b v t') /\
  (forall a b vs ts, laid_elems h a b vs ts ->
     forall vs', Forall2 alike vs vs' -> exists ts', laid_elems h' a b vs' ts').
Proof.
  intros H. apply laid_mutind; try (intros; eexists; by constructor).
  - intros a b fvs fs _ IH Hk Hb.
    destruct (same_shape_lookup_Some _ _ _ _ H Hb) as (o' & Hb' & Ho).
    symmetry in Ho. destruct o' as [fvs'|]; [|done]. simpl in Ho. injection Ho as Ho.
    destruct (IH (map snd fvs')) as (ts' & L'); [by apply erase_field_alike|].
    exists (TObj (zip (map fst fvs') ts')).
    pose proof (laid_elems_length _ _ _ _ _ L') as Hlen. rewrite length_map in Hlen.
    eapply laid_obj; [| |exact Hb'].
    + change (map snd (zip (map fst fvs') ts')) with ((zip (map fst fvs') ts').*2).
      rewrite snd_zip; [done|]. rewrite length_map. lia.
    + change (map fst (zip (map fst fvs') ts')) with ((zip (map fst fvs') ts').*1).
      rewrite fst_zip; [done|]. rewrite length_map. lia.
  - intros a b vs ts _ IH Hb.
    destruct (same_shape_lookup_Some _ _ _ _ H Hb) as (o' & Hb' & Ho).
    symmetry in Ho. destruct o' as [|vs']; [done|]. simpl in Ho. injection Ho as ->.
    destruct (IH vs) as (ts' & L'); [apply Forall2_same_length_lookup; split; [done|]; intros; simplify_eq; apply alike_refl|].
    exists (TArr ts'). by eapply laid_arr.
  - intros a vs' Hvs. apply Forall2_nil_inv_l in Hvs as ->. exists []. constructor.
  - intros a m b v t vs ts Lv [t' IHv] _ IHvs vs0 Hvs.
    apply Forall2_cons_inv_l in Hvs as (v' & vs' & Hv & Hvs & ->).
    destruct (IHvs vs' Hvs) as (ts' & Lvs').
    destruct Hv as [<-|(x & y & -> & ->)].
    + exists (t' :: ts'). by econstructor.
    + inversion Lv; subst. exists (TStr y :: ts'). econstructor; [constructor|done].
Qed.

Lemma laid_shape h h' a b v t :
  same_shape h h' -> laid h a b v t -> exists t', laid h' a b v t'.
Proof. intros H. apply (laid_shape_mut h h' H). Qed.

(** *** The visitor at one call site *)

Lemma some_excluded_not_timeout resolve filePath entries :
  some_excluded resolve filePath entries <> Timeout.
Proof.
  induction entries as [|e entries IH]; [done|]. simpl.
  destruct filePath as [p|]; [|done]. destruct e; try done.
  by destruct (includes p (resolve s)).
Qed.

Lemma excluded_not_timeout resolve exclude filePath :
  excluded resolve exclude filePath <> Timeout.
Proof. destruct exclude; try done. apply some_excluded_not_timeout. Qed.

Lemma located_site_body h l la lcb body :
  located h l la lcb body -> site_body h (VRef l) = Ok body.
Proof.
  intros (Ha & (es & Hla) & (cfs & Hcb & Hb) & _). unfold site_body. cbn [get_path].
  rewrite Ha, (get_index_arr _ _ _ _ Hla). cbn [lookup list_lookup or_undef].
  by rewrite (get_field_obj _ _ _ _ Hcb), Hb.
Qed.

Lemma located_shape h h' l la lcb body :
  same_shape h h' -> located h l la lcb body -> located h' l la lcb body.
Proof.
  intros H (Ha & (es & Hla) & (cfs & Hcb & Hb) & Hlt). split; [|split; [|split]]; [| | |done].
  - by rewrite (get_field_shape_other h h' _ _ H).
  - destruct (same_shape_lookup_Some _ _ _ _ H Hla) as (o' & Ho' & E).
    destruct o'; [done|]. simpl in E. injection E as <-. eauto.
  - pose proof (get_field_shape_other h h' (VRef lcb) "body" H eq_refl) as E.
    rewrite (get_field_obj _ _ _ _ Hcb), Hb in E.
    destruct (same_shape_lookup_Some _ _ _ _ H Hcb) as (o' & Ho' & E').
    destruct o' as [cfs'|]; [|done]. exists cfs'. split; [done|].
    rewrite (get_field_obj _ _ _ _ Ho') in E. injection E as E.
    destruct (assoc "body" cfs') as [x|] eqn:Hx; simpl in E; [by subst|].
    simpl in E'. injection E' as E'. apply erase_field_inv in E'.
    exfalso. clear -Hb Hx E'.
    induction E' as [|[k v] [k' v'] ? ? [Hk _] _ IH]; [done|].
    cbn [assoc fst snd] in *. subst.
    destruct (String.eqb "body" k'); [done|]. by apply IH.
Qed.

Lemma located_agree h h' l la lcb body :
  agree_on 0 (S l) h h' -> located h l la lcb body -> located h' l la lcb body.
Proof.
  intros A (Ha & (es & Hla) & (cfs & Hcb & Hb) & Hlt). split; [|split; [|split]]; [| | |done].
  - unfold get_field in *. rewrite <- (A l) by lia. done.
  - exists es. rewrite <- (A la) by lia. done.
  - exists cfs. rewrite <- (A lcb) by lia. done.
Qed.

Lemma located_replace h l la lcb body x :
  located h l la lcb body -> located (replace_field lcb "body" x h) l la lcb x.
Proof.
  intros (Ha & (es & Hla) & (cfs & Hcb & Hb) & Hlt). split; [|split; [|split]]; [| | |done].
  - unfold get_field in *. rewrite replace_field_lookup_ne by lia. done.
  - exists es. rewrite replace_field_lookup_ne by lia. done.
  - exists (assoc_set "body" x cfs). split; [|apply assoc_set_same].
    unfold replace_field. rewrite Hcb. apply list_lookup_insert_eq. by eapply lookup_lt_Some.
Qed.

Section VisitFacts.
Context {EngineState : Type}.
Variable alchemyProcessing : call -> EngineState -> option string * EngineState.
Variable generatesHashingHex : string -> bool -> bool -> string.
Variable resolve : string -> string.
Variables exclude isModular : tree.
Variable fuel : nat.

Abbreviation visitor := (CallExpression alchemyProcessing generatesHashingHex resolve
                           exclude isModular fuel).

Lemma try_catch_ext {A} (m m' : M EngineState A) handler s :
  m s = m' s -> try_catch m handler s = try_catch m' handler s.
Proof. intros E. unfold try_catch. by rewrite E. Qed.

Lemma quiet_refl (s : state EngineState) : quiet s s.
Proof. by repeat split. Qed.

(** A file the filter excludes, or a filter that fails: nothing is done. *)
Lemma CallExpression_excluded node filename (s : state EngineState) :
  excluded resolve exclude filename <> Ok false ->
  exists s', visitor node filename s = (Ok tt, s') /\ quiet s s'.
Proof.
  intros Hx. unfold CallExpression, try_catch, bind, read.
  pose proof (excluded_not_timeout resolve exclude filename) as Ht.
  destruct (excluded resolve exclude filename) as [[|]|e|]; try done.
  - exists s. split; [done|apply quiet_refl].
  - eexists. split; [reflexivity|]. by repeat split.
Qed.

(** A call of another function: nothing is done. *)
Lemma CallExpression_untracked a b node site filename (s : state EngineState) :
  laid (heap s) a b node site -> untracked site ->
  exists s', visitor node filename s = (Ok tt, s') /\ quiet s s'.
Proof.
  intros L (fs & -> & Hu).
  assert (Hd : excluded resolve exclude filename = Ok false \/
               excluded resolve exclude filename <> Ok false)
    by (destruct (excluded resolve exclude filename) as [[|]| |]; auto).
  destruct Hd as [Hx|Hx]; [|by apply CallExpression_excluded].
  destruct (laid_node_inv _ _ _ _ _ L I) as (l & -> & ->).
  destruct (laid_get_field _ _ _ _ _ "callee" L) as (vc & ac & bc & Hc & Lc & _).
  exists s. split; [|apply quiet_refl].
  unfold CallExpression, try_catch, bind, get, read. rewrite Hx. cbn [get_path heap].
  rewrite Hc. unfold type_is. rewrite !(laid_field_is _ _ _ _ _ _ _ Lc), Hu. done.
Qed.

(** A tracked call in a file that is not excluded: the visitor comes to the
    cache with the callback and the fingerprint of its body. *)
Lemma CallExpression_tracked a b node site body filename (s : state EngineState) :
  excluded resolve exclude filename = Ok false ->
  laid (heap s) a b node site -> tracked site body ->
  exists l la lcb body_v ab bb,
    node = VRef l /\ b = S l /\ located (heap s) l la lcb body_v /\
    laid (heap s) ab bb body_v body /\ a <= ab /\ bb <= lcb /\
    visitor node filename s =
      try_catch (cache_protocol alchemyProcessing isModular filename fuel (VRef lcb)
                   (fingerprint generatesHashingHex (to_json body)))
                (fun error => console_error error) s.
Proof.
  intros Hx L (fs & cfs & cbfs & rest & ty & -> & Hcallee & Hty & Hname & Hargs & Hcbty & Hfun
               & Hbody & Hnode).
  destruct (laid_node_inv _ _ _ _ _ L I) as (l & -> & ->).
  destruct (laid_get_field_some _ _ _ _ _ _ _ L Hcallee) as (vc & ac & bc & Hc & Lc & _).
  destruct (laid_get_field_some _ _ _ _ _ _ _ L Hargs) as (va & aa & ba & Ha & La & Haa & Hba).
  destruct (laid_node_inv _ _ _ _ _ La I) as (la & -> & ->).
  destruct (laid_get_index _ _ _ _ _ 0 _ La eq_refl) as (vcb & acb & bcb & Hcb & Lcb & Hacb & Hbcb).
  destruct (laid_node_inv _ _ _ _ _ Lcb I) as (lcb & -> & ->).
  destruct (laid_get_field_some _ _ _ _ _ _ _ Lcb Hcbty) as (vty & ? & ? & Hvty & Lty & _).
  apply laid_str_inv in Lty as ->.
  destruct (laid_get_field_some _ _ _ _ _ _ _ Lcb Hbody) as (vb & ab & bb & Hvb & Lb & Hab & Hbb).
  exists l, la, lcb, vb, ab, bb. split; [done|]. split; [done|].
  inversion La as [| | | | | |? ? vs ? Lvs Hla]; subst.
  rewrite (get_index_arr _ _ _ _ Hla) in Hcb.
  destruct vs as [|v0 vs]; [done|]. simpl in Hcb. injection Hcb as ->.
  inversion Lcb as [| | | | |? ? cvs ? Lcvs Hks Hlcb|]; subst.
  pose proof Hvb as Hvb'. rewrite (get_field_obj _ _ _ _ Hlcb) in Hvb'. injection Hvb' as Hvb'.
  assert (Hsome : assoc "body" cvs = Some vb).
  { destruct (assoc "body" cvs) as [xb|] eqn:E; [by simpl in Hvb'; subst|].
    simpl in Hvb'. subst vb. inversion Lb; subst. done. }
  split; [|split; [done|]; split; [lia|]; split; [lia|]].
  { split; [done|]. split; [eauto|]. split; [eauto|]. lia. }
  unfold CallExpression. apply try_catch_ext.
  unfold bind, get, read. rewrite Hx. cbn [get_path heap fst snd].
  rewrite Hc. unfold type_is.
  rewrite !(laid_field_is _ _ _ _ _ _ _ Lc). unfold tree_field_is, tree_field.
  rewrite Hty, Hname. cbn [String.eqb Ascii.eqb Bool.eqb andb negb].
  rewrite Ha. rewrite (get_index_arr _ _ _ _ Hla). cbn [lookup list_lookup or_undef truthy negb].
  rewrite Hvty.
  assert (Hb : bool_decide (VStr ty = VStr "FunctionExpression")
               || bool_decide (VStr ty = VStr "ArrowFunctionExpression") = true).
  { destruct Hfun as [-> | ->]; [by rewrite bool_decide_eq_true_2|].
    apply orb_true_iff. right. by apply bool_decide_eq_true_2. }
  rewrite Hb. unfold hash_body, bind, get, read. cbn [get_path heap].
  rewrite Hvb. unfold json_stringify.
  destruct (laid_node_inv _ _ _ _ _ Lb Hnode) as (lb & -> & ->).
  rewrite (laid_reify_store _ _ _ _ _ Lb). done.
Qed.

(** A fingerprint in use: a copy of its fragment is made and becomes the
    body of the callback. *)
Lemma cache_protocol_hit (s : state EngineState) filename lcb f lc tc ac bc :
  f ∈ usedObjects s -> transformedNodes s !! f = Some (VRef lc) ->
  laid (heap s) ac bc (VRef lc) tc ->
  cache_protocol alchemyProcessing isModular filename fuel (VRef lcb) f s =
    (Ok tt, set_heap (replace_field lcb "body" (fst (alloc tc (heap s)))
                        (snd (alloc tc (heap s)))) s).
Proof.
  intros Hu Hc L. unfold cache_protocol, bind, collected.
  rewrite bool_decide_eq_true_2 by done. rewrite Hc. cbn [or_undef truthy negb].
  unfold cloneDeep. rewrite (laid_reify_store _ _ _ _ _ L).
  destruct (alloc tc (heap s)) as [copy h']. unfold write. done.
Qed.

(** A fingerprint not in use: the body is transformed where it is, and a
    copy of what it has become goes to the cache. *)
Lemma cache_protocol_miss (s : state EngineState) filename n l la lcb f body_v ab bb body :
  f ∉ usedObjects s -> closed_from n (heap s) ->
  located (heap s) l la lcb body_v -> laid (heap s) ab bb body_v body -> is_node body ->
  n <= ab -> bb - ab <= fuel ->
  exists s2 tc,
    step_ok isModular filename n s s2 /\ laid (heap s2) ab bb body_v tc /\
    cache_protocol alchemyProcessing isModular filename fuel (VRef lcb) f s =
      (Ok tt, State (snd (alloc tc (heap s2))) (usedObjects s2 ++ [f])
                    (<[f := fst (alloc tc (heap s2))]> (transformedNodes s2))
                    (engine s2) (calls s2) (console s2)).
Proof.
  intros Hu Hc Hloc L Hnode Hn Hfuel.
  destruct (laid_node_inv _ _ _ _ _ L Hnode) as (lb & -> & ->).
  destruct (proj1 (laid_walks_mut (heap s)) _ _ _ _ L lb eq_refl) as (wl & W & ND & F & _).
  pose proof (refs_length _ _ _ ND F) as Hlen.
  pose proof (laid_root _ _ _ _ _ L) as Hr. simpl in Hr.
  destruct (walkThroughOutAst_walks alchemyProcessing isModular filename n s (VRef lb) wl fuel)
    as (s2 & Ew & Hok); [done|simpl; lia|done|lia|].
  destruct (laid_shape _ _ _ _ _ _ (ok_shape _ _ _ _ _ Hok) L) as (tc & L2).
  exists s2, tc. split; [done|]. split; [done|].
  pose proof (located_shape _ _ _ _ _ _ (ok_shape _ _ _ _ _ Hok) Hloc) as Hloc2.
  destruct Hloc as (_ & _ & (cfs & Hcb & Hb) & _).
  destruct Hloc2 as (_ & _ & (cfs2 & Hcb2 & Hb2) & _).
  unfold cache_protocol, bind. rewrite bool_decide_eq_false_2 by done.
  unfold transform_and_save, bind, get, read. cbn [get_path].
  rewrite (get_field_obj _ _ _ _ Hcb), Hb. cbn [or_undef]. rewrite Ew.
  rewrite (get_field_obj _ _ _ _ Hcb2), Hb2. cbn [or_undef].
  unfold cloneDeep. rewrite (laid_reify_store _ _ _ _ _ L2).
  destruct (alloc tc (heap s2)) as [copy h3]. done.
Qed.

End VisitFacts.

(** *** One visit *)

Lemma agree_on_sym a b h h' : agree_on a b h h' -> agree_on a b h' h.
Proof. intros H l Hl. symmetry. by apply H. Qed.

Lemma agree_on_trans a b h1 h2 h3 :
  agree_on a b h1 h2 -> agree_on a b h2 h3 -> agree_on a b h1 h3.
Proof. intros H1 H2 l Hl. rewrite H1 by done. by apply H2. Qed.

Lemma laid_ref_bound h a b l t : laid h a b (VRef l) t -> a <= l /\ b = S l /\ b <= length h.
Proof.
  intros L. pose proof (laid_root _ _ _ _ _ L) as Hr. simpl in Hr.
  destruct (laid_ref_inv _ _ _ _ _ L) as [-> _].
  destruct (laid_bound _ _ _ _ _ L); lia.
Qed.

Section RunFacts.
Context {EngineState : Type}.
Variable alchemyProcessing : call -> EngineState -> option string * EngineState.
Variable generatesHashingHex : string -> bool -> bool -> string.
Variable resolve : string -> string.
Variables exclude isModular : tree.
Variable fuel : nat.

Abbreviation visit_site := (visit alchemyProcessing generatesHashingHex resolve
                              exclude isModular fuel).
Abbreviation run_sites := (run alchemyProcessing generatesHashingHex resolve
                             exclude isModular fuel).
Abbreviation fingerprint_of body := (fingerprint generatesHashingHex (to_json body)).

Lemma grows_refl (s : state EngineState) : grows s s.
Proof. split; [apply agree_on_refl|]. split; [done|]. by intros f Hf. Qed.

Lemma grows_trans (s1 s2 s3 : state EngineState) : grows s1 s2 -> grows s2 s3 -> grows s1 s3.
Proof.
  intros (A1 & L1 & U1) (A2 & L2 & U2). split; [|split; [lia|]].
  - eapply agree_on_trans; [exact A1|]. eapply agree_on_sub; [exact A2|lia|lia].
  - intros f Hf. destruct (U1 f Hf) as [Hf2 E1]. destruct (U2 f Hf2) as [Hf3 E2].
    split; [done|congruence].
Qed.

(** The fragments of the cache are where they were after the store has
    grown. *)
Lemma cache_ok_grows (s s' : state EngineState) :
  cache_ok s -> grows s s' ->
  (forall f, f ∈ usedObjects s' -> f ∈ usedObjects s \/
     exists lc tc a b, transformedNodes s' !! f = Some (VRef lc) /\
                       laid (heap s') a b (VRef lc) tc) ->
  cache_ok s'.
Proof.
  intros Hok (A & _ & U) Hnew f Hf. destruct (Hnew f Hf) as [Hold|?]; [|done].
  destruct (Hok f Hold) as (lc & tc & a & b & Hc & L). exists lc, tc, a, b.
  destruct (U f Hold) as [_ ->]. split; [done|].
  eapply laid_agree; [exact L|]. eapply agree_on_sub; [exact A|lia|].
  by destruct (laid_ref_bound _ _ _ _ _ L) as (_ & _ & ?).
Qed.

(** A site the visitor leaves alone. *)
Lemma visit_skipped site (s : state EngineState) :
  excluded resolve exclude (fst site) <> Ok false \/ untracked (snd site) ->
  exists s', snd (visit_site site s) = (Ok tt, s') /\
             grows s s' /\ usedObjects s' = usedObjects s /\
             transformedNodes s' = transformedNodes s /\
             engine s' = engine s /\ calls s' = calls s.
Proof.
  intros Hs. unfold visit. destruct (alloc (snd site) (heap s)) as [node h1] eqn:Ea.
  cbn [fst snd]. destruct (alloc_laid _ _ _ _ Ea) as [P1 L1].
  assert (Q : exists s', CallExpression alchemyProcessing generatesHashingHex resolve exclude
                           isModular fuel node (fst site) (set_heap h1 s) = (Ok tt, s') /\
                         quiet (set_heap h1 s) s').
  { destruct Hs as [Hx|Hu]; [by apply CallExpression_excluded|].
    by eapply (CallExpression_untracked _ _ _ _ _ _ _ _ node (snd site) (fst site) (set_heap h1 s)). }
  destruct Q as (s' & E & Hh & Hu' & Hn & He & Hc). exists s'. split; [done|].
  cbn [heap set_heap usedObjects transformedNodes engine calls] in *.
  split; [|done]. split; [|split].
  - rewrite Hh. apply agree_on_sym. by apply agree_on_prefix.
  - rewrite Hh. by apply prefix_length.
  - intros f Hf. by rewrite Hu', Hn.
Qed.

(** A later occurrence of a fingerprint: the engine is not called, and the
    body of the callback is a new copy of the fragment of the cache. *)
Lemma visit_hit site body (s : state EngineState) :
  cache_ok s -> excluded resolve exclude (fst site) = Ok false ->
  tracked (snd site) body -> fingerprint_of body ∈ usedObjects s ->
  exists s' copy lc tc,
    snd (visit_site site s) = (Ok tt, s') /\
    (grows s s' /\ usedObjects s' = usedObjects s /\ transformedNodes s' = transformedNodes s /\
     engine s' = engine s /\ calls s' = calls s) /\
    transformedNodes s !! fingerprint_of body = Some (VRef lc) /\
    reify_store (heap s) (VRef lc) = Some tc /\
    site_body (heap s') (fst (visit_site site s)) = Ok copy /\
    reify_store (heap s') copy = Some tc /\
    reify_store (heap s') (VRef lc) = Some tc /\
    (forall l', reach (heap s') copy l' -> length (heap s) + tsize (snd site) <= l') /\
    (forall l', reach (heap s') (VRef lc) l' -> l' < length (heap s)).
Proof.
  intros Hok Hx Ht Hu.
  destruct (Hok _ Hu) as (lc & tc & ac & bc & Hc & Lc).
  destruct (laid_ref_bound _ _ _ _ _ Lc) as (Hac & Hbc & Hbl).
  unfold visit. destruct (alloc (snd site) (heap s)) as [node h1] eqn:Ea. cbn [fst snd].
  destruct (alloc_laid _ _ _ _ Ea) as [P1 L1].
  pose proof (alloc_length _ _ _ _ Ea) as Hlen1.
  assert (A1 : agree_on 0 (length (heap s)) (heap s) h1)
    by (by apply agree_on_sym, agree_on_prefix).
  assert (Lc1 : laid h1 ac bc (VRef lc) tc).
  { eapply laid_agree; [exact Lc|]. eapply agree_on_sub; [exact A1|lia|lia]. }
  destruct (CallExpression_tracked alchemyProcessing generatesHashingHex resolve exclude
              isModular fuel _ _ node (snd site) body (fst site) (set_heap h1 s) Hx L1 Ht)
    as (l & la & lcb & body_v & ab & bb & -> & Hb & Hloc & Lb & Hab & Hbb & E).
  pose proof (laid_range _ _ _ _ _ Lb) as Hrb.
  rewrite E. unfold try_catch.
  rewrite (cache_protocol_hit alchemyProcessing isModular fuel (set_heap h1 s) (fst site)
             lcb _ lc tc ac bc Hu Hc Lc1).
  cbn [heap set_heap usedObjects transformedNodes engine calls] in *.
  destruct (alloc tc h1) as [copy h2] eqn:Ec. cbn [fst snd].
  destruct (alloc_laid _ _ _ _ Ec) as [P2 L2].
  assert (A2 : agree_on 0 (length h1) h1 h2) by (by apply agree_on_sym, agree_on_prefix).
  pose proof (prefix_length _ _ P2) as Hlen2.
  destruct Hloc as (Hla & Hes & Hcb & Hlt).
  assert (Hloc : located h1 l la lcb body_v) by done.
  set (h3 := replace_field lcb "body" copy h2).
  assert (A3 : forall i, i <> lcb -> h3 !! i = h2 !! i)
    by (intros i Hi; by apply replace_field_lookup_ne).
  assert (Hl3 : length h3 = length h2) by apply replace_field_length.
  assert (L3 : laid h3 (length h1) (length h2) copy tc).
  { eapply laid_agree; [exact L2|]. intros i Hi. symmetry. apply A3. lia. }
  assert (Lc3 : laid h3 ac bc (VRef lc) tc).
  { eapply laid_agree; [exact Lc1|]. intros i Hi. rewrite A3 by lia. apply A2. lia. }
  exists (set_heap h3 s), copy, lc, tc.
  cbn [heap set_heap usedObjects transformedNodes engine calls].
  split; [done|]. split.
  { split; [|done]. unfold grows. cbn [heap set_heap usedObjects transformedNodes].
    split; [|split; [lia|done]].
    intros i Hi. rewrite A3 by lia. rewrite <- A2 by lia. by apply A1. }
  split; [done|]. split; [by eapply laid_reify_store|]. split.
  { apply (located_site_body _ l la lcb). apply (located_replace _ _ _ _ body_v).
    eapply located_agree; [|exact Hloc]. eapply agree_on_sub; [exact A2|lia|lia]. }
  split; [by eapply laid_reify_store|]. split; [by eapply laid_reify_store|]. split.
  - intros l' Hr. pose proof (laid_reach _ _ _ _ _ _ L3 Hr). lia.
  - intros l' Hr. pose proof (laid_reach _ _ _ _ _ _ Lc3 Hr). lia.
Qed.

(** The first occurrence of a fingerprint: the body is transformed for the
    file of this site, and a copy that shares nothing with it is cached. *)
Lemma visit_miss site body (s : state EngineState) :
  cache_ok s -> excluded resolve exclude (fst site) = Ok false ->
  tracked (snd site) body -> tsize (snd site) <= fuel ->
  fingerprint_of body ∉ usedObjects s ->
  exists s' body_v lc tc ext,
    snd (visit_site site s) = (Ok tt, s') /\
    (grows s s' /\ cache_ok s' /\ usedObjects s' = usedObjects s ++ [fingerprint_of body]) /\
    (calls s' = calls s ++ ext /\
     Forall (fun c => call_file c = path_or_empty (fst site) /\ call_modular c = isModular) ext) /\
    site_body (heap s') (fst (visit_site site s)) = Ok body_v /\
    transformedNodes s' !! fingerprint_of body = Some (VRef lc) /\
    reify_store (heap s') body_v = Some tc /\
    reify_store (heap s') (VRef lc) = Some tc /\
    (forall l', reach (heap s') (VRef lc) l' -> ~ reach (heap s') body_v l').
Proof.
  intros Hok Hx Ht Hfuel Hu.
  assert (Hnode : is_node body)
    by (by destruct Ht as (? & ? & ? & ? & ? & _ & _ & _ & _ & _ & _ & _ & _ & ?)).
  unfold visit. destruct (alloc (snd site) (heap s)) as [node h1] eqn:Ea. cbn [fst snd].
  destruct (alloc_laid _ _ _ _ Ea) as [P1 L1].
  pose proof (alloc_length _ _ _ _ Ea) as Hlen1.
  destruct (alloc_closed _ _ _ _ Ea) as [Hcl _].
  assert (A1 : agree_on 0 (length (heap s)) (heap s) h1)
    by (by apply agree_on_sym, agree_on_prefix).
  destruct (CallExpression_tracked alchemyProcessing generatesHashingHex resolve exclude
              isModular fuel _ _ node (snd site) body (fst site) (set_heap h1 s) Hx L1 Ht)
    as (l & la & lcb & body_v & ab & bb & -> & Hb & Hloc & Lb & Hab & Hbb & E).
  pose proof (laid_range _ _ _ _ _ Lb) as Hrb.
  pose proof Hloc as (_ & _ & _ & Hlt).
  cbn [heap set_heap] in Hb, Hab, Hlt.
  destruct (cache_protocol_miss alchemyProcessing isModular fuel (set_heap h1 s) (fst site)
              (length (heap s)) l la lcb (fingerprint_of body) body_v ab bb body)
    as (s2 & tc & Hstep & L2 & Ep); [done|done|done|done|done|done|lia|].
  rewrite E. unfold try_catch. rewrite Ep. clear E Ep.
  destruct Hstep as [Hshape Hframe Hused Hnodes (ext & Hcalls & Hext)].
  cbn [heap set_heap usedObjects transformedNodes engine calls] in *.
  pose proof (same_shape_length _ _ Hshape) as Hlen2.
  destruct (alloc tc (heap s2)) as [copy h3] eqn:Ec. cbn [fst snd].
  destruct (alloc_laid _ _ _ _ Ec) as [P3 L3].
  pose proof (prefix_length _ _ P3) as Hlen3.
  assert (A3 : agree_on 0 (length (heap s2)) (heap s2) h3)
    by (by apply agree_on_sym, agree_on_prefix).
  destruct (laid_node_inv _ _ _ _ _ Lb Hnode) as (lb & -> & ->).
  pose proof (laid_ref_node _ _ _ _ _ L2) as Hnode2.
  destruct (laid_node_inv _ _ _ _ _ L3 Hnode2) as (lc & -> & Hlc).
  assert (L2' : laid h3 ab (S lb) (VRef lb) tc).
  { eapply laid_agree; [exact L2|]. eapply agree_on_sub; [exact A3|lia|lia]. }
  assert (G : grows s (State h3 (usedObjects s2 ++ [fingerprint_of body])
                         (<[fingerprint_of body := VRef lc]> (transformedNodes s2))
                         (engine s2) (calls s2) (console s2))).
  { unfold grows. cbn [heap usedObjects transformedNodes]. split; [|split; [lia|]].
    - intros i Hi. rewrite <- A3 by lia. rewrite Hframe by lia. by apply A1.
    - intros f Hf. rewrite Hused, Hnodes. split; [apply elem_of_app; by left|].
      apply lookup_insert_ne. by intros <-. }
  eexists _, (VRef lb), lc, tc, ext. split; [reflexivity|].
  cbn [heap usedObjects transformedNodes calls].
  split; [split; [done|split; [|by rewrite Hused]]|].
  { eapply cache_ok_grows; [exact Hok|exact G|]. cbn [heap usedObjects transformedNodes].
    intros f Hf. apply elem_of_app in Hf as [Hf|Hf]; [left; by rewrite <- Hused|right].
    apply list_elem_of_singleton in Hf as ->. exists lc, tc, (length (heap s2)), (length h3).
    split; [apply lookup_insert_eq|done]. }
  split; [done|]. split.
  { apply (located_site_body _ l la lcb).
    eapply located_agree; [|eapply located_shape; [exact Hshape|exact Hloc]].
    eapply agree_on_sub; [exact A3|lia|lia]. }
  split; [apply lookup_insert_eq|]. split; [by eapply laid_reify_store|].
  split; [by eapply laid_reify_store|].
  intros l' Hr1 Hr2.
  pose proof (laid_reach _ _ _ _ _ _ L3 Hr1). pose proof (laid_reach _ _ _ _ _ _ L2' Hr2). lia.
Qed.

(** *** The sites of a run, one after the other *)

Lemma visit_admissible site (s : state EngineState) :
  cache_ok s -> admissible resolve exclude fuel site ->
  grows s (snd (snd (visit_site site s))) /\ cache_ok (snd (snd (visit_site site s))).
Proof.
  intros Hok Ha.
  assert (Hskip : excluded resolve exclude (fst site) <> Ok false \/ untracked (snd site) ->
                  grows s (snd (snd (visit_site site s))) /\
                  cache_ok (snd (snd (visit_site site s)))).
  { intros Hs. destruct (visit_skipped site s Hs) as (s' & -> & G & Hu & Hn & _).
    cbn [snd]. split; [done|]. eapply cache_ok_grows; [exact Hok|exact G|].
    intros f Hf. left. by rewrite <- Hu. }
  destruct Ha as [Hx|[Hu|(body & Ht & Hfuel)]]; [by apply Hskip; left|by apply Hskip; right|].
  assert (Hd : excluded resolve exclude (fst site) = Ok false \/
               excluded resolve exclude (fst site) <> Ok false)
    by (destruct (excluded resolve exclude (fst site)) as [[|]| |]; auto).
  destruct Hd as [Hx|Hx]; [|by apply Hskip; left].
  destruct (decide (fingerprint_of body ∈ usedObjects s)) as [Hin|Hin].
  - destruct (visit_hit site body s Hok Hx Ht Hin)
      as (s' & copy & lc & tc & -> & (G & Hu & Hn & _) & _).
    cbn [snd]. split; [done|]. eapply cache_ok_grows; [exact Hok|exact G|].
    intros f Hf. left. by rewrite <- Hu.
  - by destruct (visit_miss site body s Hok Hx Ht Hfuel Hin)
      as (s' & body_v & lc & tc & ext & -> & (G & Hok' & _) & _).
Qed.

Lemma run_cons site sites (s : state EngineState) :
  run_sites (site :: sites) s = run_sites sites (snd (snd (visit_site site s))).
Proof. done. Qed.

Lemma run_admissible sites (s : state EngineState) :
  Forall (admissible resolve exclude fuel) sites -> cache_ok s ->
  grows s (run_sites sites s) /\ cache_ok (run_sites sites s).
Proof.
  intros Ha. revert s. induction Ha as [|site sites Hsite _ IH]; intros s Hok.
  - split; [apply grows_refl|done].
  - rewrite run_cons. destruct (visit_admissible site s Hok Hsite) as [G1 Hok1].
    destruct (IH _ Hok1) as [G2 Hok2]. split; [|done]. by eapply grows_trans.
Qed.

End RunFacts.

(** *** The occurrences of one fingerprint *)

Section Occurrences.
Context {EngineState : Type}.
Variable alchemyProcessing : call -> EngineState -> option string * EngineState.
Variable generatesHashingHex : string -> bool -> bool -> string.
Variable resolve : string -> string.
Variables exclude isModular : tree.
Variable fuel : nat.

Abbreviation visit_at := (visit alchemyProcessing generatesHashingHex resolve
                            exclude isModular fuel).
Abbreviation run_of := (run alchemyProcessing generatesHashingHex resolve
                          exclude isModular fuel).
Abbreviation occurrence_of := (occurrence generatesHashingHex resolve exclude fuel).

Lemma cache_ok_initial (e : EngineState) h : cache_ok (initial_state e h).
Proof. intros f Hf. by apply elem_of_nil in Hf. Qed.

Lemma occurrence_admissible f site :
  occurrence_of f site -> admissible resolve exclude fuel site.
Proof. intros (_ & body & Ht & _ & Hfuel). right. right. eauto. Qed.

(** The first occurrence. *)
Lemma first_occurrence f first (s : state EngineState) :
  cache_ok s -> f ∉ usedObjects s -> occurrence_of f first ->
  exists body_v lc tc ext,
    fst (snd (visit_at first s)) = Ok tt /\
    cache_ok (snd (snd (visit_at first s))) /\
    calls (snd (snd (visit_at first s))) = calls s ++ ext /\
    Forall (fun c => call_file c = path_or_empty (fst first) /\ call_modular c = isModular) ext /\
    site_body (heap (snd (snd (visit_at first s)))) (fst (visit_at first s)) = Ok body_v /\
    reify_store (heap (snd (snd (visit_at first s)))) body_v = Some tc /\
    forall s2, grows (snd (snd (visit_at first s))) s2 ->
      f ∈ usedObjects s2 /\ transformedNodes s2 !! f = Some (VRef lc) /\
      reify_store (heap s2) (VRef lc) = Some tc.
Proof.
  intros Hok Hf (Hx & body & Ht & <- & Hfuel).
  destruct (visit_miss alchemyProcessing generatesHashingHex resolve exclude isModular fuel
              first body s Hok Hx Ht Hfuel Hf)
    as (s' & body_v & lc & tc & ext & E & (G & Hok' & Hu) & (Hc & Hext) & Hb & Hn & Hr1 & Hr2 & _).
  exists body_v, lc, tc, ext. rewrite E. cbn [fst snd].
  split; [done|]. split; [done|]. split; [done|]. split; [done|]. split; [done|].
  split; [done|]. intros s2 (A & _ & U).
  assert (Hin : fingerprint generatesHashingHex (to_json body) ∈ usedObjects s')
    by (rewrite Hu; apply elem_of_app; right; by apply list_elem_of_singleton).
  destruct (U _ Hin) as [Hin2 E2]. split; [done|]. split; [congruence|].
  destruct (Hok' _ Hin) as (lc' & tc' & a & b & Hn' & L).
  assert (lc' = lc) as -> by congruence.
  assert (tc' = tc) as -> by (apply laid_reify_store in L; congruence).
  eapply laid_reify_store, laid_agree; [exact L|].
  eapply agree_on_sub; [exact A|lia|]. by destruct (laid_ref_bound _ _ _ _ _ L) as (_ & _ & ?).
Qed.

(** A later occurrence. *)
Lemma later_occurrence f later (s : state EngineState) lc tc :
  cache_ok s -> f ∈ usedObjects s -> transformedNodes s !! f = Some (VRef lc) ->
  reify_store (heap s) (VRef lc) = Some tc -> occurrence_of f later ->
  exists copy,
    fst (snd (visit_at later s)) = Ok tt /\
    cache_ok (snd (snd (visit_at later s))) /\
    usedObjects (snd (snd (visit_at later s))) = usedObjects s /\
    transformedNodes (snd (snd (visit_at later s))) = transformedNodes s /\
    engine (snd (snd (visit_at later s))) = engine s /\
    calls (snd (snd (visit_at later s))) = calls s /\
    site_body (heap (snd (snd (visit_at later s)))) (fst (visit_at later s)) = Ok copy /\
    reify_store (heap (snd (snd (visit_at later s)))) copy = Some tc /\
    reify_store (heap (snd (snd (visit_at later s)))) (VRef lc) = Some tc /\
    (forall l, reach (heap (snd (snd (visit_at later s)))) copy l ->
               length (heap s) + tsize (snd later) <= l) /\
    (forall l, reach (heap (snd (snd (visit_at later s)))) (VRef lc) l -> l < length (heap s)).
Proof.
  intros Hok Hf Hn Hr (Hx & body & Ht & <- & Hfuel).
  destruct (visit_hit alchemyProcessing generatesHashingHex resolve exclude isModular fuel
              later body s Hok Hx Ht Hf)
    as (s' & copy & lc' & tc' & E & (G & Hu & Hn' & He & Hc) & Hn2 & Hr' & Hb & Hr1 & Hr2 & F1 & F2).
  assert (lc' = lc) as -> by congruence.
  assert (tc' = tc) as -> by congruence.
  exists copy. rewrite E. cbn [fst snd]. split; [done|]. split; [|done].
  eapply cache_ok_grows; [exact Hok|exact G|]. intros g Hg. left. by rewrite <- Hu.
Qed.

(** Occurrences of a fingerprint in use, one after the other: the engine
    is not called. *)
Lemma run_occurrences f others (s : state EngineState) :
  cache_ok s -> f ∈ usedObjects s -> Forall (occurrence_of f) others ->
  calls (run_of others s) = calls s /\ engine (run_of others s) = engine s.
Proof.
  intros Hok Hf Ho. revert s Hok Hf.
  induction Ho as [|site others Hsite _ IH]; intros s Hok Hf; [done|].
  destruct (Hok f Hf) as (lc & tc & a & b & Hn & L).
  destruct (later_occurrence f site s lc tc Hok Hf Hn (laid_reify_store _ _ _ _ _ L) Hsite)
    as (copy & _ & Hok' & Hu & _ & He & Hc & _).
  change (run_of (site :: others) s) with (run_of others (snd (snd (visit_at site s)))).
  destruct (IH _ Hok') as [Hc' He']; [by rewrite Hu|]. split; congruence.
Qed.

End Occurrences.

(** ** The cache over a run *)


(** C3.  Cache pinning.  A process starts with an empty cache and [first] is
    the first occurrence of the fingerprint [f] in a run.  The engine calls
    made at [first] all carry the file of [first] (and the flag of the
    configuration).  A later occurrence of [f], in whatever file and
    whatever the sites in between, makes no engine call, and the body of its
    callback then reads as the same tree as the transformed body of
    [first]: the tokens are those of the first occurrence, and two later
    occurrences in two files get the same ones. *)
Theorem C3_cache_pinning {EngineState : Type}
    (alchemyProcessing : call -> EngineState -> option string * EngineState)
    (generatesHashingHex : string -> bool -> bool -> string)
    (resolve : string -> string) (exclude isModular : tree) (fuel : nat)
    (e : EngineState) (h0 : list obj) (f : string)
    (before : list (option string * tree)) (first : option string * tree) :
  let run := run alchemyProcessing generatesHashingHex resolve exclude isModular fuel in
  let after := after alchemyProcessing generatesHashingHex resolve exclude isModular fuel in
  let node_at := node_at alchemyProcessing generatesHashingHex resolve exclude isModular fuel in
  let s1 := run before (initial_state e h0) in
  Forall (admissible resolve exclude fuel) before ->
  f ∉ usedObjects s1 ->
  occurrence generatesHashingHex resolve exclude fuel f first ->
  exists ext body1 tokens,
    calls (after first s1) = calls s1 ++ ext /\
    Forall (fun c => call_file c = path_or_empty (fst first) /\ call_modular c = isModular) ext /\
    site_body (heap (after first s1)) (node_at first s1) = Ok body1 /\
    reify_store (heap (after first s1)) body1 = Some tokens /\
    forall between later,
      Forall (admissible resolve exclude fuel) between ->
      occurrence generatesHashingHex resolve exclude fuel f later ->
      let s2 := run between (after first s1) in
      calls (after later s2) = calls s2 /\
      exists body2,
        site_body (heap (after later s2)) (node_at later s2) = Ok body2 /\
        reify_store (heap (after later s2)) body2 = Some tokens.
Proof.
  intros run0 after0 node0 s1 Hbefore Hf Hfirst.
  destruct (run_admissible alchemyProcessing generatesHashingHex resolve exclude isModular fuel
              before (initial_state e h0) Hbefore (cache_ok_initial e h0)) as [_ Hok1].
  destruct (first_occurrence alchemyProcessing generatesHashingHex resolve exclude isModular fuel
              f first s1 Hok1 Hf Hfirst)
    as (body1 & lc & tc & ext & _ & Hok1' & Hc1 & Hext & Hb1 & Hr1 & Hpin).
  exists ext, body1, tc. split; [exact Hc1|]. split; [exact Hext|].
  split; [exact Hb1|]. split; [exact Hr1|].
  intros between later Hbetween Hlater s2.
  destruct (run_admissible alchemyProcessing generatesHashingHex resolve exclude isModular fuel
              between (after0 first s1) Hbetween Hok1') as [G Hok2].
  destruct (Hpin s2 G) as (Hin2 & Hn2 & Hr2).
  destruct (later_occurrence alchemyProcessing generatesHashingHex resolve exclude isModular fuel
              f later s2 lc tc Hok2 Hin2 Hn2 Hr2 Hlater)
    as (copy & _ & _ & _ & _ & _ & Hc & Hb2 & Hrc & _).
  split; [exact Hc|]. exists copy. split; [exact Hb2|exact Hrc].
Qed.

(** *** Three files *)

Lemma tracked_craftingStyles body rest :
  is_node body ->
  tracked (callExpression "craftingStyles" (arrowFunctionExpression body :: rest)) body.
Proof.
  intros Hn. unfold callExpression, arrowFunctionExpression, identifier, node.
  eexists _, _, _, _, _. split; [reflexivity|]. split; [reflexivity|].
  split; [reflexivity|]. split; [reflexivity|]. split; [reflexivity|].
  split; [reflexivity|]. split; [by right|]. split; [reflexivity|done].
Qed.

Lemma styles_call_occurrence file :
  excluded (resolve_in "/app") (TArr [TStr "tests"]) file = Ok false ->
  occurrence hash_identity (resolve_in "/app") (TArr [TStr "tests"]) 100
             scenario_fingerprint (file, styles_call).
Proof.
  intros Hx. split; [exact Hx|]. exists scenario.
  split; [by apply tracked_craftingStyles|]. split; [reflexivity|]. vm_compute. lia.
Qed.

Lemma other_site_admissible :
  admissible (resolve_in "/app") (TArr [TStr "tests"]) 100 other_site.
Proof.
  right. left. unfold other_site, callExpression, node. eexists. split; [reflexivity|].
  vm_compute. reflexivity.
Qed.

Lemma C3_cache_pinning_witness :
  let run := run engine_concat hash_identity (resolve_in "/app") (TArr [TStr "tests"])
                 (TBool false) 100 in
  let after := after engine_concat hash_identity (resolve_in "/app") (TArr [TStr "tests"])
                     (TBool false) 100 in
  let node_at := node_at engine_concat hash_identity (resolve_in "/app") (TArr [TStr "tests"])
                         (TBool false) 100 in
  let s1 := run [other_site] (initial_state tt []) in
  exists ext body1 tokens,
    calls (after first_site s1) = calls s1 ++ ext /\
    Forall (fun c => call_file c = path_or_empty (fst first_site) /\
                     call_modular c = TBool false) ext /\
    site_body (heap (after first_site s1)) (node_at first_site s1) = Ok body1 /\
    reify_store (heap (after first_site s1)) body1 = Some tokens /\
    forall between later,
      Forall (admissible (resolve_in "/app") (TArr [TStr "tests"]) 100) between ->
      occurrence hash_identity (resolve_in "/app") (TArr [TStr "tests"]) 100
                 scenario_fingerprint later ->
      let s2 := run between (after first_site s1) in
      calls (after later s2) = calls s2 /\
      exists body2,
        site_body (heap (after later s2)) (node_at later s2) = Ok body2 /\
        reify_store (heap (after later s2)) body2 = Some tokens.
Proof.
  refine (C3_cache_pinning engine_concat hash_identity (resolve_in "/app")
            (TArr [TStr "tests"]) (TBool false) 100 tt [] scenario_fingerprint
            [other_site] first_site _ _ _).
  - constructor; [apply other_site_admissible|constructor].
  - vm_compute. apply not_elem_of_nil.
  - apply styles_call_occurrence. vm_compute. reflexivity.
Defined.

(** The run over the three files, computed: the engine is called twice,
    both times for the first file, and the later file has the tokens of the
    first. *)
Lemma three_files_run :
  let run := run engine_concat hash_identity (resolve_in "/app") (TArr [TStr "tests"])
                 (TBool false) 100 in
  let s2 := run [first_site; other_site] (initial_state tt []) in
  let s3 := run [first_site; other_site; later_site] (initial_state tt []) in
  calls s3 = [Call (VStr "bgd") (json_quote "red") (TBool false) "/app/src/a.js"
                   (VStr EmptyString);
              Call (VStr "color") (json_quote "blue") (TBool false) "/app/src/a.js"
                   (VStr "Hover")] /\
  match site_body (heap s3)
          (node_at engine_concat hash_identity (resolve_in "/app") (TArr [TStr "tests"])
                   (TBool false) 100 later_site s2) with
  | Ok body => reify_store (heap s3) body
  | _ => None
  end = Some scenario_transformed.
Proof. vm_compute. split; reflexivity. Qed.

(** ** The run-time function *)

Lemma append_nil_r s : s +:+ EmptyString = s.
Proof.
  induction s as [|c s IH]; [done|].
  change (String c (s +:+ EmptyString) = String c s). by rewrite IH.
Qed.

Lemma append_assoc a b c : (a +:+ b) +:+ c = a +:+ (b +:+ c).
Proof.
  induction a as [|x a IH]; [done|].
  change (String x ((a +:+ b) +:+ c) = String x (a +:+ (b +:+ c))). by rewrite IH.
Qed.

Lemma trim_start_length s : String.length (trim_start s) <= String.length s.
Proof.
  induction s as [|c s IH]; [done|]. cbn [trim_start].
  destruct (is_whitespace c); cbn [String.length]; lia.
Qed.

Lemma trim_end_length s : String.length (trim_end s) <= String.length s.
Proof.
  induction s as [|c s IH]; [done|]. cbn [trim_end].
  destruct (trim_end s) as [|d r]; [destruct (is_whitespace c)|]; cbn [String.length] in *; lia.
Qed.

Lemma trim_end_space s : trim_end (s +:+ " ") = trim_end s.
Proof.
  induction s as [|c s IH]; [done|].
  change (String c s +:+ " ") with (String c (s +:+ " ")). cbn [trim_end]. by rewrite IH.
Qed.

Lemma trim_start_keeps t u :
  trim_start t = t -> t <> EmptyString -> trim_start (t +:+ u) = t +:+ u.
Proof.
  destruct t as [|c t]; [done|]. intros E _.
  change (String c t +:+ u) with (String c (t +:+ u)). cbn [trim_start] in *.
  destruct (is_whitespace c); [|done].
  pose proof (trim_start_length t) as H. rewrite E in H. cbn [String.length] in H. lia.
Qed.

Lemma trim_end_keeps u t :
  trim_end t = t -> t <> EmptyString -> trim_end (u +:+ t) = u +:+ t.
Proof.
  intros E Ht. induction u as [|c u IH]; [done|].
  change (String c u +:+ t) with (String c (u +:+ t)). cbn [trim_end]. rewrite IH.
  destruct (u +:+ t) eqn:Eu; [|done]. by destruct u, t.
Qed.

Lemma clean_ends t : clean t -> trim_start t = t /\ trim_end t = t.
Proof.
  intros [Ht E]. unfold trim in E.
  assert (E1 : trim_start t = t).
  { destruct t as [|c t]; [done|]. cbn [trim_start] in *.
    destruct (is_whitespace c); [|done].
    pose proof (trim_end_length (trim_start t)) as H1.
    pose proof (trim_start_length t) as H2. rewrite E in H1. cbn [String.length] in H1. lia. }
  split; [done|]. by rewrite E1 in E.
Qed.

Lemma spaced_app l1 l2 : spaced (l1 ++ l2) = spaced l1 +:+ spaced l2.
Proof.
  induction l1 as [|t l1 IH]; [done|].
  change (t +:+ " " +:+ spaced (l1 ++ l2) = (t +:+ " " +:+ spaced l1) +:+ spaced l2).
  by rewrite IH, !append_assoc.
Qed.

Section ClassNamesFacts.
Variable number_to_string : Z -> string.

Lemma append_all_spaced values acc :
  append_all number_to_string values acc
  = (acc +:+ spaced (texts_until_throw number_to_string values),
     negb (length (texts_until_throw number_to_string values) =? length values)).
Proof.
  revert acc. induction values as [|v values IH]; intros acc; cbn [append_all texts_until_throw].
  - change (spaced []) with EmptyString. by rewrite append_nil_r.
  - destruct (js_to_string number_to_string v) as [text|].
    + rewrite IH.
      change (spaced (text :: texts_until_throw number_to_string values))
        with (text +:+ " " +:+ spaced (texts_until_throw number_to_string values)).
      by rewrite !append_assoc.
    + change (spaced []) with EmptyString. by rewrite append_nil_r.
Qed.

Lemma texts_until_throw_app l1 l2 :
  texts_until_throw number_to_string (l1 ++ l2)
  = if length (texts_until_throw number_to_string l1) =? length l1
    then texts_until_throw number_to_string l1 ++ texts_until_throw number_to_string l2
    else texts_until_throw number_to_string l1.
Proof.
  induction l1 as [|v l1 IH]; [done|]. cbn [app texts_until_throw].
  destruct (js_to_string number_to_string v) as [text|]; [|done].
  cbn [length]. rewrite IH.
  change (S (length (texts_until_throw number_to_string l1)) =? S (length l1))
    with (length (texts_until_throw number_to_string l1) =? length l1).
  by destruct (length (texts_until_throw number_to_string l1) =? length l1).
Qed.

Lemma append_classes_spaced values acc :
  fst (append_classes number_to_string values acc)
  = acc +:+ spaced (texts_until_throw number_to_string
                      (flat_map (fun value => if typeof_object_tree value
                                              then for_in_values value else [value]) values)).
Proof.
  revert acc. induction values as [|v values IH]; intros acc; cbn [append_classes flat_map].
  - change (spaced []) with EmptyString. by rewrite append_nil_r.
  - set (inner := if typeof_object_tree v then for_in_values v else [v]).
    replace (if typeof_object_tree v
             then append_all number_to_string (for_in_values v) acc
             else append_all number_to_string [v] acc)
      with (append_all number_to_string inner acc) by (unfold inner; by destruct (typeof_object_tree v)).
    rewrite append_all_spaced, texts_until_throw_app.
    destruct (length (texts_until_throw number_to_string inner) =? length inner);
      cbn [negb fst]; [|done].
    by rewrite IH, spaced_app, append_assoc.
Qed.

Lemma transformIntoClassNames_spaced classes :
  transformIntoClassNames number_to_string classes
  = trim (spaced (class_texts number_to_string classes)).
Proof.
  unfold transformIntoClassNames, class_texts, class_values.
  by rewrite append_classes_spaced.
Qed.

End ClassNamesFacts.

Lemma spaced_join texts :
  texts <> [] -> spaced texts = join " " texts +:+ " ".
Proof.
  induction texts as [|t [|t' texts] IH]; [done| |]; intros _.
  - done.
  - change (spaced (t :: t' :: texts)) with (t +:+ " " +:+ spaced (t' :: texts)).
    rewrite IH by done. change (join " " (t :: t' :: texts)) with (t +:+ " " +:+ join " " (t' :: texts)).
    by rewrite !append_assoc.
Qed.

Lemma join_ends texts :
  texts <> [] -> Forall clean texts ->
  (exists t u, clean t /\ join " " texts = t +:+ u) /\
  (exists u t, clean t /\ join " " texts = u +:+ t).
Proof.
  induction texts as [|t [|t' texts] IH]; [done| |]; intros _ F.
  - inversion F; subst. split; [exists t, EmptyString|exists EmptyString, t];
      (split; [done|]); cbn [join]; by rewrite ?append_nil_r.
  - inversion F as [|? ? Ht F']; subst.
    destruct IH as [_ (u & tl & Htl & E)]; [done|done|].
    change (join " " (t :: t' :: texts)) with (t +:+ " " +:+ join " " (t' :: texts)).
    split; [by exists t, (" " +:+ join " " (t' :: texts))|].
    exists (t +:+ " " +:+ u), tl. split; [done|]. by rewrite E, !append_assoc.
Qed.

Lemma transformIntoClassNames_joins (number_to_string : Z -> string) (classes : tree) :
  Forall clean (class_texts number_to_string classes) ->
  transformIntoClassNames number_to_string classes
  = join " " (class_texts number_to_string classes).
Proof.
  intros F. rewrite transformIntoClassNames_spaced.
  destruct (class_texts number_to_string classes) as [|t texts] eqn:E; [done|].
  rewrite spaced_join by done.
  destruct (join_ends (t :: texts)) as [(t1 & u1 & H1 & E1) (u2 & t2 & H2 & E2)]; [done|done|].
  unfold trim.
  destruct (clean_ends _ H1) as [S1 _]. destruct (clean_ends _ H2) as [_ S2].
  rewrite E1 at 1. rewrite append_assoc, trim_start_keeps by (done || apply H1).
  rewrite <- append_assoc, <- E1, trim_end_space, E2.
  apply trim_end_keeps; [done|apply H2].
Qed.

(** X1.  [craftingStyles] gives the class names separated by one space.
    The callback returns [classes]; the values the two loops go through are
    the values of [classes] that are no objects and, for a value that is an
    object, the values it holds, one level down, in order.  Their texts are
    put together up to the first value that cannot be converted to a string
    (an object with a [toString] of its own that is no function): the
    exception ends the loops and is dropped.  When each of these texts has
    something in it and no white space at its ends, the result is these
    texts in order with one space between two of them: nothing before the
    first, nothing after the last.  With no text at all (a number, [undefined],
    an empty object, an object of empty or [null] groups, a first value that
    cannot be converted) the result is the empty string. *)
Theorem craftingStyles_joins (number_to_string : Z -> string)
    (callback : unit -> res tree) (classes : tree) :
  callback tt = Ok classes ->
  Forall clean (class_texts number_to_string classes) ->
  craftingStyles number_to_string callback
  = Ok (join " " (class_texts number_to_string classes)).
Proof.
  intros E F. unfold craftingStyles. rewrite E. f_equal. by apply transformIntoClassNames_joins.
Qed.

Lemma craftingStyles_joins_witness :
  craftingStyles pretty
    (fun _ => Ok (TObj [("bgd", TStr "a1");
                        ("Hover", TObj [("color", TStr "b2"); ("pdg", TStr "c3")]);
                        ("Empty", TNull); ("wd", TNum 4);
                        ("Focus", TObj [("n", TObj [("toString", TStr "x")])]);
                        ("z", TStr "q")]))
  = Ok (join " " (class_texts pretty
      (TObj [("bgd", TStr "a1"); ("Hover", TObj [("color", TStr "b2"); ("pdg", TStr "c3")]);
             ("Empty", TNull); ("wd", TNum 4);
             ("Focus", TObj [("n", TObj [("toString", TStr "x")])]);
             ("z", TStr "q")]))).
Proof.
  refine (craftingStyles_joins pretty _ _ eq_refl _).
  change (Forall clean ["a1"; "b2"; "c3"; "4"]).
  repeat (apply List.Forall_cons; [split; [discriminate|vm_compute; reflexivity]|]).
  apply List.Forall_nil.
Defined.

Lemma trim_start_idem s : trim_start (trim_start s) = trim_start s.
Proof.
  induction s as [|c s IH]; [done|]. cbn [trim_start].
  destruct (is_whitespace c) eqn:E; [done|]. cbn [trim_start]. by rewrite E.
Qed.

Lemma trim_end_idem s : trim_end (trim_end s) = trim_end s.
Proof.
  induction s as [|c s IH]; [done|]. cbn [trim_end].
  destruct (trim_end s) as [|d r] eqn:E.
  - destruct (is_whitespace c) eqn:Ec; [done|]. cbn [trim_end]. by rewrite Ec.
  - cbn [trim_end] in *. rewrite IH. done.
Qed.

Lemma trim_start_trim_end u : trim_start u = u -> trim_start (trim_end u) = trim_end u.
Proof.
  destruct u as [|c u]; [done|]. cbn [trim_start trim_end].
  destruct (is_whitespace c) eqn:E.
  - intros H. pose proof (trim_start_length u) as L. rewrite H in L.
    cbn [String.length] in L. lia.
  - intros _. destruct (trim_end u); cbn [trim_start]; by rewrite E.
Qed.

Lemma trim_idem s : trim (trim s) = trim s.
Proof.
  unfold trim. rewrite (trim_start_trim_end (trim_start s)) by apply trim_start_idem.
  apply trim_end_idem.
Qed.

(** X3.  Whatever it is given, [transformIntoClassNames] returns a string
    without white space at its ends. *)
Theorem transformIntoClassNames_trimmed (number_to_string : Z -> string) (classes : tree) :
  trim (transformIntoClassNames number_to_string classes)
  = transformIntoClassNames number_to_string classes.
Proof. apply trim_idem. Qed.

(** ** More on the visitor *)

(** X4.  What the visitor passes over.  In a file that is not excluded, at
    a call of another function, at a call of [craftingStyles] without
    argument and at a call of [craftingStyles] whose first argument is not an
    inline function, the visitor returns and leaves the state as it is:
    nothing is hashed, walked, cached or written to the console. *)
Theorem CallExpression_passes_over {EngineState : Type}
    (alchemyProcessing : call -> EngineState -> option string * EngineState)
    (generatesHashingHex : string -> bool -> bool -> string)
    (resolve : string -> string) (exclude isModular : tree) (fuel : nat)
    (a b : nat) (node : val) (site : tree) (filename : option string)
    (s : state EngineState) :
  excluded resolve exclude filename = Ok false ->
  laid (heap s) a b node site -> passed_over site ->
  CallExpression alchemyProcessing generatesHashingHex resolve exclude isModular fuel
                 node filename s = (Ok tt, s).
Proof.
  intros Hx L [(fs & -> & Hu)|(fs & cfs & -> & Hcallee & Hty & Hname & Hargs)].
  - destruct (laid_node_inv _ _ _ _ _ L I) as (l & -> & ->).
    destruct (laid_get_field _ _ _ _ _ "callee" L) as (vc & ac & bc & Hc & Lc & _).
    unfold CallExpression, try_catch, bind, get, read. rewrite Hx. cbn [get_path heap].
    rewrite Hc. unfold type_is. by rewrite !(laid_field_is _ _ _ _ _ _ _ Lc), Hu.
  - destruct (laid_node_inv _ _ _ _ _ L I) as (l & -> & ->).
    destruct (laid_get_field_some _ _ _ _ _ _ _ L Hcallee) as (vc & ac & bc & Hc & Lc & _).
    unfold CallExpression, try_catch, bind, get, read. rewrite Hx. cbn [get_path heap fst snd].
    rewrite Hc. unfold type_is.
    rewrite !(laid_field_is _ _ _ _ _ _ _ Lc). unfold tree_field_is, tree_field.
    rewrite Hty, Hname. cbn [String.eqb Ascii.eqb Bool.eqb andb negb].
    destruct Hargs as [Hargs|(afs & rest & ty & Hargs & Haty & Hne1 & Hne2)].
    + destruct (laid_get_field_some _ _ _ _ _ _ _ L Hargs) as (va & aa & ba & Ha & La & _).
      destruct (laid_node_inv _ _ _ _ _ La I) as (la & -> & ->).
      inversion La as [| | | | | |? ? vs ? Lvs Hla]; subst. inversion Lvs; subst.
      rewrite Ha, (get_index_arr _ _ _ _ Hla). done.
    + destruct (laid_get_field_some _ _ _ _ _ _ _ L Hargs) as (va & aa & ba & Ha & La & _).
      destruct (laid_node_inv _ _ _ _ _ La I) as (la & -> & ->).
      destruct (laid_get_index _ _ _ _ _ 0 _ La eq_refl) as (vcb & acb & bcb & Hcb & Lcb & _).
      destruct (laid_node_inv _ _ _ _ _ Lcb I) as (lcb & -> & ->).
      destruct (laid_get_field_some _ _ _ _ _ _ _ Lcb Haty) as (vty & ? & ? & Hvty & Lty & _).
      apply laid_str_inv in Lty as ->.
      rewrite Ha, Hcb. cbn [truthy negb]. rewrite Hvty.
      rewrite !bool_decide_eq_false_2 by congruence. done.
Qed.

Lemma CallExpression_passes_over_witness :
  CallExpression engine_concat hash_identity (resolve_in "/app") (TArr [TStr "tests"])
                 (TBool false) 100
                 (fst (alloc (callExpression "craftingStyles" [identifier "styles"]) []))
                 (Some "/app/src/a.js")
                 (initial_state tt (snd (alloc (callExpression "craftingStyles"
                                                               [identifier "styles"]) [])))
  = (Ok tt, initial_state tt (snd (alloc (callExpression "craftingStyles"
                                                         [identifier "styles"]) []))).
Proof.
  refine (CallExpression_passes_over engine_concat hash_identity (resolve_in "/app")
            (TArr [TStr "tests"]) (TBool false) 100 0 _ _
            (callExpression "craftingStyles" [identifier "styles"]) (Some "/app/src/a.js")
            (initial_state tt (snd (alloc (callExpression "craftingStyles"
                                                          [identifier "styles"]) []))) _ _ _).
  - vm_compute. reflexivity.
  - apply (proj2 (alloc_laid (callExpression "craftingStyles" [identifier "styles"]) [] _ _
                    (surjective_pairing _))).
  - right. unfold callExpression, identifier, node. eexists _, _.
    split; [reflexivity|]. split; [reflexivity|]. split; [reflexivity|]. split; [reflexivity|].
    right. eexists _, _, _. split; [reflexivity|]. split; [reflexivity|]. split; discriminate.
Defined.

(** X5.  The exclusion check of the plugin.  A file is excluded when its
    name contains, anywhere, the resolved path of an entry of [exclude]: the
    check is that of a substring, not of a folder.  Code without a file name
    is never excluded, whatever the entries.  An entry that is not a string
    makes the check throw for the files that no entry before it excludes. *)
Theorem excluded_by_substring (resolve : string -> string) :
  (forall entries, excluded resolve (TArr entries) None = Ok false) /\
  (forall names p,
      excluded resolve (TArr (map TStr names)) (Some p)
      = Ok (existsb (fun name => includes p (resolve name)) names)) /\
  (forall names entry rest p,
      (forall name, entry <> TStr name) ->
      excluded resolve (TArr (map TStr names ++ entry :: rest)) (Some p)
      = if existsb (fun name => includes p (resolve name)) names then Ok true
        else Throw (TypeError "the path argument must be of type string")).
Proof.
  split; [|split].
  - intros entries. cbn [excluded]. induction entries as [|e entries IH]; [done|]. done.
  - intros names p. cbn [excluded]. induction names as [|name names IH]; [done|].
    cbn [map some_excluded existsb]. destruct (includes p (resolve name)); [done|]. apply IH.
  - intros names entry rest p Hentry. cbn [excluded].
    induction names as [|name names IH].
    + cbn [map app some_excluded existsb]. destruct entry; try done. by destruct (Hentry s).
    + cbn [map app some_excluded existsb]. destruct (includes p (resolve name)); [done|]. apply IH.
Qed.

Lemma excluded_by_substring_witness :
  excluded (resolve_in "/app") (TArr (map TStr ["tests"] ++ TNum 5 :: [])) (Some "/app/tests.js")
  = if existsb (fun name => includes "/app/tests.js" (resolve_in "/app" name)) ["tests"]
    then Ok true
    else Throw (TypeError "the path argument must be of type string").
Proof.
  refine (proj2 (proj2 (excluded_by_substring (resolve_in "/app"))) ["tests"] (TNum 5) []
            "/app/tests.js" _).
  intros name. discriminate.
Defined.

(** *** The walk on any store *)

(** X6.  What the walk may do, on any store.  Whatever the root, the store
    (a tree or not) and the engine, [walkThroughOutAst] does not throw: it
    pops the nodes in the order of [dfs] on the store it starts from, or it
    does not come to an end within the given number of iterations.  The store
    keeps its shape: every property other than [value] and [cooked] holds
    what it held.  The cache is not touched, and every call of the engine
    carries the file name and the flag the walk was given. *)
Theorem walkThroughOutAst_on_any_store {EngineState : Type}
    (alchemyProcessing : call -> EngineState -> option string * EngineState)
    (isModular : tree) (filePath : option string) (fuel : nat) (root : val)
    (s : state EngineState) :
  exists s',
    walkThroughOutAst alchemyProcessing isModular filePath fuel root s
    = (match dfs fuel (heap s) [root] with Some visited => Ok visited | None => Timeout end, s') /\
    same_shape (heap s) (heap s') /\
    (forall v k, erased_key k = false -> get_field (heap s') v k = get_field (heap s) v k) /\
    usedObjects s' = usedObjects s /\
    transformedNodes s' = transformedNodes s /\
    exists made, calls s' = calls s ++ made /\
                 Forall (fun c => call_file c = path_or_empty filePath /\
                                  call_modular c = isModular) made.
Proof.
  destruct (walk_loop_dfs alchemyProcessing isModular filePath 0 fuel [root] s)
    as (s' & E & [Hshape _ Hused Hnodes Hcalls]);
    [repeat constructor; apply okv_0|apply closed_from_0|].
  exists s'. split.
  { unfold walkThroughOutAst, try_catch. rewrite E. by destruct (dfs fuel (heap s) [root]). }
  split; [done|]. split; [|done].
  intros v k Hk. by apply get_field_shape_other.
Qed.

Lemma dfs_cycle h fuel stack :
  Exists (fun v => exists x, rtc (walk_edge h) v x /\ tc (walk_edge h) x x) stack ->
  dfs fuel h stack = None.
Proof.
  revert stack. induction fuel as [|fuel IH]; intros [|node stack] Hex;
    try (by inversion Hex).
  cbn [dfs]. rewrite IH; [done|]. rewrite push_children_eq. apply Exists_app.
  inversion Hex as [? ? (x & Hr & Hc)|? ? Hin]; subst; [left|by right].
  assert (Hstep : exists c, walk_edge h node c /\ rtc (walk_edge h) c x).
  { apply rtc_inv in Hr as [->|(c & Hc1 & Hc2)]; [|eauto].
    inversion Hc as [? ? H1|? c ? H1 H2]; subst; [by eauto using rtc_refl|].
    exists c. split; [done|]. by apply tc_rtc. }
  destruct Hstep as (c & Hedge & Hcx).
  apply Exists_exists. exists c. split; [|eauto].
  apply list_elem_of_In, in_rev. rewrite rev_involutive. by apply walk_edge_pushed.
Qed.

(** X7.  The walk keeps no record of the nodes it has been to.  When the
    root leads, along the edges the walker follows, to a node that leads
    back to itself, the loop of [walkThroughOutAst] never comes to an end:
    whatever the number of iterations it is given, it has not returned. *)
Theorem walkThroughOutAst_cycle {EngineState : Type}
    (alchemyProcessing : call -> EngineState -> option string * EngineState)
    (isModular : tree) (filePath : option string) (root x : val)
    (s : state EngineState) (fuel : nat) :
  rtc (walk_edge (heap s)) root x -> tc (walk_edge (heap s)) x x ->
  fst (walkThroughOutAst alchemyProcessing isModular filePath fuel root s) = Timeout.
Proof.
  intros Hr Hc.
  destruct (walk_loop_dfs alchemyProcessing isModular filePath 0 fuel [root] s)
    as (s' & E & _); [repeat constructor; apply okv_0|apply closed_from_0|].
  unfold walkThroughOutAst, try_catch. rewrite E.
  rewrite (dfs_cycle (heap s) fuel [root]); [done|]. apply Exists_cons_hd. eauto.
Qed.

Lemma walkThroughOutAst_cycle_witness :
  fst (walkThroughOutAst engine_concat (TBool false) None 1000 (VRef 0)
                         (initial_state tt cyclic_store)) = Timeout.
Proof.
  refine (walkThroughOutAst_cycle engine_concat (TBool false) None (VRef 0) (VRef 0)
            (initial_state tt cyclic_store) 1000 _ _).
  - apply rtc_refl.
  - apply tc_once. split; [|split].
    + vm_compute. apply list_elem_of_In. right. left. reflexivity.
    + by exists 0.
    + intros [H _]. vm_compute in H. discriminate.
Defined.

(** *** What the transformer passes over, and where it fails *)

Lemma property_step_inert {EngineState : Type}
    (alchemyProcessing : call -> EngineState -> option string * EngineState)
    (isModular : tree) (filePath : option string) property (s : state EngineState) :
  inert_property (heap s) property ->
  property_step alchemyProcessing isModular filePath property s = (Ok tt, s).
Proof.
  intros (key & Hkey & H). unfold property_step, bind, get, read. rewrite Hkey.
  destruct (type_is (heap s) key "Identifier") eqn:Hid; cbn [negb]; [|done].
  destruct H as [H|(ty & Hty & H1 & H2 & H3)]; [done|]. rewrite Hty.
  destruct (decide (ty = VStr "StringLiteral")); [done|].
  destruct (decide (ty = VStr "ObjectExpression")); [done|].
  by apply transformTemplateLiteral_other with (ty := ty).
Qed.

(** X8.  What [generatesAlchemy] passes over.  A node that is not an object
    literal is left as it is.  So is an object literal all of whose
    properties have a key that is not an identifier (a quoted or computed
    key, a spread element) or a value that is neither a string literal, nor
    an object literal, nor a template literal (a number, an identifier, a
    call): the engine is not called and nothing is written, neither to the
    store nor to the console. *)
Theorem generatesAlchemy_passes_over {EngineState : Type}
    (alchemyProcessing : call -> EngineState -> option string * EngineState)
    (isModular : tree) (filePath : option string) (node : val) (s : state EngineState) :
  (type_is (heap s) node "ObjectExpression" = false ->
   generatesAlchemy alchemyProcessing isModular filePath node s = (Ok tt, s)) /\
  (forall ps properties,
      type_is (heap s) node "ObjectExpression" = true ->
      get_path (heap s) node ["properties"] = Ok ps ->
      iterate (heap s) ps = Ok properties ->
      Forall (inert_property (heap s)) properties ->
      generatesAlchemy alchemyProcessing isModular filePath node s = (Ok tt, s)).
Proof.
  split.
  - intros Hty. unfold generatesAlchemy, try_catch, bind, read. by rewrite Hty.
  - intros ps properties Hty Hps Hit Hall.
    unfold generatesAlchemy, try_catch, get, read.
    unfold bind at 1. cbn [fst snd]. rewrite Hty. cbn [negb].
    unfold bind at 1. unfold bind at 1. rewrite Hps, Hit.
    assert (E : for_each properties (property_step alchemyProcessing isModular filePath) s
                = (Ok tt, s)).
    { clear Hit. induction Hall as [|p properties Hp _ IH]; [done|].
      cbn [for_each]. unfold bind. by rewrite (property_step_inert _ _ _ _ _ Hp). }
    by rewrite E.
Qed.

Lemma generatesAlchemy_passes_over_witness :
  generatesAlchemy engine_concat (TBool false) None inert_root (initial_state tt inert_store)
  = (Ok tt, initial_state tt inert_store).
Proof.
  refine (proj2 (generatesAlchemy_passes_over engine_concat (TBool false) None inert_root
                   (initial_state tt inert_store))
                (VRef 35) [VRef 14; VRef 26; VRef 34] _ _ _ _).
  - vm_compute. reflexivity.
  - vm_compute. reflexivity.
  - vm_compute. reflexivity.
  - apply List.Forall_cons; [|apply List.Forall_cons; [|apply List.Forall_cons; [|apply List.Forall_nil]]].
    + exists (VRef 9). split; [vm_compute; reflexivity|]. left. vm_compute. reflexivity.
    + exists (VRef 21). split; [vm_compute; reflexivity|]. right.
      exists (VStr "NumericLiteral"). split; [vm_compute; reflexivity|].
      split; [discriminate|]. split; discriminate.
    + exists VUndef. split; [vm_compute; reflexivity|]. left. vm_compute. reflexivity.
Defined.

(** X9.  Where the transformer fails.  A property with an identifier key
    and no value (an object method) makes the step of the loop throw a
    [TypeError].  So does a template literal whose first expression has no
    [consequent] (it is not a conditional expression), and one whose
    consequent holds something else than a string: the engine has not been
    called and the state is as it was.  When the consequent holds a string
    and the alternate does not, the engine has been called for the
    consequent, and the text of the consequent is not replaced. *)
Theorem transformer_failures {EngineState : Type}
    (alchemyProcessing : call -> EngineState -> option string * EngineState)
    (isModular : tree) (filePath : option string) (property : val)
    (s : state EngineState) :
  (forall key,
      get_path (heap s) property ["key"] = Ok key ->
      type_is (heap s) key "Identifier" = true ->
      get_field (heap s) property "value" = Ok VUndef ->
      property_step alchemyProcessing isModular filePath property s
      = (Throw (TypeError "cannot read properties of undefined or null"), s)) /\
  (forall pseudo exprs condExpr name,
      get_path (heap s) property ["value"; "type"] = Ok (VStr "TemplateLiteral") ->
      get_path (heap s) property ["value"; "expressions"] = Ok exprs ->
      get_index (heap s) exprs 0 = Ok condExpr ->
      truthy condExpr = true ->
      get_path (heap s) property ["key"; "name"] = Ok name ->
      (get_field (heap s) condExpr "consequent" = Ok VUndef ->
       transformTemplateLiteral alchemyProcessing isModular filePath property pseudo s
       = (Throw (TypeError "cannot read properties of undefined or null"), s)) /\
      (forall raw,
          get_path (heap s) condExpr ["consequent"; "value"] = Ok raw ->
          (forall text, raw <> VStr text) ->
          exists what,
            transformTemplateLiteral alchemyProcessing isModular filePath property pseudo s
            = (Throw (TypeError what), s)) /\
      (forall a className raw,
          get_path (heap s) condExpr ["consequent"; "value"] = Ok (VStr a) ->
          let c := Call name (json_quote (replaceAll_dquote a)) isModular
                        (path_or_empty filePath) pseudo in
          fst (alchemyProcessing c (engine s)) = Some className ->
          get_path (heap s) condExpr ["alternate"; "value"] = Ok raw ->
          (forall text, raw <> VStr text) ->
          exists what,
            transformTemplateLiteral alchemyProcessing isModular filePath property pseudo s
            = (Throw (TypeError what), after_call alchemyProcessing c (heap s) s))).
Proof.
  split.
  - intros key Hkey Hid Hval. unfold property_step, bind, get, read. rewrite Hkey, Hid.
    cbn [negb get_path]. rewrite Hval. done.
  - intros pseudo exprs condExpr name Hty Hex Hc Ht Hname.
    assert (E : transformTemplateLiteral alchemyProcessing isModular filePath property pseudo s
               = bind (transform_value alchemyProcessing isModular filePath property condExpr
                                       ["consequent"; "value"] (ret pseudo))
                   (fun classNameConsequent =>
                    bind (transform_value alchemyProcessing isModular filePath property condExpr
                                          ["alternate"; "value"] (ret pseudo))
                      (fun classNameAlternate =>
                       bind (when (nonempty classNameConsequent)
                               (assign condExpr ["consequent"] "value"
                                       (VStr classNameConsequent)))
                         (fun _ => when (nonempty classNameAlternate)
                                     (assign condExpr ["alternate"] "value"
                                             (VStr classNameAlternate))))) s).
    { unfold transformTemplateLiteral. unfold bind at 1. unfold get at 1, read at 1.
      rewrite Hty. destruct (decide (VStr "TemplateLiteral" = VStr "TemplateLiteral")); [|done].
      unfold bind at 1. unfold bind at 1. unfold get at 1, read at 1. rewrite Hex.
      unfold read at 1. cbn [fst snd heap]. rewrite Hc, Ht. done. }
    rewrite E. clear E.
    split; [|split].
    + intros Hcons. unfold transform_value, bind, get, read. rewrite Hname.
      cbn [get_path]. rewrite Hcons. done.
    + intros raw Hraw Hns. unfold transform_value, bind, get, read. rewrite Hname, Hraw.
      destruct raw as [| | | |text|]; try (eexists; reflexivity). by destruct (Hns text).
    + intros a className raw Ha c Hcall Halt Hns.
      unfold transform_value, bind, get, read. rewrite Hname, Ha.
      cbn [replaceAll ret]. rewrite engine_call_eq. fold c. rewrite Hcall.
      cbn [after_call heap]. rewrite Hname, Halt.
      destruct raw as [| | | |text|]; try (eexists; reflexivity). by destruct (Hns text).
Qed.

Lemma transformer_failures_witness :
  transformTemplateLiteral engine_concat (TBool false) None interpolated_root (VStr EmptyString)
                           (initial_state tt interpolated_store)
  = (Throw (TypeError "cannot read properties of undefined or null"),
     initial_state tt interpolated_store).
Proof.
  refine (proj1 (proj2 (transformer_failures engine_concat (TBool false) None interpolated_root
                          (initial_state tt interpolated_store))
                       (VStr EmptyString) (VRef 25) (VRef 24) (VStr "color") _ _ _ _ _) _);
    vm_compute; reflexivity.
Defined.

(** X10.  The key of a property of a group is not looked at.  The loop
    over the properties of a group has no test of the key: a property there
    whose key has no [name] (a quoted key) and whose value is a string
    literal is handed to the engine under the name [undefined], with the key
    of the group as pseudo-group, and its text is replaced as for any other
    property. *)
Theorem nested_key_unchecked {EngineState : Type}
    (alchemyProcessing : call -> EngineState -> option string * EngineState)
    (isModular : tree) (filePath : option string) (s : state EngineState)
    lp lk kfs pfs ln nfs lnk nkfs lv vfs pseudo text :
  heap s !! lp = Some (OObj pfs) ->
  assoc "key" pfs = Some (VRef lk) ->
  heap s !! lk = Some (OObj kfs) ->
  assoc "name" kfs = Some pseudo ->
  heap s !! ln = Some (OObj nfs) ->
  assoc "key" nfs = Some (VRef lnk) ->
  assoc "value" nfs = Some (VRef lv) ->
  heap s !! lnk = Some (OObj nkfs) ->
  assoc "name" nkfs = None ->
  heap s !! lv = Some (OObj vfs) ->
  assoc "type" vfs = Some (VStr "StringLiteral") ->
  assoc "value" vfs = Some (VStr text) ->
  nested_step alchemyProcessing isModular filePath (VRef lp) (VRef ln) s =
  literal_outcome alchemyProcessing
    (Call VUndef (json_quote (replaceAll_dquote text)) isModular (path_or_empty filePath) pseudo)
    lv "value" s.
Proof.
  intros Hp Hk Hlk Hkn Hn Hnk Hnv Hlnk Hnkn Hlv Hvt Hvv.
  unfold nested_step, transform_value.
  run_reads. rewrite Hnkn. run_reads. rewrite engine_call_eq. unfold literal_outcome.
  destruct (fst (alchemyProcessing _ (engine s))) as [className|]; [|done].
  unfold when, replace_nonempty. destruct (nonempty className); [|done].
  unfold assign. by run_reads.
Qed.

Lemma nested_key_unchecked_witness :
  nested_step engine_concat (TBool false) None (VRef 6) (VRef 3) (initial_state tt quoted_store) =
  literal_outcome engine_concat
    (Call VUndef (json_quote (replaceAll_dquote "blue")) (TBool false) (path_or_empty None)
          (VStr "Hover"))
    2 "value" (initial_state tt quoted_store).
Proof.
  refine (nested_key_unchecked engine_concat (TBool false) None (initial_state tt quoted_store)
            6 0 _ _ 3 _ 1 _ 2 _ (VStr "Hover") "blue" _ _ _ _ _ _ _ _ _ _ _ _);
    reflexivity.
Defined.

(** ** More on the cache *)

Section CacheFacts.
Context {EngineState : Type}.
Variable alchemyProcessing : call -> EngineState -> option string * EngineState.
Variable generatesHashingHex : string -> bool -> bool -> string.
Variable resolve : string -> string.
Variables exclude isModular : tree.
Variable fuel : nat.

Abbreviation after_visit := (after alchemyProcessing generatesHashingHex resolve
                               exclude isModular fuel).
Abbreviation run_from := (run alchemyProcessing generatesHashingHex resolve
                            exclude isModular fuel).

(** The cache after the first occurrence of a fingerprint: one entry more. *)
Lemma visit_miss_cache site body (s : state EngineState) :
  cache_ok s -> excluded resolve exclude (fst site) = Ok false ->
  tracked (snd site) body -> tsize (snd site) <= fuel ->
  fingerprint generatesHashingHex (to_json body) ∉ usedObjects s ->
  exists v, transformedNodes (after_visit site s)
            = <[fingerprint generatesHashingHex (to_json body) := v]> (transformedNodes s).
Proof.
  intros Hok Hx Ht Hfuel Hu.
  assert (Hnode : is_node body)
    by (by destruct Ht as (? & ? & ? & ? & ? & _ & _ & _ & _ & _ & _ & _ & _ & ?)).
  unfold after, visit. destruct (alloc (snd site) (heap s)) as [node h1] eqn:Ea. cbn [fst snd].
  destruct (alloc_laid _ _ _ _ Ea) as [P1 L1].
  pose proof (alloc_length _ _ _ _ Ea) as Hlen1.
  destruct (alloc_closed _ _ _ _ Ea) as [Hcl _].
  destruct (CallExpression_tracked alchemyProcessing generatesHashingHex resolve exclude
              isModular fuel _ _ node (snd site) body (fst site) (set_heap h1 s) Hx L1 Ht)
    as (l & la & lcb & body_v & ab & bb & -> & Hb & Hloc & Lb & Hab & Hbb & E).
  pose proof (laid_range _ _ _ _ _ Lb) as Hrb.
  pose proof Hloc as (_ & _ & _ & Hlt).
  cbn [heap set_heap] in Hb, Hab, Hlt.
  destruct (cache_protocol_miss alchemyProcessing isModular fuel (set_heap h1 s) (fst site)
              (length (heap s)) l la lcb (fingerprint generatesHashingHex (to_json body))
              body_v ab bb body)
    as (s2 & tc & Hstep & L2 & Ep); [done|done|done|done|done|done|lia|].
  rewrite E. unfold try_catch. rewrite Ep. cbn [snd transformedNodes].
  eexists. by rewrite (ok_nodes _ _ _ _ _ Hstep).
Qed.

(** A visit leaves the cache as it is or adds one entry to it, for a
    fingerprint that was not in use. *)
Lemma visit_cache_step site (s : state EngineState) :
  cache_ok s -> admissible resolve exclude fuel site ->
  (usedObjects (after_visit site s) = usedObjects s /\
   transformedNodes (after_visit site s) = transformedNodes s) \/
  (exists f v, (f ∉ usedObjects s) /\
               usedObjects (after_visit site s) = usedObjects s ++ [f] /\
               transformedNodes (after_visit site s) = <[f := v]> (transformedNodes s)).
Proof.
  intros Hok Ha.
  assert (Hskip : excluded resolve exclude (fst site) <> Ok false \/ untracked (snd site) ->
                  usedObjects (after_visit site s) = usedObjects s /\
                  transformedNodes (after_visit site s) = transformedNodes s).
  { intros Hs.
    destruct (visit_skipped alchemyProcessing generatesHashingHex resolve exclude isModular fuel
                site s Hs) as (s' & E & _ & Hu & Hn & _).
    unfold after. by rewrite E. }
  destruct Ha as [Hx|[Hu|(body & Ht & Hfuel)]]; [left; apply Hskip; by left
                                                 |left; apply Hskip; by right|].
  assert (Hd : excluded resolve exclude (fst site) = Ok false \/
               excluded resolve exclude (fst site) <> Ok false)
    by (destruct (excluded resolve exclude (fst site)) as [[|]| |]; auto).
  destruct Hd as [Hx|Hx]; [|left; apply Hskip; by left].
  destruct (decide (fingerprint generatesHashingHex (to_json body) ∈ usedObjects s)) as [Hin|Hin].
  - left.
    destruct (visit_hit alchemyProcessing generatesHashingHex resolve exclude isModular fuel
                site body s Hok Hx Ht Hin)
      as (s' & copy & lc & tc & E & (_ & Hu & Hn & _) & _).
    unfold after. by rewrite E.
  - right. exists (fingerprint generatesHashingHex (to_json body)).
    destruct (visit_miss_cache site body s Hok Hx Ht Hfuel Hin) as (v & Hn). exists v.
    destruct (visit_miss alchemyProcessing generatesHashingHex resolve exclude isModular fuel
                site body s Hok Hx Ht Hfuel Hin)
      as (s' & body_v & lc & tc & ext & E & (_ & _ & Hu) & _).
    split; [done|]. split; [|done]. unfold after. by rewrite E.
Qed.

Lemma cache_sync_step site (s : state EngineState) :
  cache_ok s -> cache_sync s -> admissible resolve exclude fuel site ->
  cache_sync (after_visit site s).
Proof.
  intros Hok [ND Hdom] Ha.
  destruct (visit_cache_step site s Hok Ha) as [[Hu Hn]|(f & v & Hf & Hu & Hn)];
    unfold cache_sync; rewrite Hu, Hn; [done|]. split.
  - apply NoDup_app. split; [done|]. split; [|apply NoDup_singleton].
    intros g Hg Hg'. apply list_elem_of_singleton in Hg'. by subst.
  - intros g. rewrite elem_of_app, list_elem_of_singleton, Hdom.
    destruct (decide (g = f)) as [->|Hne].
    + rewrite lookup_insert_eq. split; [by eauto|by right].
    + rewrite lookup_insert_ne by done. split; [by intros [?|?]|by left].
Qed.

Lemma run_cache_sync sites (s : state EngineState) :
  Forall (admissible resolve exclude fuel) sites -> cache_ok s -> cache_sync s ->
  cache_sync (run_from sites s).
Proof.
  intros Ha. revert s. induction Ha as [|site sites Hsite _ IH]; intros s Hok Hs; [done|].
  change (run_from (site :: sites) s) with (run_from sites (after_visit site s)).
  apply IH; [|by apply cache_sync_step].
  by destruct (visit_admissible alchemyProcessing generatesHashingHex resolve exclude isModular
                 fuel site s Hok Hsite).
Qed.

End CacheFacts.

(** X11.  The list of the fingerprints and the cache go together.  After
    any run from the state of a process that has seen no call site, no
    fingerprint is listed twice in [usedObjects], and a fingerprint is listed
    there exactly when [transformedNodes] holds a fragment for it: the branch
    of the visitor for a fingerprint in use without fragment is never
    taken. *)
Theorem cache_and_list_go_together {EngineState : Type}
    (alchemyProcessing : call -> EngineState -> option string * EngineState)
    (generatesHashingHex : string -> bool -> bool -> string)
    (resolve : string -> string) (exclude isModular : tree) (fuel : nat)
    (e : EngineState) (h0 : list obj) (sites : list (option string * tree)) :
  Forall (admissible resolve exclude fuel) sites ->
  cache_sync (run alchemyProcessing generatesHashingHex resolve exclude isModular fuel sites
                  (initial_state e h0)).
Proof.
  intros Ha. apply run_cache_sync; [done|apply cache_ok_initial|].
  split; [apply NoDup_nil_2|]. intros f. cbn [initial_state usedObjects transformedNodes].
  rewrite lookup_empty. split; [by intros ?%elem_of_nil|by intros [? ?]].
Qed.

Lemma cache_and_list_go_together_witness :
  cache_sync (run engine_concat hash_identity (resolve_in "/app") (TArr [TStr "tests"])
                  (TBool false) 100 [first_site; other_site; later_site]
                  (initial_state tt [])).
Proof.
  refine (cache_and_list_go_together engine_concat hash_identity (resolve_in "/app")
            (TArr [TStr "tests"]) (TBool false) 100 tt []
            [first_site; other_site; later_site] _).
  apply List.Forall_cons; [|apply List.Forall_cons; [|apply List.Forall_cons; [|apply List.Forall_nil]]].
  - apply (occurrence_admissible hash_identity (resolve_in "/app") (TArr [TStr "tests"]) 100
             scenario_fingerprint).
    apply styles_call_occurrence. vm_compute. reflexivity.
  - apply other_site_admissible.
  - apply (occurrence_admissible hash_identity (resolve_in "/app") (TArr [TStr "tests"]) 100
             scenario_fingerprint).
    apply styles_call_occurrence. vm_compute. reflexivity.
Defined.

(** X12.  What goes into the cache is a copy.  At the first occurrence of
    a fingerprint, the fragment that is stored in the cache reads as the same
    tree as the body of the callback once transformed, and no object of the
    store can be reached from both: what is done to the syntax tree of the
    file afterwards does not reach the cache. *)
Theorem cached_fragment_is_a_copy {EngineState : Type}
    (alchemyProcessing : call -> EngineState -> option string * EngineState)
    (generatesHashingHex : string -> bool -> bool -> string)
    (resolve : string -> string) (exclude isModular : tree) (fuel : nat)
    (e : EngineState) (h0 : list obj) (f : string)
    (before : list (option string * tree)) (first : option string * tree) :
  let run := run alchemyProcessing generatesHashingHex resolve exclude isModular fuel in
  let after := after alchemyProcessing generatesHashingHex resolve exclude isModular fuel in
  let node_at := node_at alchemyProcessing generatesHashingHex resolve exclude isModular fuel in
  let s1 := run before (initial_state e h0) in
  Forall (admissible resolve exclude fuel) before ->
  f ∉ usedObjects s1 ->
  occurrence generatesHashingHex resolve exclude fuel f first ->
  exists body cached tc,
    site_body (heap (after first s1)) (node_at first s1) = Ok body /\
    transformedNodes (after first s1) !! f = Some cached /\
    reify_store (heap (after first s1)) body = Some tc /\
    reify_store (heap (after first s1)) cached = Some tc /\
    forall l, reach (heap (after first s1)) cached l -> ~ reach (heap (after first s1)) body l.
Proof.
  intros run0 after0 node0 s1 Hbefore Hf (Hx & body & Ht & <- & Hfuel).
  destruct (run_admissible alchemyProcessing generatesHashingHex resolve exclude isModular fuel
              before (initial_state e h0) Hbefore (cache_ok_initial e h0)) as [_ Hok1].
  destruct (visit_miss alchemyProcessing generatesHashingHex resolve exclude isModular fuel
              first body s1 Hok1 Hx Ht Hfuel Hf)
    as (s' & body_v & lc & tc & ext & E & _ & _ & Hb & Hn & Hr1 & Hr2 & Hsep).
  exists body_v, (VRef lc), tc. unfold after0, after, node0, node_at.
  rewrite E. cbn [fst snd]. done.
Qed.

Lemma cached_fragment_is_a_copy_witness :
  let run := run engine_concat hash_identity (resolve_in "/app") (TArr [TStr "tests"])
                 (TBool false) 100 in
  let after := after engine_concat hash_identity (resolve_in "/app") (TArr [TStr "tests"])
                     (TBool false) 100 in
  let node_at := node_at engine_concat hash_identity (resolve_in "/app") (TArr [TStr "tests"])
                         (TBool false) 100 in
  let s1 := run [other_site] (initial_state tt []) in
  exists body cached tc,
    site_body (heap (after first_site s1)) (node_at first_site s1) = Ok body /\
    transformedNodes (after first_site s1) !! scenario_fingerprint = Some cached /\
    reify_store (heap (after first_site s1)) body = Some tc /\
    reify_store (heap (after first_site s1)) cached = Some tc /\
    forall l, reach (heap (after first_site s1)) cached l ->
              ~ reach (heap (after first_site s1)) body l.
Proof.
  refine (cached_fragment_is_a_copy engine_concat hash_identity (resolve_in "/app")
            (TArr [TStr "tests"]) (TBool false) 100 tt [] scenario_fingerprint
            [other_site] first_site _ _ _).
  - constructor; [apply other_site_admissible|constructor].
  - vm_compute. apply not_elem_of_nil.
  - apply styles_call_occurrence. vm_compute. reflexivity.
Defined.



(** ** The commands and the configuration *)

(** X14.  The commands without configuration.  When [galadriel.json] is
    absent, unreadable, not JSON, or holds [null], the [exclude] that the
    commands read is undefined: the build processes no file ([exclude.map]
    throws before [glob] is called), and [dev] starts no watcher. *)
Theorem commands_without_configuration
    (JSON_parse : string -> option tree) (number_to_string : Z -> string)
    (glob : string -> list tree -> list string) (galadriel_json : file) :
  unusable JSON_parse galadriel_json \/
  (exists text, galadriel_json = Content text /\ JSON_parse text = Some TNull) ->
  build_command JSON_parse number_to_string glob galadriel_json = [] /\
  dev_command JSON_parse number_to_string glob galadriel_json = ([], Refused).
Proof.
  intros H.
  assert (E : fst (parseConfig JSON_parse galadriel_json) = TArr []).
  { destruct H as [H|(text & -> & H)].
    - destruct galadriel_json as [| |text]; try done. simpl in *. by rewrite H.
    - simpl. by rewrite H. }
  unfold dev_command, build_command. by rewrite E.
Qed.

Lemma commands_without_configuration_witness :
  build_command (fun _ => None) pretty (glob_model ["src/a.js"]) Absent = [] /\
  dev_command (fun _ => None) pretty (glob_model ["src/a.js"]) Absent = ([], Refused).
Proof.
  refine (commands_without_configuration (fun _ => None) pretty (glob_model ["src/a.js"])
                                         Absent _).
  left. exact I.
Defined.

(** X15.  The default of [exclude] stands for a missing key only.  With a
    configuration object without [exclude], the build ignores the three
    patterns of its own and no more, the watcher ignores the names that start
    with a dot, and the plugin excludes no file.  With [exclude] set to
    [null] the default does not apply: the build processes no file, [dev]
    starts no watcher, and the exclusion check of the plugin throws for every
    file. *)
Theorem configuration_without_exclude
    (JSON_parse : string -> option tree) (number_to_string : Z -> string)
    (glob : string -> list tree -> list string)
    (resolve : string -> string) (text : string) (fs : list (string * tree)) :
  JSON_parse text = Some (TObj fs) ->
  (assoc "exclude" fs = None ->
   build_command JSON_parse number_to_string glob (Content text)
   = List.filter (fun p => negb (starts_with_dot p))
       (glob "**/*.{js,jsx,ts,tsx}"
             (map TStr ["node_modules/**"; "**/*.{config.js,config.ts}"; "**/*.{.}"])) /\
   snd (dev_command JSON_parse number_to_string glob (Content text)) = Watching [DotNames] /\
   forall filename,
     excluded resolve (fst (plugin_config JSON_parse (Content text))) filename = Ok false) /\
  (assoc "exclude" fs = Some TNull ->
   build_command JSON_parse number_to_string glob (Content text) = [] /\
   snd (dev_command JSON_parse number_to_string glob (Content text)) = Refused /\
   forall filename,
     excluded resolve (fst (plugin_config JSON_parse (Content text))) filename
     = Throw (TypeError "cannot read properties of undefined or null")).
Proof.
  intros Hparse. split; intros Hex.
  - assert (E : tree_field (fst (parseConfig JSON_parse (Content text))) "exclude" = TArr []).
    { cbn [parseConfig]. rewrite Hparse. cbn [fst tree_field assoc String.eqb Ascii.eqb Bool.eqb].
      by rewrite Hex. }
    unfold dev_command, build_command, plugin_config. rewrite E.
    split; [cbn [assembleApplicationStyles reify_seq]; by rewrite app_nil_r|]. split; [done|].
    by intros [p|].
  - assert (E : tree_field (fst (parseConfig JSON_parse (Content text))) "exclude" = TNull).
    { cbn [parseConfig]. rewrite Hparse. cbn [fst tree_field assoc String.eqb Ascii.eqb Bool.eqb].
      by rewrite Hex. }
    unfold dev_command, build_command, plugin_config. rewrite E. done.
Qed.

Lemma configuration_without_exclude_witness :
  build_command (fun _ => Some (TObj [])) pretty (glob_model ["src/a.js"])
                (Content "{}")
  = List.filter (fun p => negb (starts_with_dot p))
      (glob_model ["src/a.js"] "**/*.{js,jsx,ts,tsx}"
                  (map TStr ["node_modules/**"; "**/*.{config.js,config.ts}"; "**/*.{.}"])) /\
  snd (dev_command (fun _ => Some (TObj [])) pretty (glob_model ["src/a.js"])
                   (Content "{}")) = Watching [DotNames] /\
  forall filename,
    excluded (resolve_in "/app")
             (fst (plugin_config (fun _ => Some (TObj [])) (Content "{}")))
             filename = Ok false.
Proof.
  refine (proj1 (configuration_without_exclude (fun _ => Some (TObj [])) pretty
                   (glob_model ["src/a.js"]) (resolve_in "/app") "{}" []
                   _) _);
    reflexivity.
Defined.

(** ** The text handed to the engine *)

Lemma string_filter_app f a b :
  string_filter f (a +:+ b) = string_filter f a +:+ string_filter f b.
Proof.
  induction a as [|c a IH]; [done|].
  change (String c a +:+ b) with (String c (a +:+ b)). cbn [string_filter].
  destruct (f c); [|done]. change (String c (string_filter f a) +:+ string_filter f b)
    with (String c (string_filter f a +:+ string_filter f b)). by rewrite IH.
Qed.

Lemma hex_digit_not_dquote n : Ascii.eqb dquote (hex_digit n) = false.
Proof. do 16 (destruct n as [|n]; [done|]). done. Qed.

Lemma json_escape_no_dquote c :
  Ascii.eqb c dquote = false -> string_filter (Ascii.eqb dquote) (json_escape c) = EmptyString.
Proof.
  intros Hc. unfold json_escape. rewrite Hc.
  destruct (Ascii.eqb c backslash); [done|].
  repeat (match goal with |- context [if ?b then _ else _] => destruct b; [done|] end).
  destruct (Nat.ltb (nat_of_ascii c) 32).
  - cbn [string_filter]. rewrite !hex_digit_not_dquote. done.
  - cbn [string_filter]. rewrite Ascii.eqb_sym, Hc. done.
Qed.

Lemma replaceAll_dquote_escape text :
  string_filter (Ascii.eqb dquote) (json_escape_all (replaceAll_dquote text)) = EmptyString.
Proof.
  induction text as [|c text IH]; [done|].
  cbn [replaceAll_dquote string_map json_escape_all].
  rewrite string_filter_app. fold (replaceAll_dquote text). rewrite IH, append_nil_r.
  apply json_escape_no_dquote. by destruct (Ascii.eqb c dquote) eqn:E.
Qed.

Lemma json_escape_plain c :
  Ascii.eqb c dquote = false -> Ascii.eqb c backslash = false ->
  Nat.ltb (nat_of_ascii c) 32 = false ->
  json_escape c = String c EmptyString.
Proof.
  intros H1 H2 H3. unfold json_escape. rewrite H1, H2, H3.
  apply Nat.ltb_ge in H3.
  repeat (match goal with
          | |- context [Nat.eqb ?a ?b] =>
              destruct (Nat.eqb_spec a b); [lia|]
          end).
  done.
Qed.

(** X16.  The text handed to the engine.  The value the engine receives
    for a text is a JSON string: it begins and it ends with a double quote,
    and there is no double quote in between, since those of the text have
    been turned into single quotes.  When the text holds no backslash and no
    control character, what is between the two double quotes is the text
    itself, with its double quotes turned into single quotes. *)
Theorem engine_value_format (text : string) :
  exists inner,
    json_quote (replaceAll_dquote text) = String dquote (inner +:+ String dquote EmptyString) /\
    string_filter (Ascii.eqb dquote) inner = EmptyString /\
    (string_filter (fun c => Ascii.eqb c backslash || Nat.ltb (nat_of_ascii c) 32) text
     = EmptyString ->
     inner = replaceAll_dquote text).
Proof.
  exists (json_escape_all (replaceAll_dquote text)).
  split; [done|]. split; [apply replaceAll_dquote_escape|].
  induction text as [|c text IH]; [done|].
  cbn [string_filter replaceAll_dquote string_map json_escape_all].
  destruct (Ascii.eqb c backslash) eqn:E2; [done|].
  destruct (Nat.ltb (nat_of_ascii c) 32) eqn:E3; [done|]. cbn [orb]. intros H.
  fold (replaceAll_dquote text). rewrite (IH H).
  rewrite json_escape_plain; [done| | |].
  - by destruct (Ascii.eqb c dquote) eqn:E.
  - destruct (Ascii.eqb c dquote) eqn:E; [done|exact E2].
  - destruct (Ascii.eqb c dquote) eqn:E; [done|exact E3].
Qed.

Lemma engine_value_format_witness :
  string_filter (fun c => Ascii.eqb c backslash || Nat.ltb (nat_of_ascii c) 32) "1px solid"
  = EmptyString /\
  exists inner,
    json_quote (replaceAll_dquote "1px solid")
    = String dquote (inner +:+ String dquote EmptyString) /\
    string_filter (Ascii.eqb dquote) inner = EmptyString /\
    (string_filter (fun c => Ascii.eqb c backslash || Nat.ltb (nat_of_ascii c) 32) "1px solid"
     = EmptyString ->
     inner = replaceAll_dquote "1px solid").
Proof.
  split; [vm_compute; reflexivity|]. exact (engine_value_format "1px solid").
Defined.

(** ** Object literals of string properties *)

Lemma laid_cell h a b l fs :
  laid h a b (VRef l) (TObj fs) ->
  exists fvs, h !! l = Some (OObj fvs) /\ b = S l /\
    forall k t, assoc k fs = Some t ->
      exists v a' b', assoc k fvs = Some v /\ laid h a' b' v t /\ a <= a' /\ b' <= l.
Proof.
  intros L. destruct (laid_ref_inv _ _ _ _ _ L) as [-> [(fvs & fs' & [= <-] & Hl & Hk & Le)|
                                                      (? & ? & [=] & _)]].
  exists fvs. split; [done|]. split; [done|]. intros k t Hkt.
  pose proof (laid_elems_assoc h fvs fs a l Hk Le k) as H. by rewrite Hkt in H.
Qed.

Lemma laid_cell_back h a b l t fvs :
  laid h a b (VRef l) t -> h !! l = Some (OObj fvs) ->
  exists fs, t = TObj fs /\
    forall k v, assoc k fvs = Some v ->
      exists tk a' b', assoc k fs = Some tk /\ laid h a' b' v tk.
Proof.
  intros L Hl. destruct (laid_ref_inv _ _ _ _ _ L) as [-> [(fvs' & fs & -> & Hl' & Hk & Le)|
                                                      (? & ? & _ & Hl' & _)]]; [|congruence].
  assert (fvs' = fvs) as -> by congruence.
  exists fs. split; [done|]. intros k v Hkv.
  pose proof (laid_elems_assoc h fvs fs a l Hk Le k) as H.
  destruct (assoc k fs) as [tk|]; [|congruence].
  destruct H as (v' & a' & b' & Hv' & L' & _). assert (v' = v) as -> by congruence. eauto.
Qed.

Lemma laid_property_cells h a b v p name text :
  laid h a b v p -> string_property name text p ->
  exists lp lk lv,
    v = VRef lp /\ b = S lp /\ a <= lk < lp /\ a <= lv < lp /\
    property_cells h lp lk lv name text.
Proof.
  intros L (pfs & kfs & vfs & -> & Hkey & Hkt & Hkn & Hval & Hvt & Hvv).
  destruct (laid_node_inv _ _ _ _ _ L I) as (lp & -> & ->).
  destruct (laid_cell _ _ _ _ _ L) as (pvs & Hp & _ & Fp).
  destruct (Fp _ _ Hkey) as (vk & ak & bk & Hk1 & Lk & Hak & Hbk).
  destruct (Fp _ _ Hval) as (vv & av & bv & Hv1 & Lv & Hav & Hbv).
  destruct (laid_node_inv _ _ _ _ _ Lk I) as (lk & -> & ->).
  destruct (laid_node_inv _ _ _ _ _ Lv I) as (lv & -> & ->).
  destruct (laid_cell _ _ _ _ _ Lk) as (kvs & Hlk & _ & Fk).
  destruct (laid_cell _ _ _ _ _ Lv) as (vvs & Hlv & _ & Fv).
  destruct (Fk _ _ Hkt) as (w1 & ? & ? & Hw1 & Lw1 & _). apply laid_str_inv in Lw1 as ->.
  destruct (Fk _ _ Hkn) as (w2 & ? & ? & Hw2 & Lw2 & _). apply laid_str_inv in Lw2 as ->.
  destruct (Fv _ _ Hvt) as (w3 & ? & ? & Hw3 & Lw3 & _). apply laid_str_inv in Lw3 as ->.
  destruct (Fv _ _ Hvv) as (w4 & ? & ? & Hw4 & Lw4 & _). apply laid_str_inv in Lw4 as ->.
  pose proof (laid_root _ _ _ _ _ Lk) as Rk. pose proof (laid_root _ _ _ _ _ Lv) as Rv.
  simpl in Rk, Rv.
  exists lp, lk, lv. split; [done|]. split; [done|]. split; [lia|]. split; [lia|].
  split; [|split; [lia|]].
  - intros ->. congruence.
  - exists pvs, kvs, vvs. by repeat split.
Qed.

Lemma cells_string_property h a b lp lk lv p name text :
  laid h a b (VRef lp) p -> property_cells h lp lk lv name text ->
  string_property name text p.
Proof.
  intros L (_ & _ & pvs & kvs & vvs & Hp & Hk & Hv & Hlk & Hkt & Hkn & Hlv & Hvt & Hvv).
  destruct (laid_cell_back _ _ _ _ _ _ L Hp) as (pfs & -> & Fp).
  destruct (Fp _ _ Hk) as (tk & ? & ? & Hkey & Lk).
  destruct (Fp _ _ Hv) as (tv & ? & ? & Hval & Lv).
  destruct (laid_cell_back _ _ _ _ _ _ Lk Hlk) as (kfs & -> & Fk).
  destruct (laid_cell_back _ _ _ _ _ _ Lv Hlv) as (vfs & -> & Fv).
  destruct (Fk _ _ Hkt) as (t1 & ? & ? & H1 & L1). apply laid_str_inv' in L1 as ->.
  destruct (Fk _ _ Hkn) as (t2 & ? & ? & H2 & L2). apply laid_str_inv' in L2 as ->.
  destruct (Fv _ _ Hvt) as (t3 & ? & ? & H3 & L3). apply laid_str_inv' in L3 as ->.
  destruct (Fv _ _ Hvv) as (t4 & ? & ? & H4 & L4). apply laid_str_inv' in L4 as ->.
  exists pfs, kfs, vfs. by repeat split.
Qed.

Lemma property_cells_stable h h' lp lk lv name text :
  property_cells h lp lk lv name text ->
  h' !! lp = h !! lp -> h' !! lk = h !! lk -> h' !! lv = h !! lv ->
  property_cells h' lp lk lv name text.
Proof.
  intros (N1 & N2 & pvs & kvs & vvs & Hp & Hk & Hv & Hlk & Hkt & Hkn & Hlv & Hvt & Hvv) E1 E2 E3.
  split; [done|]. split; [done|]. exists pvs, kvs, vvs. rewrite E1, E2, E3. by repeat split.
Qed.

Lemma property_cells_written h lp lk lv name text answer :
  property_cells h lp lk lv name text ->
  property_cells (replace_nonempty lv "value" answer h) lp lk lv name
                 (if nonempty answer then answer else text).
Proof.
  intros Hc. unfold replace_nonempty. destruct (nonempty answer); [|done].
  destruct Hc as (N1 & N2 & pvs & kvs & vvs & Hp & Hk & Hv & Hlk & Hkt & Hkn & Hlv & Hvt & Hvv).
  split; [done|]. split; [done|].
  exists pvs, kvs, (assoc_set "value" (VStr answer) vvs).
  rewrite !replace_field_lookup_ne by done. repeat split; try done.
  - unfold replace_field. rewrite Hlv. apply list_lookup_insert_eq. by eapply lookup_lt_Some.
  - by rewrite assoc_set_other.
  - apply assoc_set_same.
Qed.

Lemma replace_nonempty_shape h lv vvs text answer :
  h !! lv = Some (OObj vvs) -> assoc "value" vvs = Some (VStr text) ->
  same_shape h (replace_nonempty lv "value" answer h).
Proof.
  intros Hlv Hv. unfold replace_nonempty. destruct (nonempty answer); [|apply same_shape_refl].
  by eapply replace_field_shape.
Qed.

Section FlatFacts.
Context {EngineState : Type}.
Variable alchemyProcessing : call -> EngineState -> option string * EngineState.
Variable isModular : tree.
Variable filePath : option string.

(** The loop of [generatesAlchemy] over string properties laid out one
    after the other: one call each, in order, and each literal holds the
    answer that is not empty. *)
Lemma loop_string_properties h0 a b vs ts :
  laid_elems h0 a b vs ts ->
  forall props (s : state EngineState) answers e',
    Forall2 (fun (nt : string * string) p => string_property (fst nt) (snd nt) p) props ts ->
    agree_on a b h0 (heap s) ->
    engine_answers alchemyProcessing (map (property_call isModular filePath) props) (engine s)
    = Some (answers, e') ->
    exists s',
      for_each vs (property_step alchemyProcessing isModular filePath) s = (Ok tt, s') /\
      calls s' = calls s ++ map (property_call isModular filePath) props /\
      engine s' = e' /\ usedObjects s' = usedObjects s /\
      transformedNodes s' = transformedNodes s /\ console s' = console s /\
      same_shape (heap s) (heap s') /\
      (forall l, ~ (a <= l < b) -> heap s' !! l = heap s !! l) /\
      Forall2 (fun v (nt : string * string) =>
                 exists lp lk lv, v = VRef lp /\ a <= lk < b /\ a <= lv < b /\ a <= lp < b /\
                                  property_cells (heap s') lp lk lv (fst nt) (snd nt))
              vs (substituted props answers).
Proof.
  induction 1 as [|a m b v t vs ts L1 L2 IH]; intros props s answers e' F A E.
  - inversion F; subst. cbn in E. injection E as <- <-. exists s.
    cbn [for_each map]. rewrite app_nil_r. repeat split; done.
  - inversion F as [|nt p props' ts' Hp F']; subst.
    cbn [map engine_answers] in E.
    destruct (alchemyProcessing (property_call isModular filePath nt) (engine s))
      as [[answer|] e1] eqn:Ecall; [|done].
    destruct (engine_answers alchemyProcessing (map (property_call isModular filePath) props') e1)
      as [[answers' e'']|] eqn:Erest; [|done].
    injection E as <- <-.
    pose proof (laid_range _ _ _ _ _ L1) as R1. pose proof (laid_elems_range _ _ _ _ _ L2) as R2.
    assert (L1' : laid (heap s) a m v t).
    { eapply laid_agree; [exact L1|]. eapply agree_on_sub; [exact A|lia|lia]. }
    destruct (laid_property_cells _ _ _ _ _ _ _ L1' Hp)
      as (lp & lk & lv & -> & -> & Hlk & Hlv & Hc).
    pose proof Hc as (N1 & N2 & pvs & kvs & vvs & Hp1 & Hk1 & Hv1 & Hlk1 & Hkt & Hkn & Hlv1
                      & Hvt & Hvv).
    pose proof (property_step_string alchemyProcessing isModular filePath s lp lk lv pvs kvs vvs
                  (VStr (fst nt)) (snd nt) Hp1 Hk1 Hv1 Hlk1 Hkt Hkn Hlv1 Hvt Hvv) as Estep.
    unfold literal_outcome in Estep. fold (property_call isModular filePath nt) in Estep.
    rewrite Ecall in Estep. cbn [fst] in Estep.
    set (s1 := after_call alchemyProcessing (property_call isModular filePath nt)
                 (replace_nonempty lv "value" answer (heap s)) s) in *.
    assert (He1 : engine s1 = e1) by (unfold s1, after_call; cbn [engine]; by rewrite Ecall).
    destruct (IH props' s1 answers' e'' F') as (s' & Ef & Hcalls & He & Hu & Hn & Hcon & Hsh & Hfr & Hall).
    { intros l Hl. rewrite (A l) by lia. unfold s1, after_call. cbn [heap].
      symmetry. apply replace_nonempty_lookup_ne. lia. }
    { by rewrite He1. }
    exists s'. split.
    { cbn [for_each]. unfold bind. by rewrite Estep. }
    split.
    { rewrite Hcalls. unfold s1, after_call. cbn [calls map]. by rewrite <- app_assoc. }
    split; [done|]. split; [by rewrite Hu|]. split; [by rewrite Hn|]. split; [by rewrite Hcon|].
    split.
    { eapply same_shape_trans; [|exact Hsh]. unfold s1, after_call. cbn [heap].
      by eapply replace_nonempty_shape. }
    split.
    { intros l Hl. rewrite Hfr by lia. unfold s1, after_call. cbn [heap].
      apply replace_nonempty_lookup_ne. lia. }
    cbn [substituted zip_with]. constructor.
    + exists lp, lk, lv. split; [done|]. split; [lia|]. split; [lia|]. split; [lia|].
      cbn [fst snd].
      eapply property_cells_stable; [apply (property_cells_written _ _ _ _ _ _ answer Hc)| | |];
        rewrite Hfr by lia; done.
    + eapply Forall2_impl; [exact Hall|].
      intros x y (lp' & lk' & lv' & -> & ? & ? & ? & ?). exists lp', lk', lv'.
      split; [done|]. split; [lia|]. split; [lia|]. split; [lia|]. done.
Qed.

End FlatFacts.

Lemma laid_elems_string_properties h a b vs ts :
  laid_elems h a b vs ts ->
  forall a0 b0 (props : list (string * string)),
    Forall2 (fun v (nt : string * string) =>
               exists lp lk lv, v = VRef lp /\ a0 <= lk < b0 /\ a0 <= lv < b0 /\ a0 <= lp < b0 /\
                                property_cells h lp lk lv (fst nt) (snd nt)) vs props ->
    Forall2 (fun (nt : string * string) p => string_property (fst nt) (snd nt) p) props ts.
Proof.
  induction 1 as [|a m b v t vs ts L1 L2 IH]; intros a0 b0 props F.
  - inversion F; subst. constructor.
  - inversion F as [|? nt ? props' (lp & lk & lv & -> & _ & _ & _ & Hc) F']; subst.
    constructor; [by eapply cells_string_property|by eapply IH].
Qed.

Lemma flat_literal_transformed {EngineState : Type}
    (alchemyProcessing : call -> EngineState -> option string * EngineState)
    (isModular : tree) (filePath : option string)
    (a b : nat) (root : val) (t : tree) (props : list (string * string))
    (answers : list string) (e' : EngineState) (s : state EngineState) :
  laid (heap s) a b root t ->
  flat_literal props t ->
  engine_answers alchemyProcessing (map (property_call isModular filePath) props) (engine s)
  = Some (answers, e') ->
  exists s' t',
    generatesAlchemy alchemyProcessing isModular filePath root s = (Ok tt, s') /\
    calls s' = calls s ++ map (property_call isModular filePath) props /\
    engine s' = e' /\ console s' = console s /\
    usedObjects s' = usedObjects s /\ transformedNodes s' = transformedNodes s /\
    (forall l, ~ (a <= l < b) -> heap s' !! l = heap s !! l) /\
    laid (heap s') a b root t' /\
    flat_literal (substituted props answers) t'.
Proof.
  intros L (fs & ps & -> & Hty & Hps & F) E.
  destruct (laid_node_inv _ _ _ _ _ L I) as (l & -> & ->).
  destruct (laid_cell _ _ _ _ _ L) as (fvs & Hl & _ & Ff).
  destruct (Ff _ _ Hty) as (vty & ? & ? & Hvty & Lty & _). apply laid_str_inv in Lty as ->.
  destruct (Ff _ _ Hps) as (vps & ap & bp & Hvps & Lps & Hap & Hbp).
  destruct (laid_node_inv _ _ _ _ _ Lps I) as (lps & -> & ->).
  destruct (laid_ref_inv _ _ _ _ _ Lps) as [_ [(? & ? & [=] & _)|(vs & ps' & [= <-] & Hlps & Le)]].
  destruct (loop_string_properties alchemyProcessing isModular filePath (heap s) ap lps vs ps Le
              props s answers e' F (agree_on_refl _ _ _) E)
    as (s' & Ef & Hcalls & He & Hu & Hn & Hcon & Hsh & Hfr & Hall).
  destruct (laid_shape _ _ _ _ _ _ Hsh L) as (t' & L').
  exists s', t'. split.
  { unfold generatesAlchemy, try_catch, get, read.
    unfold bind at 1. cbn [fst snd]. unfold type_is, field_is.
    rewrite (get_field_obj _ _ _ _ Hl), Hvty. cbn [or_undef String.eqb Ascii.eqb Bool.eqb negb].
    unfold bind at 1. unfold bind at 1. cbn [get_path].
    rewrite (get_field_obj _ _ _ _ Hl), Hvps. cbn [or_undef iterate]. rewrite Hlps.
    by rewrite Ef. }
  split; [done|]. split; [done|]. split; [done|]. split; [done|]. split; [done|].
  split; [intros l0 Hl0; apply Hfr; lia|]. split; [done|].
  assert (Hl' : heap s' !! l = Some (OObj fvs)) by (rewrite Hfr by lia; done).
  assert (Hlps' : heap s' !! lps = Some (OArr vs)) by (rewrite Hfr by lia; done).
  destruct (laid_cell_back _ _ _ _ _ _ L' Hl') as (fs' & -> & Fb).
  destruct (Fb _ _ Hvty) as (t1 & ? & ? & H1 & L1). apply laid_str_inv' in L1 as ->.
  destruct (Fb _ _ Hvps) as (t2 & ? & ? & H2 & L2).
  destruct (laid_ref_inv _ _ _ _ _ L2) as [_ [(? & ? & _ & Hbad & _)|(vs' & ps2 & -> & Hlps2 & Le2)]];
    [congruence|].
  assert (vs' = vs) as -> by congruence.
  exists fs', ps2. split; [done|]. split; [done|]. split; [done|].
  by eapply laid_elems_string_properties.
Qed.

(** X17.  An object literal of string properties.  For an object literal
    laid out in the store whose properties are [P] string properties, and an
    engine that throws for none of them, [generatesAlchemy] calls the engine
    exactly [P] times: once for each property, in the order of the
    properties, with the name of the key, the JSON text of the value with its
    double quotes turned into single quotes, the flag, the file path and the
    empty pseudo-group.  It returns with nothing written to the console and,
    in the store, the same object literal where the text of each property is
    the answer of the engine, or the text of before when the answer is
    empty. *)
Theorem generatesAlchemy_flat_literal {EngineState : Type}
    (alchemyProcessing : call -> EngineState -> option string * EngineState)
    (isModular : tree) (filePath : option string)
    (a b : nat) (root : val) (t : tree) (props : list (string * string))
    (answers : list string) (e' : EngineState) (s : state EngineState) :
  laid (heap s) a b root t ->
  flat_literal props t ->
  engine_answers alchemyProcessing (map (property_call isModular filePath) props) (engine s)
  = Some (answers, e') ->
  exists s' t',
    generatesAlchemy alchemyProcessing isModular filePath root s = (Ok tt, s') /\
    calls s' = calls s ++ map (property_call isModular filePath) props /\
    engine s' = e' /\ console s' = console s /\
    usedObjects s' = usedObjects s /\ transformedNodes s' = transformedNodes s /\
    (forall l, ~ (a <= l < b) -> heap s' !! l = heap s !! l) /\
    laid (heap s') a b root t' /\
    flat_literal (substituted props answers) t'.
Proof. apply flat_literal_transformed. Qed.

Lemma string_property_objectProperty name text :
  string_property name text (objectProperty name (stringLiteral text)).
Proof.
  unfold objectProperty, stringLiteral, identifier, node. eexists _, _, _.
  split; [reflexivity|]. split; [reflexivity|]. split; [reflexivity|]. split; [reflexivity|].
  split; [reflexivity|]. split; reflexivity.
Qed.

Lemma flat_literal_objectExpression (props : list (string * string)) :
  flat_literal props
    (objectExpression (map (fun nt : string * string =>
                              objectProperty (fst nt) (stringLiteral (snd nt))) props)).
Proof.
  unfold objectExpression, node. eexists _, _.
  split; [reflexivity|]. split; [reflexivity|]. split; [reflexivity|].
  induction props as [|nt props IH]; constructor; [|done].
  apply string_property_objectProperty.
Qed.

Lemma generatesAlchemy_flat_literal_witness :
  exists s' t',
    generatesAlchemy engine_concat (TBool false) (Some "/app/src/a.js")
                     (fst (alloc two_properties []))
                     (initial_state tt (snd (alloc two_properties []))) = (Ok tt, s') /\
    calls s' = calls (initial_state tt (snd (alloc two_properties [])))
               ++ map (property_call (TBool false) (Some "/app/src/a.js")) [("a", "x"); ("b", "y")] /\
    engine s' = tt /\
    console s' = console (initial_state tt (snd (alloc two_properties []))) /\
    usedObjects s' = usedObjects (initial_state tt (snd (alloc two_properties []))) /\
    transformedNodes s' = transformedNodes (initial_state tt (snd (alloc two_properties []))) /\
    (forall l, ~ (0 <= l < length (snd (alloc two_properties []))) ->
               heap s' !! l = heap (initial_state tt (snd (alloc two_properties []))) !! l) /\
    laid (heap s') 0 (length (snd (alloc two_properties []))) (fst (alloc two_properties [])) t' /\
    flat_literal (substituted [("a", "x"); ("b", "y")]
                              ["a_" +:+ json_quote "x"; "b_" +:+ json_quote "y"]) t'.
Proof.
  refine (generatesAlchemy_flat_literal engine_concat (TBool false) (Some "/app/src/a.js")
            0 (length (snd (alloc two_properties []))) (fst (alloc two_properties []))
            two_properties [("a", "x"); ("b", "y")]
            ["a_" +:+ json_quote "x"; "b_" +:+ json_quote "y"] tt
            (initial_state tt (snd (alloc two_properties []))) _ _ _).
  - apply (proj2 (alloc_laid two_properties [] _ _ (surjective_pairing _))).
  - apply (flat_literal_objectExpression [("a", "x"); ("b", "y")]).
  - vm_compute. reflexivity.
Defined.

(** *** A failure of the engine within an object literal of string
    properties *)

Lemma laid_elems_cells h a b vs ts :
  laid_elems h a b vs ts ->
  forall props : list (string * string),
    Forall2 (fun (nt : string * string) p => string_property (fst nt) (snd nt) p) props ts ->
    Forall2 (fun v (nt : string * string) =>
               exists lp lk lv, v = VRef lp /\ a <= lk < b /\ a <= lv < b /\ a <= lp < b /\
                                property_cells h lp lk lv (fst nt) (snd nt)) vs props.
Proof.
  induction 1 as [|a m b v t vs ts L1 L2 IH]; intros props F.
  - inversion F; subst. constructor.
  - inversion F as [|nt p props' ts' Hp F']; subst.
    pose proof (laid_range _ _ _ _ _ L1) as R1. pose proof (laid_elems_range _ _ _ _ _ L2) as R2.
    destruct (laid_property_cells _ _ _ _ _ _ _ L1 Hp) as (lp & lk & lv & -> & -> & Hlk & Hlv & Hc).
    constructor.
    + exists lp, lk, lv. split; [done|]. split; [lia|]. split; [lia|]. split; [lia|]. done.
    + eapply Forall2_impl; [exact (IH _ F')|].
      intros x y (lp' & lk' & lv' & -> & ? & ? & ? & ?). exists lp', lk', lv'.
      split; [done|]. split; [lia|]. split; [lia|]. split; [lia|]. done.
Qed.

Section FlatFailure.
Context {EngineState : Type}.
Variable alchemyProcessing : call -> EngineState -> option string * EngineState.
Variable isModular : tree.
Variable filePath : option string.

(** The loop of [generatesAlchemy] over string properties, the engine
    throwing for one of them: the properties before it hold the answers,
    this one and the ones after it are as they were. *)
Lemma loop_string_properties_failing h0 a b vs ts :
  laid_elems h0 a b vs ts ->
  forall done failing rest (s : state EngineState) answers e1,
    Forall2 (fun (nt : string * string) p => string_property (fst nt) (snd nt) p)
            (done ++ failing :: rest) ts ->
    agree_on a b h0 (heap s) ->
    engine_answers alchemyProcessing (map (property_call isModular filePath) done) (engine s)
    = Some (answers, e1) ->
    fst (alchemyProcessing (property_call isModular filePath failing) e1) = None ->
    exists s',
      for_each vs (property_step alchemyProcessing isModular filePath) s
      = (Throw EngineFailure, s') /\
      calls s' = calls s ++ map (property_call isModular filePath) (done ++ [failing]) /\
      engine s' = snd (alchemyProcessing (property_call isModular filePath failing) e1) /\
      usedObjects s' = usedObjects s /\
      transformedNodes s' = transformedNodes s /\ console s' = console s /\
      same_shape (heap s) (heap s') /\
      (forall l, ~ (a <= l < b) -> heap s' !! l = heap s !! l) /\
      Forall2 (fun v (nt : string * string) =>
                 exists lp lk lv, v = VRef lp /\ a <= lk < b /\ a <= lv < b /\ a <= lp < b /\
                                  property_cells (heap s') lp lk lv (fst nt) (snd nt))
              vs (substituted done answers ++ failing :: rest).
Proof.
  induction 1 as [|a m b v t vs ts L1 L2 IH]; intros done failing rest s answers e1 F A E Hfail.
  - destruct done; inversion F.
  - pose proof (laid_range _ _ _ _ _ L1) as R1. pose proof (laid_elems_range _ _ _ _ _ L2) as R2.
    assert (L1' : laid (heap s) a m v t).
    { eapply laid_agree; [exact L1|]. eapply agree_on_sub; [exact A|lia|lia]. }
    destruct done as [|nt done'].
    + cbn [app] in F. inversion F as [|nt p props' ts' Hp F']; subst.
      cbn [map engine_answers] in E. injection E as <- <-.
      destruct (laid_property_cells _ _ _ _ _ _ _ L1' Hp)
        as (lp & lk & lv & -> & -> & Hlk & Hlv & Hc).
      pose proof Hc as (N1 & N2 & pvs & kvs & vvs & Hp1 & Hk1 & Hv1 & Hlk1 & Hkt & Hkn & Hlv1
                        & Hvt & Hvv).
      pose proof (property_step_string alchemyProcessing isModular filePath s lp lk lv pvs kvs vvs
                    (VStr (fst failing)) (snd failing) Hp1 Hk1 Hv1 Hlk1 Hkt Hkn Hlv1 Hvt Hvv)
        as Estep.
      unfold literal_outcome in Estep. fold (property_call isModular filePath failing) in Estep.
      rewrite Hfail in Estep.
      eexists. split.
      { cbn [for_each]. unfold bind. rewrite Estep. reflexivity. }
      unfold after_call. cbn [calls engine usedObjects transformedNodes console heap app map
                              substituted zip_with].
      split; [done|]. split; [done|]. split; [done|]. split; [done|]. split; [done|].
      split; [apply same_shape_refl|]. split; [done|].
      constructor.
      * exists lp, lk, lv. split; [done|]. split; [lia|]. split; [lia|]. split; [lia|]. done.
      * assert (L2' : laid_elems (heap s) (S lp) b vs ts).
        { eapply laid_elems_agree; [exact L2|]. eapply agree_on_sub; [exact A|lia|lia]. }
        eapply Forall2_impl; [exact (laid_elems_cells _ _ _ _ _ L2' _ F')|].
        intros x y (lp' & lk' & lv' & -> & ? & ? & ? & ?). exists lp', lk', lv'.
        split; [done|]. split; [lia|]. split; [lia|]. split; [lia|]. done.
    + cbn [app] in F. inversion F as [|nt' p props' ts' Hp F']; subst.
      cbn [map engine_answers] in E.
      destruct (alchemyProcessing (property_call isModular filePath nt) (engine s))
        as [[answer|] e0] eqn:Ecall; [|done].
      destruct (engine_answers alchemyProcessing (map (property_call isModular filePath) done') e0)
        as [[answers' e'']|] eqn:Erest; [|done].
      injection E as <- <-.
      destruct (laid_property_cells _ _ _ _ _ _ _ L1' Hp)
        as (lp & lk & lv & -> & -> & Hlk & Hlv & Hc).
      pose proof Hc as (N1 & N2 & pvs & kvs & vvs & Hp1 & Hk1 & Hv1 & Hlk1 & Hkt & Hkn & Hlv1
                        & Hvt & Hvv).
      pose proof (property_step_string alchemyProcessing isModular filePath s lp lk lv pvs kvs vvs
                    (VStr (fst nt)) (snd nt) Hp1 Hk1 Hv1 Hlk1 Hkt Hkn Hlv1 Hvt Hvv) as Estep.
      unfold literal_outcome in Estep. fold (property_call isModular filePath nt) in Estep.
      rewrite Ecall in Estep. cbn [fst] in Estep.
      set (s1 := after_call alchemyProcessing (property_call isModular filePath nt)
                   (replace_nonempty lv "value" answer (heap s)) s) in *.
      assert (He1 : engine s1 = e0) by (unfold s1, after_call; cbn [engine]; by rewrite Ecall).
      destruct (IH done' failing rest s1 answers' e'' F')
        as (s' & Ef & Hcalls & He & Hu & Hn & Hcon & Hsh & Hfr & Hall).
      { intros l Hl. rewrite (A l) by lia. unfold s1, after_call. cbn [heap].
        symmetry. apply replace_nonempty_lookup_ne. lia. }
      { by rewrite He1. }
      { done. }
      exists s'. split.
      { cbn [for_each]. unfold bind. by rewrite Estep. }
      split.
      { rewrite Hcalls. unfold s1, after_call. cbn [calls map app]. by rewrite <- app_assoc. }
      split; [done|]. split; [by rewrite Hu|]. split; [by rewrite Hn|]. split; [by rewrite Hcon|].
      split.
      { eapply same_shape_trans; [|exact Hsh]. unfold s1, after_call. cbn [heap].
        by eapply replace_nonempty_shape. }
      split.
      { intros l Hl. rewrite Hfr by lia. unfold s1, after_call. cbn [heap].
        apply replace_nonempty_lookup_ne. lia. }
      cbn [substituted zip_with app]. constructor.
      * exists lp, lk, lv. split; [done|]. split; [lia|]. split; [lia|]. split; [lia|].
        cbn [fst snd].
        eapply property_cells_stable; [apply (property_cells_written _ _ _ _ _ _ answer Hc)| | |];
          rewrite Hfr by lia; done.
      * eapply Forall2_impl; [exact Hall|].
        intros x y (lp' & lk' & lv' & -> & ? & ? & ? & ?). exists lp', lk', lv'.
        split; [done|]. split; [lia|]. split; [lia|]. split; [lia|]. done.
Qed.

(** [generatesAlchemy] on an object literal of string properties, the
    engine throwing for one of them. *)
Lemma flat_literal_failing a b root t done failing rest answers e1 (s : state EngineState) :
  laid (heap s) a b root t ->
  flat_literal (done ++ failing :: rest) t ->
  engine_answers alchemyProcessing (map (property_call isModular filePath) done) (engine s)
  = Some (answers, e1) ->
  fst (alchemyProcessing (property_call isModular filePath failing) e1) = None ->
  exists s' t',
    generatesAlchemy alchemyProcessing isModular filePath root s = (Ok tt, s') /\
    calls s' = calls s ++ map (property_call isModular filePath) (done ++ [failing]) /\
    engine s' = snd (alchemyProcessing (property_call isModular filePath failing) e1) /\
    console s' = console s ++ [EngineFailure] /\
    laid (heap s') a b root t' /\
    flat_literal (substituted done answers ++ failing :: rest) t'.
Proof.
  intros L (fs & ps & -> & Hty & Hps & F) E Hfail.
  destruct (laid_node_inv _ _ _ _ _ L I) as (l & -> & ->).
  destruct (laid_cell _ _ _ _ _ L) as (fvs & Hl & _ & Ff).
  destruct (Ff _ _ Hty) as (vty & ? & ? & Hvty & Lty & _). apply laid_str_inv in Lty as ->.
  destruct (Ff _ _ Hps) as (vps & ap & bp & Hvps & Lps & Hap & Hbp).
  destruct (laid_node_inv _ _ _ _ _ Lps I) as (lps & -> & ->).
  destruct (laid_ref_inv _ _ _ _ _ Lps) as [_ [(? & ? & [=] & _)|(vs & ps' & [= <-] & Hlps & Le)]].
  destruct (loop_string_properties_failing (heap s) ap lps vs ps Le
              done failing rest s answers e1 F (agree_on_refl _ _ _) E Hfail)
    as (s' & Ef & Hcalls & He & Hu & Hn & Hcon & Hsh & Hfr & Hall).
  destruct (laid_shape _ _ _ _ _ _ Hsh L) as (t' & L').
  exists (State (heap s') (usedObjects s') (transformedNodes s') (engine s') (calls s')
                (console s' ++ [EngineFailure])), t'.
  cbn [heap calls engine console].
  split.
  { unfold generatesAlchemy, try_catch, get, read.
    unfold bind at 1. cbn [fst snd]. unfold type_is, field_is.
    rewrite (get_field_obj _ _ _ _ Hl), Hvty. cbn [or_undef String.eqb Ascii.eqb Bool.eqb negb].
    unfold bind at 1. unfold bind at 1. cbn [get_path].
    rewrite (get_field_obj _ _ _ _ Hl), Hvps. cbn [or_undef iterate]. rewrite Hlps.
    by rewrite Ef. }
  split; [done|]. split; [done|]. split; [by rewrite Hcon|]. split; [done|].
  assert (Hl' : heap s' !! l = Some (OObj fvs)) by (rewrite Hfr by lia; done).
  assert (Hlps' : heap s' !! lps = Some (OArr vs)) by (rewrite Hfr by lia; done).
  destruct (laid_cell_back _ _ _ _ _ _ L' Hl') as (fs' & -> & Fb).
  destruct (Fb _ _ Hvty) as (t1 & ? & ? & H1 & L1). apply laid_str_inv' in L1 as ->.
  destruct (Fb _ _ Hvps) as (t2 & ? & ? & H2 & L2).
  destruct (laid_ref_inv _ _ _ _ _ L2) as [_ [(? & ? & _ & Hbad & _)|(vs' & ps2 & -> & Hlps2 & Le2)]];
    [congruence|].
  assert (vs' = vs) as -> by congruence.
  exists fs', ps2. split; [done|]. split; [done|]. split; [done|].
  by eapply laid_elems_string_properties.
Qed.

End FlatFailure.

(** *** The walk over an object literal of string properties *)

Lemma walk_child h a b v t c :
  laid h a b v t -> c ∈ own_values h v -> (exists l, c = VRef l) ->
  exists tc a' b', laid h a' b' c tc /\ tc ∈ children t.
Proof.
  intros L Hc (lc & ->).
  destruct v as [| | | | |l];
    try (exfalso; refine (own_values_prim_refs h _ (VRef lc) _ Hc lc eq_refl); by intros ?).
  assert (Hgen : forall a m vs ts, laid_elems h a m vs ts -> VRef lc ∈ vs ->
                   exists tc a' b', laid h a' b' (VRef lc) tc /\ tc ∈ ts).
  { clear. intros a m vs ts Le Hin. apply list_elem_of_lookup in Hin as (i & Hi).
    pose proof (laid_elems_lookup _ _ _ _ _ Le i) as H.
    destruct (ts !! i) as [tc|] eqn:Et; [|congruence].
    destruct H as (v & a' & b' & Hv & Lv & _). assert (v = VRef lc) as -> by congruence.
    exists tc, a', b'. split; [done|]. by eapply list_elem_of_lookup_2. }
  destruct (laid_ref_inv _ _ _ _ _ L) as [_ [(fvs & fs & -> & Hl & _ & Le)|(vs & ts & -> & Hl & Le)]];
    cbn [own_values] in Hc; rewrite Hl in Hc; by eapply Hgen.
Qed.

Lemma no_object_literal_child t tc :
  no_object_literal t = true -> tc ∈ children t -> no_object_literal tc = true.
Proof.
  destruct t as [| | | | |fs|es]; cbn [children]; try (by intros _ ?%elem_of_nil).
  - cbn [no_object_literal]. intros [_ H]%andb_true_iff Hin.
    apply list_elem_of_In, in_map_iff in Hin as ([k x] & <- & Hin).
    by apply (proj1 (forallb_forall _ _) H (k, x)).
  - cbn [no_object_literal]. intros H Hin. apply list_elem_of_In in Hin.
    by apply (proj1 (forallb_forall _ _) H).
Qed.

Lemma no_object_literal_type h a b v t :
  laid h a b v t -> no_object_literal t = true -> type_is h v "ObjectExpression" = false.
Proof.
  intros L H. unfold type_is. rewrite (laid_field_is _ _ _ _ _ _ _ L).
  destruct t as [| | | | |fs|es]; try done.
  cbn [no_object_literal] in H. apply andb_true_iff in H as [H _]. by apply negb_true_iff in H.
Qed.

Lemma no_object_literal_reach h v x :
  rtc (walk_edge h) v x ->
  forall a b t, laid h a b v t -> no_object_literal t = true ->
                type_is h x "ObjectExpression" = false.
Proof.
  induction 1 as [v|v c x (Hc & Hl & _) _ IH]; intros a b t L H.
  - by eapply no_object_literal_type.
  - destruct (walk_child _ _ _ _ _ _ L Hc Hl) as (tc & a' & b' & Lc & Hin).
    eapply IH; [exact Lc|]. by eapply no_object_literal_child.
Qed.

Section WalkFlat.
Context {EngineState : Type}.
Variable alchemyProcessing : call -> EngineState -> option string * EngineState.
Variable isModular : tree.
Variable filePath : option string.

(** A walk over nodes none of which is an object literal does nothing. *)
Lemma walk_loop_inert fuel stack visited (s : state EngineState) :
  dfs fuel (heap s) stack = Some visited ->
  Forall (fun x => type_is (heap s) x "ObjectExpression" = false) visited ->
  walk_loop alchemyProcessing isModular filePath fuel stack s = (Ok visited, s).
Proof.
  revert stack visited. induction fuel as [|fuel IH]; intros [|node stack] visited Hd Hall;
    try (by injection Hd as <-); try done.
  cbn [dfs] in Hd.
  destruct (dfs fuel (heap s) (push_children (heap s) node stack)) as [rest|] eqn:Er; [|done].
  injection Hd as <-. inversion Hall as [|? ? Hnode Hrest]; subst.
  cbn [walk_loop]. unfold bind, read.
  assert (E : generatesAlchemy alchemyProcessing isModular filePath node s = (Ok tt, s))
    by (unfold generatesAlchemy, try_catch, bind, read; by rewrite Hnode).
  rewrite E. by rewrite (IH _ _ Er Hrest).
Qed.

End WalkFlat.

Section WalkFlatBlock.
Context {EngineState : Type}.
Variable alchemyProcessing : call -> EngineState -> option string * EngineState.
Variable isModular : tree.
Variable filePath : option string.

(** The walk from an object literal that leads to no other object literal:
    what [generatesAlchemy] does at the root is all that is done. *)
Lemma walk_literal fuel a b l fs (s s1 : state EngineState) :
  laid (heap s) a b (VRef l) (TObj fs) ->
  assoc "type" fs = Some (TStr "ObjectExpression") ->
  walked_plain (TObj fs) = true ->
  generatesAlchemy alchemyProcessing isModular filePath (VRef l) s = (Ok tt, s1) ->
  b - a <= fuel ->
  same_shape (heap s) (heap s1) /\
  exists visited,
    walkThroughOutAst alchemyProcessing isModular filePath fuel (VRef l) s = (Ok visited, s1).
Proof.
  intros L Hty Hplain Eg Hfuel.
  destruct (generatesAlchemy_ok alchemyProcessing isModular filePath 0 (VRef l) s)
    as (s1' & Eg' & Hok); [apply okv_0|apply closed_from_0|].
  assert (s1' = s1) as -> by congruence.
  pose proof (ok_shape _ _ _ _ _ Hok) as Hsh. split; [exact Hsh|].
  destruct (proj1 (laid_walks_mut (heap s)) _ _ _ _ L l eq_refl) as (wl & W & ND & Fr & M).
  pose proof (refs_length _ _ _ ND Fr) as Hlen.
  pose proof (W (fuel - length wl) []) as Hd.
  replace (length wl + (fuel - length wl)) with fuel in Hd by lia.
  replace (dfs (fuel - length wl) (heap s) []) with (Some (@nil val)) in Hd
    by (by destruct (fuel - length wl)).
  cbn [option_map] in Hd. rewrite app_nil_r in Hd.
  destruct fuel as [|n]; [done|]. cbn [dfs] in Hd.
  destruct (dfs n (heap s) (push_children (heap s) (VRef l) [])) as [rest|] eqn:Er; [|done].
  injection Hd as <-.
  exists (VRef l :: rest).
  unfold walkThroughOutAst, try_catch. cbn [walk_loop]. unfold bind at 1. rewrite Eg.
  unfold bind at 1. unfold read at 1. cbn [fst snd]. unfold bind.
  rewrite (walk_loop_inert alchemyProcessing isModular filePath n _ rest s1); [done| |].
  - by rewrite (dfs_shape _ _ _ _ Hsh), (push_children_shape _ _ _ _ Hsh).
  - apply Forall_forall. intros x Hx. rewrite (type_is_shape _ _ _ _ Hsh).
    assert (Hne : x <> VRef l) by (intros ->; by inversion ND).
    assert (Hr : rtc (walk_edge (heap s)) (VRef l) x) by (apply M; by right).
    apply rtc_inv in Hr as [Heq|(c & Hedge & Hcx)]; [congruence|].
    pose proof Hedge as (Hc & Hl & Hnot).
    destruct (walk_child _ _ _ _ _ _ L Hc Hl) as (tc & a' & b' & Lc & Hin).
    eapply no_object_literal_reach; [exact Hcx|exact Lc|].
    cbn [children] in Hin. apply list_elem_of_In, in_map_iff in Hin as ([k tc'] & Hk & Hin).
    cbn [snd] in Hk. subst tc'.
    cbn [walked_plain] in Hplain.
    pose proof (proj1 (forallb_forall _ _) Hplain (k, tc) Hin) as Hp. cbn [snd] in Hp.
    destruct tc as [| | | | | |es]; try done.
    exfalso. apply Hnot. split.
    + unfold type_is. rewrite (laid_field_is _ _ _ _ _ _ _ L).
      unfold tree_field_is, tree_field. by rewrite Hty.
    + destruct Hl as (lc & ->).
      destruct (laid_ref_inv _ _ _ _ _ Lc) as [_ [(? & ? & [=] & _)|(vs & ? & _ & Hlc & _)]].
      unfold isArray. by rewrite Hlc.
Qed.

End WalkFlatBlock.

Section VisitFlat.
Context {EngineState : Type}.
Variable alchemyProcessing : call -> EngineState -> option string * EngineState.
Variable generatesHashingHex : string -> bool -> bool -> string.
Variable resolve : string -> string.
Variables exclude isModular : tree.
Variable fuel : nat.

(** The first occurrence of an object literal that leads to no other object
    literal: the visit leaves the engine, its calls and the console as
    [generatesAlchemy] leaves them at the body, and the body reads as
    [generatesAlchemy] leaves it. *)
Lemma visit_literal site fs (s : state EngineState) :
  excluded resolve exclude (fst site) = Ok false ->
  tracked (snd site) (TObj fs) ->
  assoc "type" fs = Some (TStr "ObjectExpression") ->
  walked_plain (TObj fs) = true ->
  tsize (snd site) <= fuel ->
  fingerprint generatesHashingHex (to_json (TObj fs)) ∉ usedObjects s ->
  let s' := after alchemyProcessing generatesHashingHex resolve exclude isModular fuel site s in
  exists body_v a b s0 s2,
    engine s0 = engine s /\ calls s0 = calls s /\ console s0 = console s /\
    laid (heap s0) a b body_v (TObj fs) /\
    generatesAlchemy alchemyProcessing isModular (fst site) body_v s0 = (Ok tt, s2) /\
    calls s' = calls s2 /\ engine s' = engine s2 /\ console s' = console s2 /\
    site_body (heap s') (node_at alchemyProcessing generatesHashingHex resolve exclude
                                 isModular fuel site s) = Ok body_v /\
    forall t', laid (heap s2) a b body_v t' -> reify_store (heap s') body_v = Some t'.
Proof.
  intros Hx Ht Hty Hplain Hfuel Hu.
  unfold after, node_at, visit.
  destruct (alloc (snd site) (heap s)) as [node h1] eqn:Ea. cbn [fst snd].
  destruct (alloc_laid _ _ _ _ Ea) as [P1 L1].
  pose proof (alloc_length _ _ _ _ Ea) as Hlen1.
  destruct (CallExpression_tracked alchemyProcessing generatesHashingHex resolve exclude
              isModular fuel _ _ node (snd site) (TObj fs) (fst site) (set_heap h1 s) Hx L1 Ht)
    as (l & la & lcb & body_v & ab & bb & -> & Hb & Hloc & Lb & Hab & Hbb & Ev).
  pose proof (laid_range _ _ _ _ _ Lb) as Hrb.
  pose proof Hloc as (_ & _ & _ & Hlt).
  cbn [heap set_heap] in Hb, Hab, Hlt.
  destruct (laid_node_inv _ _ _ _ _ Lb I) as (lb & -> & ->).
  destruct (generatesAlchemy_ok alchemyProcessing isModular (fst site) 0 (VRef lb) (set_heap h1 s))
    as (s2 & Eg & _); [apply okv_0|apply closed_from_0|].
  destruct (walk_literal alchemyProcessing isModular (fst site) fuel ab (S lb) lb fs
              (set_heap h1 s) s2 Lb Hty Hplain Eg) as (Hsh & wl & Ew); [lia|].
  destruct (laid_shape _ _ _ _ _ _ Hsh Lb) as (t2 & L2).
  pose proof (located_shape _ _ _ _ _ _ Hsh Hloc) as Hloc2.
  pose proof Hloc as (_ & _ & (cfs & Hcb & Hbody) & _).
  pose proof Hloc2 as (_ & _ & (cfs2 & Hcb2 & Hbody2) & _).
  rewrite Ev. unfold try_catch, cache_protocol, bind.
  rewrite bool_decide_eq_false_2 by done.
  unfold transform_and_save, bind, get, read. cbn [get_path].
  rewrite (get_field_obj _ _ _ _ Hcb), Hbody. cbn [or_undef]. rewrite Ew.
  rewrite (get_field_obj _ _ _ _ Hcb2), Hbody2. cbn [or_undef].
  unfold cloneDeep. rewrite (laid_reify_store _ _ _ _ _ L2).
  destruct (alloc t2 (heap s2)) as [copy h3] eqn:Ec. cbn [save fst snd calls engine heap console].
  destruct (alloc_laid _ _ _ _ Ec) as [P3 _].
  assert (A3 : agree_on 0 (length (heap s2)) (heap s2) h3)
    by (by apply agree_on_sym, agree_on_prefix).
  pose proof (same_shape_length _ _ Hsh) as Hlen2. cbn [heap set_heap] in Hlen2.
  exists (VRef lb), ab, (S lb), (set_heap h1 s), s2.
  split; [done|]. split; [done|]. split; [done|]. split; [exact Lb|]. split; [exact Eg|].
  split; [done|]. split; [done|]. split; [done|]. split.
  - apply (located_site_body _ l la lcb).
    eapply located_agree; [|exact Hloc2]. eapply agree_on_sub; [exact A3|lia|lia].
  - intros t' L'. eapply laid_reify_store, laid_agree; [exact L'|].
    eapply agree_on_sub; [exact A3|lia|lia].
Qed.

(** The first occurrence of a block of string properties: the calls are
    those of its properties. *)
Lemma visit_flat site body props answers e' (s : state EngineState) :
  excluded resolve exclude (fst site) = Ok false ->
  tracked (snd site) body -> flat_literal props body -> walked_plain body = true ->
  tsize (snd site) <= fuel ->
  fingerprint generatesHashingHex (to_json body) ∉ usedObjects s ->
  engine_answers alchemyProcessing (map (property_call isModular (fst site)) props) (engine s)
  = Some (answers, e') ->
  let s' := after alchemyProcessing generatesHashingHex resolve exclude isModular fuel site s in
  calls s' = calls s ++ map (property_call isModular (fst site)) props /\
  engine s' = e' /\ console s' = console s /\
  exists body_v t',
    site_body (heap s') (node_at alchemyProcessing generatesHashingHex resolve exclude
                                 isModular fuel site s) = Ok body_v /\
    reify_store (heap s') body_v = Some t' /\
    flat_literal (substituted props answers) t'.
Proof.
  intros Hx Ht Hflat Hplain Hfuel Hu E.
  pose proof Hflat as (fs & ps & -> & Hty & _).
  destruct (visit_literal site fs s Hx Ht Hty Hplain Hfuel Hu)
    as (body_v & a & b & s0 & s2 & He0 & Hc0 & Hcon0 & L & Eg & Hc & He & Hcon & Hb & Hr).
  rewrite <- He0 in E.
  destruct (flat_literal_transformed alchemyProcessing isModular (fst site) a b body_v _ props
              answers e' s0 L Hflat E)
    as (s2' & t' & Eg' & Hcalls & He' & Hcon' & _ & _ & _ & L' & Hflat').
  assert (s2' = s2) as -> by congruence.
  cbn zeta. rewrite Hc, He, Hcon, Hcalls, He', Hcon', Hc0, Hcon0.
  split; [done|]. split; [done|]. split; [done|].
  exists body_v, t'. split; [exact Hb|]. split; [by apply Hr|done].
Qed.

(** The first occurrence of a block of string properties, the engine
    throwing for one of them. *)
Lemma visit_flat_failing site body done failing rest answers e1 (s : state EngineState) :
  excluded resolve exclude (fst site) = Ok false ->
  tracked (snd site) body -> flat_literal (done ++ failing :: rest) body ->
  walked_plain body = true ->
  tsize (snd site) <= fuel ->
  fingerprint generatesHashingHex (to_json body) ∉ usedObjects s ->
  engine_answers alchemyProcessing (map (property_call isModular (fst site)) done) (engine s)
  = Some (answers, e1) ->
  fst (alchemyProcessing (property_call isModular (fst site) failing) e1) = None ->
  let s' := after alchemyProcessing generatesHashingHex resolve exclude isModular fuel site s in
  calls s' = calls s ++ map (property_call isModular (fst site)) (done ++ [failing]) /\
  engine s' = snd (alchemyProcessing (property_call isModular (fst site) failing) e1) /\
  console s' = console s ++ [EngineFailure] /\
  exists body_v t',
    site_body (heap s') (node_at alchemyProcessing generatesHashingHex resolve exclude
                                 isModular fuel site s) = Ok body_v /\
    reify_store (heap s') body_v = Some t' /\
    flat_literal (substituted done answers ++ failing :: rest) t'.
Proof.
  intros Hx Ht Hflat Hplain Hfuel Hu E Hfail.
  pose proof Hflat as (fs & ps & -> & Hty & _).
  destruct (visit_literal site fs s Hx Ht Hty Hplain Hfuel Hu)
    as (body_v & a & b & s0 & s2 & He0 & Hc0 & Hcon0 & L & Eg & Hc & He & Hcon & Hb & Hr).
  rewrite <- He0 in E.
  destruct (flat_literal_failing alchemyProcessing isModular (fst site) a b body_v _ done failing
              rest answers e1 s0 L Hflat E Hfail)
    as (s2' & t' & Eg' & Hcalls & He' & Hcon' & L' & Hflat').
  assert (s2' = s2) as -> by congruence.
  cbn zeta. rewrite Hc, He, Hcon, Hcalls, He', Hcon', Hc0, Hcon0.
  split; [done|]. split; [done|]. split; [done|].
  exists body_v, t'. split; [exact Hb|]. split; [by apply Hr|done].
Qed.

End VisitFlat.

(** ** A block of string properties over a run *)

(** X18.  A process starts with an empty cache; [first] is the first
    occurrence, in a file that is not excluded, of a callback whose body is an
    object literal of the string properties [props] (and holds no other object
    literal), and the engine answers the calls for these properties.  With
    [first] followed by any number of occurrences of the same fingerprint,
    the engine calls of the run are one for each property of the block, in
    order and with the file of [first], and no more; the engine ends in the
    state these calls leave, and the body of [first] then reads as the
    literal with the answers that are not empty in place of the texts. *)
Theorem flat_block_transformed_once {EngineState : Type}
    (alchemyProcessing : call -> EngineState -> option string * EngineState)
    (generatesHashingHex : string -> bool -> bool -> string)
    (resolve : string -> string) (exclude isModular : tree) (fuel : nat)
    (e : EngineState) (h0 : list obj)
    (before others : list (option string * tree)) (first : option string * tree)
    (body : tree) (props : list (string * string)) (answers : list string) (e' : EngineState) :
  let run := run alchemyProcessing generatesHashingHex resolve exclude isModular fuel in
  let after := after alchemyProcessing generatesHashingHex resolve exclude isModular fuel in
  let node_at := node_at alchemyProcessing generatesHashingHex resolve exclude isModular fuel in
  let s1 := run before (initial_state e h0) in
  Forall (admissible resolve exclude fuel) before ->
  excluded resolve exclude (fst first) = Ok false ->
  tracked (snd first) body -> tsize (snd first) <= fuel ->
  flat_literal props body -> walked_plain body = true ->
  (fingerprint generatesHashingHex (to_json body) ∉ usedObjects s1) ->
  engine_answers alchemyProcessing (map (property_call isModular (fst first)) props) (engine s1)
  = Some (answers, e') ->
  Forall (occurrence generatesHashingHex resolve exclude fuel
                     (fingerprint generatesHashingHex (to_json body))) others ->
  calls (run (first :: others) s1)
  = calls s1 ++ map (property_call isModular (fst first)) props /\
  engine (run (first :: others) s1) = e' /\
  exists body1 t',
    site_body (heap (after first s1)) (node_at first s1) = Ok body1 /\
    reify_store (heap (after first s1)) body1 = Some t' /\
    flat_literal (substituted props answers) t'.
Proof.
  intros run0 after0 node0 s1 Hbefore Hx Ht Hfuel Hflat Hplain Hf E Hothers.
  destruct (run_admissible alchemyProcessing generatesHashingHex resolve exclude isModular fuel
              before (initial_state e h0) Hbefore (cache_ok_initial e h0)) as [_ Hok1].
  assert (Hfirst : occurrence generatesHashingHex resolve exclude fuel
                     (fingerprint generatesHashingHex (to_json body)) first)
    by (split; [exact Hx|]; by exists body).
  destruct (first_occurrence alchemyProcessing generatesHashingHex resolve exclude isModular fuel
              _ first s1 Hok1 Hf Hfirst)
    as (body0 & lc & tc & made & _ & Hok1' & _ & _ & _ & _ & Hpin).
  destruct (Hpin (after0 first s1) (grows_refl _)) as (Hin1 & _).
  destruct (visit_flat alchemyProcessing generatesHashingHex resolve exclude isModular fuel
              first body props answers e' s1 Hx Ht Hflat Hplain Hfuel Hf E)
    as (Hc & He & _ & Hbody).
  destruct (run_occurrences alchemyProcessing generatesHashingHex resolve exclude isModular
              fuel _ others (after0 first s1) Hok1' Hin1 Hothers) as [Hc' He'].
  change (run0 (first :: others) s1) with (run0 others (after0 first s1)).
  split; [exact (eq_trans Hc' Hc)|]. split; [exact (eq_trans He' He)|]. exact Hbody.
Qed.

Lemma two_properties_call_occurrence file :
  excluded (resolve_in "/app") (TArr [TStr "tests"]) file = Ok false ->
  occurrence hash_identity (resolve_in "/app") (TArr [TStr "tests"]) 100
             (fingerprint hash_identity (to_json two_properties)) (file, two_properties_call).
Proof.
  intros Hx. split; [exact Hx|]. exists two_properties.
  split; [by apply tracked_craftingStyles|]. split; [reflexivity|]. vm_compute. lia.
Qed.

Lemma flat_block_transformed_once_witness :
  let run := run engine_concat hash_identity (resolve_in "/app") (TArr [TStr "tests"])
                 (TBool false) 100 in
  let after := after engine_concat hash_identity (resolve_in "/app") (TArr [TStr "tests"])
                     (TBool false) 100 in
  let node_at := node_at engine_concat hash_identity (resolve_in "/app") (TArr [TStr "tests"])
                         (TBool false) 100 in
  let s1 := run [other_site] (initial_state tt []) in
  calls (run ((Some "/app/src/a.js", two_properties_call)
              :: [(Some "/app/src/b.js", two_properties_call);
                  (Some "/app/src/a.js", two_properties_call)]) s1)
  = calls s1 ++ map (property_call (TBool false) (fst (Some "/app/src/a.js", two_properties_call)))
                    [("a", "x"); ("b", "y")] /\
  engine (run ((Some "/app/src/a.js", two_properties_call)
               :: [(Some "/app/src/b.js", two_properties_call);
                   (Some "/app/src/a.js", two_properties_call)]) s1) = tt /\
  exists body1 t',
    site_body (heap (after (Some "/app/src/a.js", two_properties_call) s1))
              (node_at (Some "/app/src/a.js", two_properties_call) s1) = Ok body1 /\
    reify_store (heap (after (Some "/app/src/a.js", two_properties_call) s1)) body1 = Some t' /\
    flat_literal (substituted [("a", "x"); ("b", "y")]
                              ["a_" +:+ json_quote "x"; "b_" +:+ json_quote "y"]) t'.
Proof.
  refine (flat_block_transformed_once engine_concat hash_identity (resolve_in "/app")
            (TArr [TStr "tests"]) (TBool false) 100 tt [] [other_site]
            [(Some "/app/src/b.js", two_properties_call);
             (Some "/app/src/a.js", two_properties_call)]
            (Some "/app/src/a.js", two_properties_call) two_properties
            [("a", "x"); ("b", "y")] ["a_" +:+ json_quote "x"; "b_" +:+ json_quote "y"] tt
            _ _ _ _ _ _ _ _ _).
  - constructor; [apply other_site_admissible|constructor].
  - vm_compute. reflexivity.
  - apply tracked_craftingStyles. vm_compute. reflexivity.
  - vm_compute. lia.
  - apply (flat_literal_objectExpression [("a", "x"); ("b", "y")]).
  - vm_compute. reflexivity.
  - vm_compute. apply not_elem_of_nil.
  - vm_compute. reflexivity.
  - constructor; [|constructor; [|constructor]];
      (apply two_properties_call_occurrence; vm_compute; reflexivity).
Defined.

(** ** A failure of the engine and the cache *)

(** X19.  A failure of the engine is kept in the cache.  A process starts
    with an empty cache; [first] is the first occurrence of a callback whose
    body is an object literal of string properties (and holds no other
    object literal), and the engine answers for the properties [done] and
    throws for the next one, [failing].  The visit makes the calls for
    [done] and for [failing] and no other, the exception is written to the
    console once, and the body reads as [tokens]: the literal with the
    answers in place of the texts of [done], and [failing] and the
    properties after it as they were.  The fingerprint is then in use: a
    later occurrence, in whatever file and whatever the sites in between,
    makes no engine call, so that is not tried again, and the body of its
    callback reads as [tokens] too. *)
Theorem engine_failure_is_cached {EngineState : Type}
    (alchemyProcessing : call -> EngineState -> option string * EngineState)
    (generatesHashingHex : string -> bool -> bool -> string)
    (resolve : string -> string) (exclude isModular : tree) (fuel : nat)
    (e : EngineState) (h0 : list obj)
    (before : list (option string * tree)) (first : option string * tree)
    (body : tree) (done : list (string * string)) (failing : string * string)
    (rest : list (string * string)) (answers : list string) (e1 : EngineState) :
  let run := run alchemyProcessing generatesHashingHex resolve exclude isModular fuel in
  let after := after alchemyProcessing generatesHashingHex resolve exclude isModular fuel in
  let node_at := node_at alchemyProcessing generatesHashingHex resolve exclude isModular fuel in
  let s1 := run before (initial_state e h0) in
  Forall (admissible resolve exclude fuel) before ->
  excluded resolve exclude (fst first) = Ok false ->
  tracked (snd first) body -> tsize (snd first) <= fuel ->
  flat_literal (done ++ failing :: rest) body -> walked_plain body = true ->
  (fingerprint generatesHashingHex (to_json body) ∉ usedObjects s1) ->
  engine_answers alchemyProcessing (map (property_call isModular (fst first)) done) (engine s1)
  = Some (answers, e1) ->
  fst (alchemyProcessing (property_call isModular (fst first) failing) e1) = None ->
  exists tokens,
    flat_literal (substituted done answers ++ failing :: rest) tokens /\
    calls (after first s1)
    = calls s1 ++ map (property_call isModular (fst first)) (done ++ [failing]) /\
    console (after first s1) = console s1 ++ [EngineFailure] /\
    (fingerprint generatesHashingHex (to_json body) ∈ usedObjects (after first s1)) /\
    (exists body1,
       site_body (heap (after first s1)) (node_at first s1) = Ok body1 /\
       reify_store (heap (after first s1)) body1 = Some tokens) /\
    forall between later,
      Forall (admissible resolve exclude fuel) between ->
      occurrence generatesHashingHex resolve exclude fuel
                 (fingerprint generatesHashingHex (to_json body)) later ->
      let s2 := run between (after first s1) in
      calls (after later s2) = calls s2 /\
      engine (after later s2) = engine s2 /\
      exists body2,
        site_body (heap (after later s2)) (node_at later s2) = Ok body2 /\
        reify_store (heap (after later s2)) body2 = Some tokens.
Proof.
  intros run0 after0 node0 s1 Hbefore Hx Ht Hfuel Hflat Hplain Hf E Hfail.
  destruct (run_admissible alchemyProcessing generatesHashingHex resolve exclude isModular fuel
              before (initial_state e h0) Hbefore (cache_ok_initial e h0)) as [_ Hok1].
  assert (Hfirst : occurrence generatesHashingHex resolve exclude fuel
                     (fingerprint generatesHashingHex (to_json body)) first)
    by (split; [exact Hx|]; by exists body).
  destruct (first_occurrence alchemyProcessing generatesHashingHex resolve exclude isModular fuel
              _ first s1 Hok1 Hf Hfirst)
    as (body0 & lc & tc & made & _ & Hok1' & _ & _ & Hb0 & Hr0 & Hpin).
  destruct (Hpin (after0 first s1) (grows_refl _)) as (Hin1 & _).
  destruct (visit_flat_failing alchemyProcessing generatesHashingHex resolve exclude isModular
              fuel first body done failing rest answers e1 s1 Hx Ht Hflat Hplain Hfuel Hf E Hfail)
    as (Hc & He & Hcon & body1 & tokens & Hb1 & Hr1 & Hflat').
  assert (Eb : Ok body0 = Ok body1) by exact (eq_trans (eq_sym Hb0) Hb1).
  injection Eb as ->.
  assert (Et : Some tc = Some tokens) by exact (eq_trans (eq_sym Hr0) Hr1).
  injection Et as ->.
  exists tokens. split; [exact Hflat'|]. split; [exact Hc|]. split; [exact Hcon|].
  split; [exact Hin1|]. split; [by exists body1|].
  intros between later Hbetween Hlater s2.
  destruct (run_admissible alchemyProcessing generatesHashingHex resolve exclude isModular fuel
              between (after0 first s1) Hbetween Hok1') as [G Hok2].
  destruct (Hpin s2 G) as (Hin2 & Hn2 & Hr2).
  destruct (later_occurrence alchemyProcessing generatesHashingHex resolve exclude isModular fuel
              _ later s2 lc tokens Hok2 Hin2 Hn2 Hr2 Hlater)
    as (copy & _ & _ & _ & _ & He2 & Hc2 & Hb2 & Hrc & _).
  split; [exact Hc2|]. split; [exact He2|]. exists copy. split; [exact Hb2|exact Hrc].
Qed.

Lemma engine_failure_is_cached_witness :
  let run := run engine_failing hash_identity (resolve_in "/app") (TArr [TStr "tests"])
                 (TBool false) 100 in
  let after := after engine_failing hash_identity (resolve_in "/app") (TArr [TStr "tests"])
                     (TBool false) 100 in
  let node_at := node_at engine_failing hash_identity (resolve_in "/app") (TArr [TStr "tests"])
                         (TBool false) 100 in
  let first := (Some "/app/src/a.js", three_properties_call) in
  let s1 := run [] (initial_state tt []) in
  exists tokens,
    flat_literal (substituted [("b", "y")] ["b_" +:+ json_quote "y"] ++ ("a", "x") :: [("c", "z")])
                 tokens /\
    calls (after first s1)
    = calls s1 ++ map (property_call (TBool false) (fst first)) ([("b", "y")] ++ [("a", "x")]) /\
    console (after first s1) = console s1 ++ [EngineFailure] /\
    (fingerprint hash_identity (to_json three_properties) ∈ usedObjects (after first s1)) /\
    (exists body1,
       site_body (heap (after first s1)) (node_at first s1) = Ok body1 /\
       reify_store (heap (after first s1)) body1 = Some tokens) /\
    forall between later,
      Forall (admissible (resolve_in "/app") (TArr [TStr "tests"]) 100) between ->
      occurrence hash_identity (resolve_in "/app") (TArr [TStr "tests"]) 100
                 (fingerprint hash_identity (to_json three_properties)) later ->
      let s2 := run between (after first s1) in
      calls (after later s2) = calls s2 /\
      engine (after later s2) = engine s2 /\
      exists body2,
        site_body (heap (after later s2)) (node_at later s2) = Ok body2 /\
        reify_store (heap (after later s2)) body2 = Some tokens.
Proof.
  refine (engine_failure_is_cached engine_failing hash_identity (resolve_in "/app")
            (TArr [TStr "tests"]) (TBool false) 100 tt [] []
            (Some "/app/src/a.js", three_properties_call) three_properties
            [("b", "y")] ("a", "x") [("c", "z")] ["b_" +:+ json_quote "y"] tt
            _ _ _ _ _ _ _ _ _).
  - constructor.
  - vm_compute. reflexivity.
  - apply tracked_craftingStyles. vm_compute. reflexivity.
  - vm_compute. lia.
  - apply (flat_literal_objectExpression [("b", "y"); ("a", "x"); ("c", "z")]).
  - vm_compute. reflexivity.
  - vm_compute. apply not_elem_of_nil.
  - vm_compute. reflexivity.
  - vm_compute. reflexivity.
Defined.

(** ** Style object literals *)

Lemma same_shape_cell h h' l fvs :
  same_shape h h' -> h !! l = Some (OObj fvs) ->
  exists fvs', h' !! l = Some (OObj fvs') /\
    (forall k v, assoc k fvs = Some v -> erased_key k = false -> assoc k fvs' = Some v) /\
    (forall k l0, assoc k fvs = Some (VRef l0) -> assoc k fvs' = Some (VRef l0)).
Proof.
  intros H Hl. destruct (same_shape_lookup_Some _ _ _ _ H Hl) as (o' & Hl' & Ho).
  simpl in Ho. symmetry in Ho. apply skel_obj_inv in Ho as (fvs' & -> & Hfs).
  exists fvs'. split; [done|].
  assert (E : forall k, erase k <$> assoc k fvs = erase k <$> assoc k fvs')
    by (intros k; by rewrite <- !assoc_erase, Hfs).
  split.
  - intros k v Hk Hne. specialize (E k). rewrite Hk in E.
    destruct (assoc k fvs') as [v'|]; [|done]. simpl in E. injection E as E.
    f_equal. symmetry. by eapply erase_other.
  - intros k l0 Hk. specialize (E k). rewrite Hk in E.
    destruct (assoc k fvs') as [v'|]; [|done]. simpl in E. injection E as E.
    f_equal. unfold erase in E.
    destruct v' as [| | | |x|l1]; try done; try (by destruct (erased_key k)); congruence.
Qed.

Lemma same_shape_arr h h' l vs :
  same_shape h h' -> h !! l = Some (OArr vs) -> h' !! l = Some (OArr vs).
Proof.
  intros H Hl. destruct (same_shape_lookup_Some _ _ _ _ H Hl) as (o' & Hl' & Ho).
  simpl in Ho. symmetry in Ho. apply skel_arr_inv in Ho as ->. done.
Qed.

Lemma outer_key_shape h h' lp group :
  same_shape h h' -> outer_key h lp group -> outer_key h' lp group.
Proof.
  intros H (pfs & lk & kfs & Hp & Hk & Hlk & Hn).
  destruct (same_shape_cell _ _ _ _ H Hp) as (pfs' & Hp' & _ & Hr).
  destruct (same_shape_cell _ _ _ _ H Hlk) as (kfs' & Hlk' & Ho & _).
  exists pfs', lk, kfs'. split; [done|]. split; [by apply Hr|]. split; [done|].
  by apply Ho.
Qed.

(** Two trees laid out from the same values are the same tree. *)
Lemma laid_elems_inj h a b a' b' vs ts ts' :
  laid_elems h a b vs ts -> laid_elems h a' b' vs ts' -> ts = ts'.
Proof.
  intros L L'.
  pose proof (proj2 (laid_depth_mut h) _ _ _ _ L) as D.
  pose proof (proj2 (laid_depth_mut h) _ _ _ _ L') as D'.
  pose proof (proj2 (laid_reify_mut h) _ _ _ _ L (Nat.max (b - a) (b' - a'))) as E.
  pose proof (proj2 (laid_reify_mut h) _ _ _ _ L' (Nat.max (b - a) (b' - a'))) as E'.
  assert (F : Forall (fun t => tdepth t <= Nat.max (b - a) (b' - a')) ts)
    by (eapply Forall_impl; [exact D|]; intros; simpl in *; lia).
  assert (F' : Forall (fun t => tdepth t <= Nat.max (b - a) (b' - a')) ts')
    by (eapply Forall_impl; [exact D'|]; intros; simpl in *; lia).
  specialize (E F). specialize (E' F'). congruence.
Qed.

(** *** Effects *)

Lemma effect_refl {EngineState} a b (s : state EngineState) : effect a b [] (engine s) s s.
Proof. unfold effect. rewrite app_nil_r. repeat split; done. Qed.

Lemma effect_weaken {EngineState} a b a' b' cs e' (s s' : state EngineState) :
  a' <= a -> b <= b' -> effect a b cs e' s s' -> effect a' b' cs e' s s'.
Proof.
  intros Ha Hb (? & ? & ? & ? & ? & ? & F). repeat split; try done.
  intros l Hl. apply F. lia.
Qed.

Lemma effect_trans {EngineState} a m b cs1 cs2 e1 e2 (s s1 s2 : state EngineState) :
  a <= m -> m <= b ->
  effect a m cs1 e1 s s1 -> effect m b cs2 e2 s1 s2 -> effect a b (cs1 ++ cs2) e2 s s2.
Proof.
  intros Ha Hb (C1 & E1 & U1 & N1 & O1 & S1 & F1) (C2 & E2 & U2 & N2 & O2 & S2 & F2).
  split; [by rewrite C2, C1, app_assoc|]. split; [done|].
  split; [congruence|]. split; [congruence|]. split; [congruence|].
  split; [by eapply same_shape_trans|].
  intros l Hl. rewrite F2 by lia. apply F1. lia.
Qed.

(** *** A loop over nodes laid out one after the other *)

Section Loop.
Context {EngineState A : Type}.
Variable R : A -> tree -> Prop.
Variable step : val -> M EngineState unit.
Variable run : A -> EngineState -> option (A * EngineState).
Variable cs : A -> list call.
Variable Inv : state EngineState -> Prop.
Hypothesis Inv_shape :
  forall s s', Inv s -> same_shape (heap s) (heap s') -> Inv s'.
Hypothesis step_spec :
  forall a m v t x (s : state EngineState) x' e',
    Inv s -> laid (heap s) a m v t -> R x t -> run x (engine s) = Some (x', e') ->
    exists s' t',
      step v s = (Ok tt, s') /\ effect a m (cs x) e' s s' /\
      laid (heap s') a m v t' /\ R x' t'.

Lemma loop_spec h0 a b vs ts :
  laid_elems h0 a b vs ts ->
  forall xs (s : state EngineState) xs' e',
    Inv s -> Forall2 R xs ts -> agree_on a b h0 (heap s) ->
    thread run xs (engine s) = Some (xs', e') ->
    exists s' ts',
      for_each vs step s = (Ok tt, s') /\ effect a b (flat_map cs xs) e' s s' /\
      laid_elems (heap s') a b vs ts' /\ Forall2 R xs' ts'.
Proof using Inv_shape step_spec.
  induction 1 as [|a m b v t vs ts L1 L2 IH]; intros xs s xs' e' HI F Ag E.
  - inversion F; subst. cbn [thread] in E. injection E as <- <-.
    exists s, []. split; [done|]. split; [apply effect_refl|]. split; constructor.
  - inversion F as [|x t0 xs0 ts0 Hx F']; subst.
    cbn [thread] in E.
    destruct (run x (engine s)) as [[x' e1]|] eqn:Ex; [|done].
    destruct (thread run xs0 e1) as [[xs0' e2]|] eqn:Er; [|done].
    injection E as <- <-.
    pose proof (laid_range _ _ _ _ _ L1) as R1. pose proof (laid_elems_range _ _ _ _ _ L2) as R2.
    assert (L1' : laid (heap s) a m v t).
    { eapply laid_agree; [exact L1|]. eapply agree_on_sub; [exact Ag|lia|lia]. }
    destruct (step_spec a m v t x s x' e1 HI L1' Hx Ex) as (s1 & t1 & E1 & Hf1 & Lt1 & Hx').
    pose proof Hf1 as (_ & He1 & _ & _ & _ & Hsh1 & Hfr1).
    destruct (IH xs0 s1 xs0' e2) as (s2 & ts2 & E2 & Hf2 & Lt2 & Hxs').
    { by eapply Inv_shape. }
    { done. }
    { intros l Hl. rewrite (Ag l) by lia. symmetry. apply Hfr1. lia. }
    { by rewrite He1. }
    pose proof Hf2 as (_ & _ & _ & _ & _ & _ & Hfr2).
    exists s2, (t1 :: ts2). split.
    { cbn [for_each]. unfold bind. by rewrite E1. }
    split; [cbn [flat_map]; by eapply effect_trans|].
    split; [|by constructor].
    econstructor; [|exact Lt2].
    eapply laid_agree; [exact Lt1|]. intros l Hl. symmetry. apply Hfr2. lia.
Qed.

End Loop.

(** *** The properties of a style object literal, one by one *)

Lemma laid_properties h a b v fs ty ps :
  laid h a b v (TObj fs) ->
  assoc "type" fs = Some (TStr ty) -> assoc "properties" fs = Some (TArr ps) ->
  exists l fvs lps vs ap,
    v = VRef l /\ b = S l /\ h !! l = Some (OObj fvs) /\
    assoc "type" fvs = Some (VStr ty) /\ assoc "properties" fvs = Some (VRef lps) /\
    h !! lps = Some (OArr vs) /\ laid_elems h ap lps vs ps /\ a <= ap /\ lps < l.
Proof.
  intros L Hty Hps.
  destruct (laid_node_inv _ _ _ _ _ L I) as (l & -> & ->).
  destruct (laid_cell _ _ _ _ _ L) as (fvs & Hl & _ & Ff).
  destruct (Ff _ _ Hty) as (vty & ? & ? & Hvty & Lty & _). apply laid_str_inv in Lty as ->.
  destruct (Ff _ _ Hps) as (vps & ap & bp & Hvps & Lps & Hap & Hbp).
  destruct (laid_node_inv _ _ _ _ _ Lps I) as (lps & -> & ->).
  destruct (laid_ref_inv _ _ _ _ _ Lps) as [_ [(? & ? & [=] & _)|(vs & ps' & [= <-] & Hlps & Le)]].
  exists l, fvs, lps, vs, ap. repeat split; try done; lia.
Qed.

Lemma laid_properties_back h a b l t fvs ty lps vs a1 b1 ts :
  laid h a b (VRef l) t -> h !! l = Some (OObj fvs) ->
  assoc "type" fvs = Some (VStr ty) -> assoc "properties" fvs = Some (VRef lps) ->
  h !! lps = Some (OArr vs) -> laid_elems h a1 b1 vs ts ->
  exists fs, t = TObj fs /\ assoc "type" fs = Some (TStr ty) /\
             assoc "properties" fs = Some (TArr ts).
Proof.
  intros L Hl Hty Hps Hlps Le.
  destruct (laid_cell_back _ _ _ _ _ _ L Hl) as (fs & -> & Fb).
  destruct (Fb _ _ Hty) as (t1 & ? & ? & H1 & L1). apply laid_str_inv' in L1 as ->.
  destruct (Fb _ _ Hps) as (t2 & ? & ? & H2 & L2).
  destruct (laid_ref_inv _ _ _ _ _ L2) as [_ [(? & ? & _ & Hbad & _)|(vs' & ps2 & -> & Hlps2 & Le2)]];
    [congruence|].
  assert (vs' = vs) as -> by congruence.
  rewrite (laid_elems_inj _ _ _ _ _ _ _ _ Le2 Le) in H2.
  exists fs. by repeat split.
Qed.

Section StyleFacts.
Context {EngineState : Type}.
Variable alchemyProcessing : call -> EngineState -> option string * EngineState.
Variable isModular : tree.
Variable filePath : option string.

(** A step that asks the engine for the text of a string property. *)
Lemma literal_step (step : M EngineState unit) c a m v t name text answer e'
    (s : state EngineState) :
  laid (heap s) a m v t -> string_property name text t ->
  alchemyProcessing c (engine s) = (Some answer, e') ->
  (forall lp lk lv, v = VRef lp -> property_cells (heap s) lp lk lv name text ->
                    step s = literal_outcome alchemyProcessing c lv "value" s) ->
  exists s' t',
    step s = (Ok tt, s') /\ effect a m [c] e' s s' /\
    laid (heap s') a m v t' /\
    string_property name (if nonempty answer then answer else text) t'.
Proof.
  intros L Hp Ec Hstep.
  destruct (laid_property_cells _ _ _ _ _ _ _ L Hp) as (lp & lk & lv & -> & -> & Hlk & Hlv & Hc).
  pose proof Hc as (N1 & N2 & pvs & kvs & vvs & Hp1 & Hk1 & Hv1 & Hlk1 & Hkt & Hkn & Hlv1
                    & Hvt & Hvv).
  specialize (Hstep lp lk lv eq_refl Hc). unfold literal_outcome in Hstep.
  rewrite Ec in Hstep. cbn [fst] in Hstep.
  set (s1 := after_call alchemyProcessing c (replace_nonempty lv "value" answer (heap s)) s) in *.
  assert (Hsh : same_shape (heap s) (heap s1))
    by (unfold s1, after_call; cbn [heap]; by eapply replace_nonempty_shape).
  destruct (laid_shape _ _ _ _ _ _ Hsh L) as (t' & L').
  exists s1, t'. split; [done|]. split; [|split; [done|]].
  - unfold effect, s1, after_call. cbn [calls engine usedObjects transformedNodes console heap].
    rewrite Ec. cbn [snd]. repeat split; try done.
    intros l Hl. apply replace_nonempty_lookup_ne. lia.
  - eapply cells_string_property; [exact L'|].
    unfold s1, after_call. cbn [heap]. by apply property_cells_written.
Qed.

Lemma answer_text_inv c text e text' e' :
  answer_text alchemyProcessing c text e = Some (text', e') ->
  exists answer, alchemyProcessing c e = (Some answer, e') /\
                 text' = if nonempty answer then answer else text.
Proof.
  unfold answer_text. destruct (alchemyProcessing c e) as [[answer|] e1]; [|done].
  intros [= <- <-]. eauto.
Qed.

(** The body of the inner loop at a property of a group. *)
Lemma nested_step_spec lp group a m v t n (s : state EngineState) n' e' :
  outer_key (heap s) lp group -> laid (heap s) a m v t -> nested_tree n t ->
  answer_nested alchemyProcessing isModular filePath group n (engine s) = Some (n', e') ->
  exists s' t',
    nested_step alchemyProcessing isModular filePath (VRef lp) v s = (Ok tt, s') /\
    effect a m (nested_calls isModular filePath group n) e' s s' /\
    laid (heap s') a m v t' /\ nested_tree n' t'.
Proof.
  intros (pfs & lk & kfs & Hp & Hk & Hlk & Hn) L Ht E.
  destruct n as [name text|q]; cbn [answer_nested nested_tree nested_calls] in *.
  - destruct (answer_text _ _ _ _) as [[text' e1]|] eqn:Ea; [|done]. injection E as <- <-.
    apply answer_text_inv in Ea as (answer & Ec & ->).
    apply (literal_step _ _ a m v t name text answer e1 s L Ht Ec).
    intros lp' lk' lv' -> (_ & _ & pvs & kvs & vvs & Hp1 & Hk1 & Hv1 & Hlk1 & Hkt & Hkn & Hlv1
                           & Hvt & Hvv).
    by eapply nested_step_string.
  - injection E as <- <-. destruct Ht as [-> (qfs & vfs & -> & Hv & Hvt)].
    destruct (laid_node_inv _ _ _ _ _ L I) as (ln & -> & ->).
    destruct (laid_cell _ _ _ _ _ L) as (nvs & Hln & _ & Fn).
    destruct (Fn _ _ Hv) as (vv & av & bv & Hvv & Lv & _).
    destruct (laid_node_inv _ _ _ _ _ Lv I) as (lv & -> & ->).
    destruct (laid_cell _ _ _ _ _ Lv) as (vvs & Hlv & _ & Fv).
    destruct (Fv _ _ Hvt) as (vty & ? & ? & Hvty & Lty & _). apply laid_str_inv in Lty as ->.
    exists s, (TObj qfs). split.
    { by eapply nested_step_object. }
    split; [apply effect_refl|]. split; [done|]. split; [done|]. by exists qfs, vfs.
Qed.

(** A property whose value is an object literal: the inner loop runs over
    the properties of that object literal. *)
Lemma property_step_group (s : state EngineState) lp pvs lk kvs lv vvs lps vs :
  heap s !! lp = Some (OObj pvs) ->
  assoc "key" pvs = Some (VRef lk) ->
  assoc "value" pvs = Some (VRef lv) ->
  heap s !! lk = Some (OObj kvs) ->
  assoc "type" kvs = Some (VStr "Identifier") ->
  heap s !! lv = Some (OObj vvs) ->
  assoc "type" vvs = Some (VStr "ObjectExpression") ->
  assoc "properties" vvs = Some (VRef lps) ->
  heap s !! lps = Some (OArr vs) ->
  property_step alchemyProcessing isModular filePath (VRef lp) s
  = for_each vs (nested_step alchemyProcessing isModular filePath (VRef lp)) s.
Proof.
  intros Hp Hk Hv Hlk Hkt Hlv Hvt Hvp Hlps.
  unfold property_step, type_is, field_is. run_reads.
  unfold iterate. by rewrite Hlps.
Qed.

(** The body of the outer loop at a property of a style object literal. *)
Lemma property_step_spec a m v t i (s : state EngineState) i' e' :
  laid (heap s) a m v t -> item_tree i t ->
  answer_item alchemyProcessing isModular filePath i (engine s) = Some (i', e') ->
  exists s' t',
    property_step alchemyProcessing isModular filePath v s = (Ok tt, s') /\
    effect a m (item_calls isModular filePath i) e' s s' /\
    laid (heap s') a m v t' /\ item_tree i' t'.
Proof.
  intros L Ht E.
  destruct i as [name text|name nested]; cbn [answer_item item_tree item_calls] in *.
  - destruct (answer_text _ _ _ _) as [[text' e1]|] eqn:Ea; [|done]. injection E as <- <-.
    apply answer_text_inv in Ea as (answer & Ec & ->).
    apply (literal_step _ _ a m v t name text answer e1 s L Ht Ec).
    intros lp' lk' lv' -> (_ & _ & pvs & kvs & vvs & Hp1 & Hk1 & Hv1 & Hlk1 & Hkt & Hkn & Hlv1
                           & Hvt & Hvv).
    by eapply property_step_string.
  - destruct (thread _ nested (engine s)) as [[nested' e1]|] eqn:Et; [|done].
    injection E as <- <-.
    destruct Ht as (ps & (pfs & kfs & vfs & -> & Hkey & Hkty & Hkn & Hval & Hvty & Hvps) & F).
    destruct (laid_node_inv _ _ _ _ _ L I) as (lp & -> & ->).
    destruct (laid_cell _ _ _ _ _ L) as (pvs & Hlp & _ & Fp).
    destruct (Fp _ _ Hkey) as (vk & ak & bk & Hvk & Lk & _).
    destruct (laid_node_inv _ _ _ _ _ Lk I) as (lk & -> & ->).
    destruct (laid_cell _ _ _ _ _ Lk) as (kvs & Hlk & _ & Fk).
    destruct (Fk _ _ Hkty) as (v1 & ? & ? & Hk1 & L1 & _). apply laid_str_inv in L1 as ->.
    destruct (Fk _ _ Hkn) as (v2 & ? & ? & Hk2 & L2 & _). apply laid_str_inv in L2 as ->.
    destruct (Fp _ _ Hval) as (vv & av & bv & Hvv & Lv & Hav & Hbv).
    destruct (laid_properties _ _ _ _ _ _ _ Lv Hvty Hvps)
      as (lv & vvs & lps & vs & ap & -> & -> & Hlv & Hty & Hpr & Hlps & Le & Hap & Hlt).
    destruct (loop_spec nested_tree (nested_step alchemyProcessing isModular filePath (VRef lp))
                (answer_nested alchemyProcessing isModular filePath name)
                (nested_calls isModular filePath name)
                (fun s0 => outer_key (heap s0) lp name))
      with (h0 := heap s) (a := ap) (b := lps) (vs := vs) (ts := ps) (xs := nested) (s := s)
           (xs' := nested') (e' := e1)
      as (s' & ts' & Ef & Heff & Le' & F').
    { intros s0 s0' H0 Hsh. by eapply outer_key_shape. }
    { intros a0 m0 v0 t0 xn s0 xn' e0 H0 L0 Hxn Exn. by eapply nested_step_spec. }
    { done. }
    { by exists pvs, lk, kvs. }
    { done. }
    { apply agree_on_refl. }
    { done. }
    pose proof Heff as (_ & _ & _ & _ & _ & Hsh & _).
    destruct (laid_shape _ _ _ _ _ _ Hsh L) as (t' & L').
    exists s', t'. split.
    { by rewrite (property_step_group s lp pvs lk kvs lv vvs lps vs). }
    split; [eapply effect_weaken; [| |exact Heff]; lia|]. split; [done|].
    exists ts'. split; [|done].
    destruct (same_shape_cell _ _ _ _ Hsh Hlp) as (pvs' & Hlp' & _ & Hpr').
    destruct (same_shape_cell _ _ _ _ Hsh Hlk) as (kvs' & Hlk' & Hko & _).
    destruct (same_shape_cell _ _ _ _ Hsh Hlv) as (vvs' & Hlv' & Hvo & Hvr).
    pose proof (same_shape_arr _ _ _ _ Hsh Hlps) as Hlps'.
    destruct (laid_cell_back _ _ _ _ _ _ L' Hlp') as (pfs' & -> & Fb).
    destruct (Fb _ _ (Hpr' _ _ Hvk)) as (tk & ? & ? & Hkey' & Lk').
    destruct (laid_cell_back _ _ _ _ _ _ Lk' Hlk') as (kfs' & -> & Fkb).
    destruct (Fkb _ _ (Hko _ _ Hk1 eq_refl)) as (t1 & ? & ? & Hkty' & L1').
    apply laid_str_inv' in L1' as ->.
    destruct (Fkb _ _ (Hko _ _ Hk2 eq_refl)) as (t2 & ? & ? & Hkn' & L2').
    apply laid_str_inv' in L2' as ->.
    destruct (Fb _ _ (Hpr' _ _ Hvv)) as (tv & ? & ? & Hval' & Lv').
    destruct (laid_properties_back _ _ _ _ _ _ _ _ _ _ _ _ Lv' Hlv'
                (Hvo _ _ Hty eq_refl) (Hvr _ _ Hpr) Hlps' Le')
      as (vfs' & -> & Hvty' & Hvps').
    exists pfs', kfs', vfs'. by repeat split.
Qed.

(** [generatesAlchemy] on a style object literal. *)
Lemma style_literal_transformed a b root t items items' e' (s : state EngineState) :
  laid (heap s) a b root t -> style_literal items t ->
  answer_items alchemyProcessing isModular filePath items (engine s) = Some (items', e') ->
  exists s' t',
    generatesAlchemy alchemyProcessing isModular filePath root s = (Ok tt, s') /\
    effect a b (style_calls isModular filePath items) e' s s' /\
    laid (heap s') a b root t' /\ style_literal items' t'.
Proof.
  intros L (fs & ps & -> & Hty & Hps & F) E.
  destruct (laid_properties _ _ _ _ _ _ _ L Hty Hps)
    as (l & fvs & lps & vs & ap & -> & -> & Hl & Hvty & Hvps & Hlps & Le & Hap & Hlt).
  destruct (loop_spec item_tree (property_step alchemyProcessing isModular filePath)
              (answer_item alchemyProcessing isModular filePath)
              (item_calls isModular filePath) (fun _ => True))
    with (h0 := heap s) (a := ap) (b := lps) (vs := vs) (ts := ps) (xs := items) (s := s)
         (xs' := items') (e' := e')
    as (s' & ts' & Ef & Heff & Le' & F').
  { done. }
  { intros a0 m0 v0 t0 xi s0 xi' e0 _ L0 Hxi Exi. by eapply property_step_spec. }
  { done. }
  { done. }
  { done. }
  { apply agree_on_refl. }
  { done. }
  pose proof Heff as (_ & _ & _ & _ & _ & Hsh & _).
  destruct (laid_shape _ _ _ _ _ _ Hsh L) as (t' & L').
  exists s', t'. split.
  { unfold generatesAlchemy, try_catch, get, read.
    unfold bind at 1. cbn [fst snd]. unfold type_is, field_is.
    rewrite (get_field_obj _ _ _ _ Hl), Hvty. cbn [or_undef String.eqb Ascii.eqb Bool.eqb negb].
    unfold bind at 1. unfold bind at 1. cbn [get_path].
    rewrite (get_field_obj _ _ _ _ Hl), Hvps. cbn [or_undef iterate]. rewrite Hlps.
    by rewrite Ef. }
  split; [eapply effect_weaken; [| |exact Heff]; lia|]. split; [done|].
  destruct (same_shape_cell _ _ _ _ Hsh Hl) as (fvs' & Hl' & Ho & Hr).
  pose proof (same_shape_arr _ _ _ _ Hsh Hlps) as Hlps'.
  destruct (laid_properties_back _ _ _ _ _ _ _ _ _ _ _ _ L' Hl'
              (Ho _ _ Hvty eq_refl) (Hr _ _ Hvps) Hlps' Le')
    as (fs' & -> & Hty' & Hps').
  exists fs', ts'. by repeat split.
Qed.

End StyleFacts.



Lemma group_property_objectProperty name ps :
  group_property name ps (objectProperty name (objectExpression ps)).
Proof.
  unfold objectProperty, objectExpression, identifier, node.
  eexists _, _, _. split; [reflexivity|]. by repeat split.
Qed.

Lemma deep_property_objectProperty name ps :
  deep_property (objectProperty name (objectExpression ps)).
Proof.
  unfold objectProperty, objectExpression, identifier, node.
  eexists _, _. split; [reflexivity|]. by repeat split.
Qed.

Lemma style_literal_objectExpression items ps :
  Forall2 item_tree items ps -> style_literal items (objectExpression ps).
Proof.
  intros F. unfold objectExpression, node. eexists _, ps. split; [reflexivity|]. by repeat split.
Qed.

Lemma grouped_block_style : style_literal grouped_items grouped_block.
Proof.
  apply style_literal_objectExpression.
  constructor; [apply string_property_objectProperty|].
  constructor; [|constructor].
  eexists. split; [apply group_property_objectProperty|].
  constructor; [apply string_property_objectProperty|].
  constructor; [|constructor].
  split; [reflexivity|apply deep_property_objectProperty].
Qed.

(** ** Nesting *)

(** C5 (amended).  One level of nesting.  The body of the inner loop
    transforms a string-literal property of a nested object literal with the
    name of the enclosing key as its pseudo-group, and passes over a property
    of it whose value is an object literal again: the engine is not called and
    nothing is written.  For a style object literal laid out in the store
    whose properties are string properties and groups (a property whose value
    is an object literal, with string properties and object literals again
    inside), and an engine that throws for none of the calls,
    [generatesAlchemy] goes through the properties of each group: the calls
    it makes are those of [style_calls], in order, one for each string
    property at the top with the empty pseudo-group, one for each string
    property of a group with the name of the group as pseudo-group, and none
    for what is inside an object literal held by a group.  The literal then
    reads as [items']: the texts at these two levels replaced by the answers
    that are not empty, the object literals inside the groups as they were.
    When nothing else in the literal holds an object literal, the walk from
    the literal does the same and no more. *)
Theorem C5_one_level_of_nesting :
  (forall (EngineState : Type)
          (alchemyProcessing : call -> EngineState -> option string * EngineState)
          (isModular : tree) (filePath : option string) (s : state EngineState)
          lp lk kfs pfs ln nfs lnk nkfs lv vfs pseudo name text,
      heap s !! lp = Some (OObj pfs) ->
      assoc "key" pfs = Some (VRef lk) ->
      heap s !! lk = Some (OObj kfs) ->
      assoc "name" kfs = Some pseudo ->
      heap s !! ln = Some (OObj nfs) ->
      assoc "key" nfs = Some (VRef lnk) ->
      assoc "value" nfs = Some (VRef lv) ->
      heap s !! lnk = Some (OObj nkfs) ->
      assoc "name" nkfs = Some name ->
      heap s !! lv = Some (OObj vfs) ->
      assoc "type" vfs = Some (VStr "StringLiteral") ->
      assoc "value" vfs = Some (VStr text) ->
      nested_step alchemyProcessing isModular filePath (VRef lp) (VRef ln) s =
      literal_outcome alchemyProcessing
        (Call name (json_quote (replaceAll_dquote text)) isModular
              (path_or_empty filePath) pseudo)
        lv "value" s) /\
  (forall (EngineState : Type)
          (alchemyProcessing : call -> EngineState -> option string * EngineState)
          (isModular : tree) (filePath : option string) (s : state EngineState)
          lp lk kfs pfs ln nfs lv vfs,
      heap s !! lp = Some (OObj pfs) ->
      assoc "key" pfs = Some (VRef lk) ->
      heap s !! lk = Some (OObj kfs) ->
      heap s !! ln = Some (OObj nfs) ->
      assoc "value" nfs = Some (VRef lv) ->
      heap s !! lv = Some (OObj vfs) ->
      assoc "type" vfs = Some (VStr "ObjectExpression") ->
      nested_step alchemyProcessing isModular filePath (VRef lp) (VRef ln) s = (Ok tt, s)) /\
  (forall (EngineState : Type)
          (alchemyProcessing : call -> EngineState -> option string * EngineState)
          (isModular : tree) (filePath : option string)
          (a b : nat) (root : val) (t : tree) (items items' : list item)
          (e' : EngineState) (s : state EngineState),
      laid (heap s) a b root t ->
      style_literal items t ->
      answer_items alchemyProcessing isModular filePath items (engine s) = Some (items', e') ->
      exists s' t',
        generatesAlchemy alchemyProcessing isModular filePath root s = (Ok tt, s') /\
        calls s' = calls s ++ style_calls isModular filePath items /\
        engine s' = e' /\ console s' = console s /\
        (forall l, ~ (a <= l < b) -> heap s' !! l = heap s !! l) /\
        laid (heap s') a b root t' /\
        style_literal items' t' /\
        forall fuel, walked_plain t = true -> b - a <= fuel ->
          exists visited,
            walkThroughOutAst alchemyProcessing isModular filePath fuel root s
            = (Ok visited, s')).
Proof.
  split; [|split].
  - intros. by eapply nested_step_string.
  - intros. by eapply nested_step_object.
  - intros EngineState alchemyProcessing isModular filePath a b root t items items' e' s L Hst E.
    destruct (style_literal_transformed alchemyProcessing isModular filePath a b root t items
                items' e' s L Hst E)
      as (s' & t' & Eg & (Hc & He & _ & _ & Hcon & _ & Hfr) & L' & Hst').
    exists s', t'. split; [done|]. split; [done|]. split; [done|]. split; [done|].
    split; [done|]. split; [done|]. split; [done|].
    intros fuel Hplain Hfuel.
    destruct Hst as (fs & ps & -> & Hty & _).
    destruct (laid_node_inv _ _ _ _ _ L I) as (l & -> & ->).
    by destruct (walk_literal alchemyProcessing isModular filePath fuel a (S l) l fs s s'
                   L Hty Hplain Eg Hfuel) as [_ ?].
Qed.

Lemma C5_one_level_of_nesting_witness :
  exists s' t',
    generatesAlchemy engine_concat (TBool false) (Some "/app/src/a.js")
                     (fst (alloc grouped_block []))
                     (initial_state tt (snd (alloc grouped_block []))) = (Ok tt, s') /\
    calls s' = calls (initial_state tt (snd (alloc grouped_block [])))
               ++ style_calls (TBool false) (Some "/app/src/a.js") grouped_items /\
    engine s' = tt /\
    console s' = console (initial_state tt (snd (alloc grouped_block []))) /\
    (forall l, ~ (0 <= l < length (snd (alloc grouped_block []))) ->
               heap s' !! l = heap (initial_state tt (snd (alloc grouped_block []))) !! l) /\
    laid (heap s') 0 (length (snd (alloc grouped_block []))) (fst (alloc grouped_block [])) t' /\
    style_literal
      [IText "bgd" ("bgd_" +:+ json_quote "red");
       IGroup "Hover"
         [NText "color" ("color_" +:+ json_quote "blue");
          NDeep (objectProperty "Inner"
                   (objectExpression [objectProperty "pdg" (stringLiteral "1px")]))]] t' /\
    forall fuel, walked_plain grouped_block = true ->
      length (snd (alloc grouped_block [])) - 0 <= fuel ->
      exists visited,
        walkThroughOutAst engine_concat (TBool false) (Some "/app/src/a.js") fuel
                          (fst (alloc grouped_block []))
                          (initial_state tt (snd (alloc grouped_block [])))
        = (Ok visited, s').
Proof.
  refine (proj2 (proj2 C5_one_level_of_nesting) unit engine_concat (TBool false)
                (Some "/app/src/a.js")
                0 (length (snd (alloc grouped_block []))) (fst (alloc grouped_block []))
                grouped_block grouped_items _ tt
                (initial_state tt (snd (alloc grouped_block []))) _ _ _).
  - apply (proj2 (alloc_laid grouped_block [] _ _ (surjective_pairing _))).
  - apply grouped_block_style.
  - vm_compute. reflexivity.
Defined.

(** ** A style object literal over a run *)

Section VisitStyle.
Context {EngineState : Type}.
Variable alchemyProcessing : call -> EngineState -> option string * EngineState.
Variable generatesHashingHex : string -> bool -> bool -> string.
Variable resolve : string -> string.
Variables exclude isModular : tree.
Variable fuel : nat.


End VisitStyle.




